(** * Word template exporter (src/wordTemplateExporter.js)

    A shallow embedding of the [WordTemplateExporter] class: JavaScript
    strings are lists of UTF-16 code units, the regular expressions of the
    source are terms of a small backtracking matcher that follows the
    ECMAScript pattern semantics, and [convert] runs in an error monad over
    an explicit file system and console. *)

From Stdlib Require Import NArith ZArith Lia Bool Ascii String.
From stdpp Require Import base list strings gmap.

Local Open Scope nat_scope.

(** ** JavaScript strings *)

(** A UTF-16 code unit. *)
Definition char := N.

(** A JavaScript string: [length], indices and the regular expressions of
    the source all count code units. *)
Definition jsstring := list char.

(** An ASCII literal of the source. *)
Definition lit (s : string) : jsstring :=
  map N_of_ascii (list_ascii_of_string s).

(** U+0022, the double quote. *)
Definition dquote : char := 34%N.
(** U+0027, the apostrophe. *)
Definition apos : char := 39%N.

(** A markup literal of the source. The markup of the source never holds
    an apostrophe; in the literals of this file the apostrophe stands for
    the double quote U+0022, which [xml] puts back. *)
Definition xml (s : string) : jsstring :=
  map (fun c => if N.eqb c apos then dquote else c) (lit s).

Definition nl : char := 10%N.
Definition ch (s : string) : char :=
  match lit s with c :: _ => c | [] => 0%N end.

(** WhiteSpace and LineTerminator code units: what [String.prototype.trim]
    strips and what the class escape [\s] matches. *)
Definition is_space (c : char) : bool :=
  ((9 <=? c) && (c <=? 13) || (c =? 32) || (c =? 160) || (c =? 5760)
   || (8192 <=? c) && (c <=? 8202) || (c =? 8232) || (c =? 8233)
   || (c =? 8239) || (c =? 8287) || (c =? 12288) || (c =? 65279))%N.

(** LineTerminator code units, which [.] does not match. *)
Definition is_line_terminator (c : char) : bool :=
  ((c =? 10) || (c =? 13) || (c =? 8232) || (c =? 8233))%N.

Definition is_digit (c : char) : bool := ((48 <=? c) && (c <=? 57))%N.

(** [\w]: ASCII letters, digits and the underscore. *)
Definition is_word (c : char) : bool :=
  ((65 <=? c) && (c <=? 90) || (97 <=? c) && (c <=? 122)
   || is_digit c || (c =? 95))%N.

Fixpoint str_eqb (a b : jsstring) : bool :=
  match a, b with
  | [], [] => true
  | x :: a', y :: b' => N.eqb x y && str_eqb a' b'
  | _, _ => false
  end.

(** [s.startsWith(p)]. *)
Fixpoint startsWith (p s : jsstring) : bool :=
  match p, s with
  | [], _ => true
  | x :: p', y :: s' => N.eqb x y && startsWith p' s'
  | _ :: _, [] => false
  end.

(** [s.endsWith(p)]. *)
Definition endsWith (p s : jsstring) : bool :=
  startsWith (rev p) (rev s).

(** [s.indexOf(p)] as an option: [None] is the source's [-1]. *)
Fixpoint indexOf_from (p s : jsstring) (i : nat) : option nat :=
  if startsWith p s then Some i
  else match s with
       | [] => None
       | _ :: s' => indexOf_from p s' (S i)
       end.

Definition indexOf_opt (p s : jsstring) : option nat := indexOf_from p s 0.

(** [s.indexOf(p)] as the number the source computes with. *)
Definition indexOf (p s : jsstring) : Z :=
  match indexOf_opt p s with
  | Some i => Z.of_nat i
  | None => (-1)%Z
  end.

(** [s.includes(p)]. *)
Definition includes (p s : jsstring) : bool :=
  match indexOf_opt p s with Some _ => true | None => false end.

Fixpoint trimStart (s : jsstring) : jsstring :=
  match s with
  | c :: s' => if is_space c then trimStart s' else s
  | [] => []
  end.

Definition trimEnd (s : jsstring) : jsstring := rev (trimStart (rev s)).

(** [s.trim()]. *)
Definition trim (s : jsstring) : jsstring := trimEnd (trimStart s).

(** A string is truthy when it is not empty. *)
Definition truthy (s : jsstring) : bool :=
  match s with [] => false | _ :: _ => true end.

(** [s.split(c)] for a one-unit separator: never the empty array. *)
Fixpoint split (c : char) (s : jsstring) : list jsstring :=
  match s with
  | [] => [[]]
  | a :: s' =>
      if N.eqb a c then [] :: split c s'
      else match split c s' with
           | h :: r => (a :: h) :: r
           | [] => [[a]]
           end
  end.

(** [l.join(sep)]. *)
Fixpoint join (sep : jsstring) (l : list jsstring) : jsstring :=
  match l with
  | [] => []
  | [x] => x
  | x :: l' => x ++ sep ++ join sep l'
  end.

(** [s.slice(0, e)] and [s.slice(b)] for an integer argument: a negative
    one counts from the end of the string. *)
Definition slice_to (s : jsstring) (e : Z) : jsstring :=
  if (e <? 0)%Z then take (length s - Z.to_nat (- e)) s
  else take (Z.to_nat e) s.

Definition slice_from (s : jsstring) (b : Z) : jsstring :=
  if (b <? 0)%Z then drop (length s - Z.to_nat (- b)) s
  else drop (Z.to_nat b) s.

(** Decimal digits of a number, as template literals print it. *)
Fixpoint dec_digits (fuel : nat) (n : N) (acc : jsstring) : jsstring :=
  match fuel with
  | 0 => acc
  | S fuel' =>
      let acc' := (48 + n mod 10)%N :: acc in
      if (n / 10 =? 0)%N then acc' else dec_digits fuel' (n / 10)%N acc'
  end.

Definition N_to_js (n : N) : jsstring := dec_digits (S (N.to_nat (N.log2 n))) n [].

(** ** Regular expressions

    The patterns of the source use literals, classes, greedy and lazy
    quantifiers, capture groups and the two anchors; none has the [i], [m],
    [s] or [u] flag. The matcher below is the backtracking matcher of the
    ECMAScript specification in continuation-passing style. *)

Inductive cset_item :=
| COne (c : char)             (* a single code unit *)
| CRange (lo hi : char)       (* lo-hi *)
| CSpace                      (* \s *)
| CNonSpace                   (* \S *)
| CDigit                      (* \d *)
| CWord.                      (* \w *)

Inductive cclass :=
| CDot                        (* . *)
| CIn (items : list cset_item)     (* [...] or a single atom *)
| CNotIn (items : list cset_item). (* [^...] *)

Inductive regex :=
| REmpty
| RChar (c : cclass)
| RSeq (a b : regex)
| RRep (greedy : bool) (min : nat) (max : option nat) (a : regex)
| RGroup (i : nat) (a : regex)
| RBol                        (* ^ *)
| REol.                       (* $ *)

Definition item_matches (it : cset_item) (c : char) : bool :=
  match it with
  | COne d => N.eqb c d
  | CRange lo hi => (lo <=? c)%N && (c <=? hi)%N
  | CSpace => is_space c
  | CNonSpace => negb (is_space c)
  | CDigit => is_digit c
  | CWord => is_word c
  end.

Definition class_matches (cl : cclass) (c : char) : bool :=
  match cl with
  | CDot => negb (is_line_terminator c)
  | CIn items => existsb (fun it => item_matches it c) items
  | CNotIn items => negb (existsb (fun it => item_matches it c) items)
  end.

(** The state of a match in progress: the input still to read and the
    captures made so far (latest first). *)
Record mstate := MState { rest : jsstring; caps : list (nat * jsstring) }.

Definition cont := mstate -> option mstate.
Definition matcher := mstate -> cont -> option mstate.

Fixpoint group_ids (r : regex) : list nat :=
  match r with
  | RSeq a b => group_ids a ++ group_ids b
  | RRep _ _ _ a => group_ids a
  | RGroup i a => i :: group_ids a
  | _ => []
  end.

Definition clear_caps (ids : list nat) (x : mstate) : mstate :=
  MState (rest x)
    (List.filter (fun ic => negb (existsb (Nat.eqb (fst ic)) ids)) (caps x)).

Definition dec_max (max : option nat) : option nat :=
  match max with Some m => Some (pred m) | None => None end.

(** RepeatMatcher of the ECMAScript specification. An iteration that is
    not required and reads nothing is rejected, so each call either lowers
    [min] or shortens the input: [fuel] bounds their sum. *)
Fixpoint rep_loop (m : matcher) (ids : list nat) (greedy : bool)
    (fuel min : nat) (max : option nat) (x : mstate) (k : cont)
    : option mstate :=
  match fuel with
  | 0 => None
  | S fuel' =>
      match max with
      | Some 0 => k x
      | _ =>
          let d : cont := fun y =>
            if (min =? 0) && (length (rest y) =? length (rest x)) then None
            else rep_loop m ids greedy fuel' (pred min) (dec_max max) y k in
          let xr := clear_caps ids x in
          if negb (min =? 0) then m xr d
          else if greedy then
            match m xr d with
            | Some z => Some z
            | None => k x
            end
          else
            match k x with
            | Some z => Some z
            | None => m xr d
            end
      end
  end.

(** [n] is the length of the whole input, by which [^] recognises the
    start. *)
Fixpoint rmatch (n : nat) (r : regex) (x : mstate) (k : cont) {struct r}
    : option mstate :=
  match r with
  | REmpty => k x
  | RChar cl =>
      match rest x with
      | c :: t => if class_matches cl c then k (MState t (caps x)) else None
      | [] => None
      end
  | RSeq a b => rmatch n a x (fun y => rmatch n b y k)
  | RRep greedy min max a =>
      rep_loop (rmatch n a) (group_ids a) greedy
        (S (min + length (rest x))) min max x k
  | RGroup i a =>
      rmatch n a x (fun y =>
        k (MState (rest y)
             ((i, take (length (rest x) - length (rest y)) (rest x)) :: caps y)))
  | RBol => if length (rest x) =? n then k x else None
  | REol => match rest x with [] => k x | _ :: _ => None end
  end.

(** The pattern at one start position: [s] is the input from there on. *)
Definition match_here (n : nat) (r : regex) (s : jsstring) : option mstate :=
  rmatch n r (MState s []) Some.

(** The result of [exec]: [index], [m[0]] and the captures. *)
Record rxmatch := RxMatch
  { index : nat; matched : jsstring; groups : list (nat * jsstring) }.

Definition mk_match (n : nat) (s : jsstring) (y : mstate) : rxmatch :=
  RxMatch (n - length s) (take (length s - length (rest y)) s) (caps y).

(** [m[i]] for a capture group: [None] is [undefined]. *)
Fixpoint capture (i : nat) (g : list (nat * jsstring)) : option jsstring :=
  match g with
  | [] => None
  | (j, v) :: g' => if Nat.eqb i j then Some v else capture i g'
  end.

(** RegExpBuiltinExec: the start positions are tried from left to right. *)
Fixpoint search (n : nat) (r : regex) (s : jsstring) : option rxmatch :=
  match match_here n r s with
  | Some y => Some (mk_match n s y)
  | None =>
      match s with
      | [] => None
      | _ :: t => search n r t
      end
  end.

(** [r.exec(s)] with [lastIndex] 0, and [s.match(r)] without the [g]
    flag. *)
Definition exec (r : regex) (s : jsstring) : option rxmatch :=
  search (length s) r s.

(** [r.test(s)] with [lastIndex] 0. *)
Definition test (r : regex) (s : jsstring) : bool :=
  match exec r s with Some _ => true | None => false end.

(** [[...s.matchAll(r)]] for a pattern with the [g] flag. [skip] counts
    the units of the last match still to pass; after an empty match the
    next attempt starts one unit later. *)
Fixpoint matchAll_from (n : nat) (r : regex) (skip : nat) (s : jsstring)
    : list rxmatch :=
  match skip with
  | S j => match s with [] => [] | _ :: t => matchAll_from n r j t end
  | 0 =>
      match match_here n r s with
      | Some y =>
          mk_match n s y ::
          match s with
          | [] => []
          | _ :: t => matchAll_from n r (pred (length s - length (rest y))) t
          end
      | None => match s with [] => [] | _ :: t => matchAll_from n r 0 t end
      end
  end.

Definition matchAll (r : regex) (s : jsstring) : list rxmatch :=
  matchAll_from (length s) r 0 s.

(** [s.replace(r, f)] for a pattern with the [g] flag and a replacer
    function: what the function returns is inserted as it is. *)
Fixpoint replaceAll_from (n : nat) (r : regex) (f : rxmatch -> jsstring)
    (skip : nat) (s : jsstring) : jsstring :=
  match skip with
  | S j => match s with [] => [] | _ :: t => replaceAll_from n r f j t end
  | 0 =>
      match match_here n r s with
      | Some y =>
          f (mk_match n s y) ++
          match s with
          | [] => []
          | c :: t =>
              if length s - length (rest y) =? 0
              then c :: replaceAll_from n r f 0 t
              else replaceAll_from n r f (pred (length s - length (rest y))) t
          end
      | None =>
          match s with [] => [] | c :: t => c :: replaceAll_from n r f 0 t end
      end
  end.

Definition replaceAll_fn (r : regex) (f : rxmatch -> jsstring) (s : jsstring)
    : jsstring :=
  replaceAll_from (length s) r f 0 s.

(** GetSubstitution: the replacement patterns of a replacement string.
    [before] and [after] are the input around the match. *)
Fixpoint getSubstitution (m before after : jsstring)
    (g : list (nat * jsstring)) (ngroups : nat) (tpl : jsstring) : jsstring :=
  match tpl with
  | [] => []
  | c :: t =>
      if negb (N.eqb c 36) then c :: getSubstitution m before after g ngroups t
      else
        match t with
        | [] => [c]
        | d :: t' =>
            if N.eqb d 36 then 36%N :: getSubstitution m before after g ngroups t'
            else if N.eqb d 38 then m ++ getSubstitution m before after g ngroups t'
            else if N.eqb d 96 then before ++ getSubstitution m before after g ngroups t'
            else if N.eqb d 39 then after ++ getSubstitution m before after g ngroups t'
            else if is_digit d then
              let d1 := N.to_nat (d - 48) in
              let one :=
                if (1 <=? d1) && (d1 <=? ngroups)
                then default [] (capture d1 g)
                     ++ getSubstitution m before after g ngroups t'
                else c :: getSubstitution m before after g ngroups t in
              match t' with
              | e :: t'' =>
                  let d2 := 10 * d1 + N.to_nat (e - 48) in
                  if is_digit e && (1 <=? d2) && (d2 <=? ngroups)
                  then default [] (capture d2 g)
                       ++ getSubstitution m before after g ngroups t''
                  else one
              | [] => one
              end
            else c :: getSubstitution m before after g ngroups t
        end
  end.

(** [s.replace(r, f)] for a pattern without the [g] flag: the first match
    only. *)
Definition replace_fn (r : regex) (f : rxmatch -> jsstring) (s : jsstring)
    : jsstring :=
  match exec r s with
  | Some m =>
      take (index m) s ++ f m ++ drop (index m + length (matched m)) s
  | None => s
  end.

(** The replacer that a replacement string stands for. *)
Definition substitute (r : regex) (tpl s : jsstring) (m : rxmatch) : jsstring :=
  getSubstitution (matched m) (take (index m) s)
    (drop (index m + length (matched m)) s) (groups m)
    (length (group_ids r)) tpl.

(** [s.replace(r, tpl)] without and with the [g] flag. *)
Definition replace_re (r : regex) (tpl s : jsstring) : jsstring :=
  replace_fn r (substitute r tpl s) s.

Definition replaceAll_re (r : regex) (tpl s : jsstring) : jsstring :=
  replaceAll_fn r (substitute r tpl s) s.

(** [s.replace(pat, tpl)] for a string pattern: the first occurrence, and
    the replacement string is still read for its [$] patterns. *)
Definition replace_str (pat tpl s : jsstring) : jsstring :=
  match indexOf_opt pat s with
  | Some i =>
      take i s
      ++ getSubstitution pat (take i s) (drop (i + length pat) s) [] 0 tpl
      ++ drop (i + length pat) s
  | None => s
  end.

(** *** Writing patterns *)

Definition one (s : string) : regex := RChar (CIn [COne (ch s)]).
Definition cls (items : list cset_item) : regex := RChar (CIn items).
Definition ncls (items : list cset_item) : regex := RChar (CNotIn items).
Definition star (r : regex) : regex := RRep true 0 None r.
Definition plus (r : regex) : regex := RRep true 1 None r.
Definition atleast (n : nat) (r : regex) : regex := RRep true n None r.
Definition opt (r : regex) : regex := RRep true 0 (Some 1) r.
Definition lazy_star (r : regex) : regex := RRep false 0 None r.
Definition lazy_plus (r : regex) : regex := RRep false 1 None r.

Fixpoint rseq (l : list regex) : regex :=
  match l with
  | [] => REmpty
  | [r] => r
  | r :: l' => RSeq r (rseq l')
  end.

(** A run of literal code units. *)
Definition rlit (s : string) : regex :=
  rseq (map (fun c => RChar (CIn [COne c])) (lit s)).

Definition c1 (s : string) : cset_item := COne (ch s).
Definition rng (a b : string) : cset_item := CRange (ch a) (ch b).
Definition ws : regex := cls [CSpace].        (* \s *)
Definition digit : regex := cls [CDigit].     (* \d *)
Definition word : regex := cls [CWord].       (* \w *)
Definition any : regex := cls [CSpace; CNonSpace].  (* [\s\S] *)

(** ** The exporter *)

(** The fields of [pageSettings] that the exporter reads. *)
Record pageSettings := PageSettings
  { size : jsstring; orientation : jsstring }.

(** [escapeXml]. *)
Definition escapeXml (text : jsstring) : jsstring :=
  replaceAll_re (RChar (CIn [COne apos])) (lit "&apos;")
    (replaceAll_re (RChar (CIn [COne dquote])) (lit "&quot;")
       (replaceAll_re (one ">") (lit "&gt;")
          (replaceAll_re (one "<") (lit "&lt;")
             (replaceAll_re (one "&") (lit "&amp;") text)))).

(** [createRunXml]: an empty text gives no run. *)
Definition createRunXml (text : jsstring) (bold italic code : bool) : jsstring :=
  if negb (truthy text) then []
  else
    let escapedText := escapeXml text in
    let propsXml := xml "<w:rPr>" in
    let propsXml := if bold then propsXml ++ xml "<w:b/>" else propsXml in
    let propsXml := if italic then propsXml ++ xml "<w:i/>" else propsXml in
    let propsXml :=
      if code
      then (propsXml ++ xml "<w:rFonts w:ascii='Consolas' w:hAnsi='Consolas'/>")
           ++ xml "<w:sz w:val='20'/>"
      else propsXml in
    let propsXml := propsXml ++ xml "</w:rPr>" in
    xml "<w:r>" ++ propsXml ++ xml "<w:t xml:space='preserve'>" ++ escapedText
    ++ xml "</w:t></w:r>".

(** One entry of [patterns] in [parseInlineFormatting]; a flag that the
    source leaves out is [undefined], which [createRunXml] defaults to
    [false]. *)
Record pattern := Pattern
  { p_regex : regex; p_bold : bool; p_italic : bool; p_code : bool }.

Definition boldItalicPattern : pattern :=
  Pattern (rseq [rlit "***"; RGroup 1 (lazy_plus (RChar CDot)); rlit "***"])
    true true false.
Definition boldPattern : pattern :=
  Pattern (rseq [rlit "**"; RGroup 1 (lazy_plus (RChar CDot)); rlit "**"])
    true false false.
Definition italicPattern : pattern :=
  Pattern (rseq [rlit "*"; RGroup 1 (lazy_plus (RChar CDot)); rlit "*"])
    false true false.
Definition codePattern : pattern :=
  Pattern (rseq [rlit "`"; RGroup 1 (lazy_plus (RChar CDot)); rlit "`"])
    false false true.

Definition patterns : list pattern :=
  [boldItalicPattern; boldPattern; italicPattern; codePattern].

(** The state of the [for] loop that looks for the earliest match:
    [earliestPos] and, once [foundMatch] is set, [matchedPattern] and
    [match]. *)
Record earliest := Earliest
  { earliestPos : nat; found : option (pattern * rxmatch) }.

Definition tryPattern (remaining : jsstring) (e : earliest) (p : pattern)
    : earliest :=
  match exec (p_regex p) remaining with
  | Some m =>
      if index m <? earliestPos e then Earliest (index m) (Some (p, m))
      else e
  | None => e
  end.

Definition findEarliest (pats : list pattern) (remaining : jsstring)
    : earliest :=
  fold_left (tryPattern remaining) pats (Earliest (length remaining) None).

(** The [while] loop of [parseInlineFormatting] over a list of patterns.
    Each round either ends the loop or cuts [remaining] after the match;
    [None] reports that [fuel] rounds were not enough. *)
Fixpoint parseInlineLoop (pats : list pattern) (fuel : nat)
    (remaining out : jsstring) : option jsstring :=
  match fuel with
  | 0 => None
  | S fuel' =>
      if negb (0 <? length remaining) then Some out
      else
        let e := findEarliest pats remaining in
        match found e with
        | Some (matchedPattern, m) =>
            let out :=
              if 0 <? earliestPos e
              then out ++ createRunXml (take (earliestPos e) remaining)
                            false false false
              else out in
            let out :=
              out ++ createRunXml (default [] (capture 1 (groups m)))
                       (p_bold matchedPattern) (p_italic matchedPattern)
                       (p_code matchedPattern) in
            parseInlineLoop pats fuel'
              (drop (earliestPos e + length (matched m)) remaining) out
        | None => Some (out ++ createRunXml remaining false false false)
        end
  end.

Definition parseInlineWith (pats : list pattern) (text : jsstring)
    : option jsstring :=
  parseInlineLoop pats (S (length text)) text [].

(** [parseInlineFormatting]; [parseInlineFormatting_total] below shows that
    the loop always ends within its bound, so the second branch is never
    taken. *)
Definition parseInlineFormatting (text : jsstring) : jsstring :=
  match parseInlineWith patterns text with
  | Some out => out
  | None => []
  end.

(** [createHeadingXml]. *)
Definition createHeadingXml (text : jsstring) (level : nat) : jsstring :=
  let styleName := lit "Heading" ++ N_to_js (N.of_nat level) in
  let runs := parseInlineFormatting text in
  xml "<w:p>
            <w:pPr>
                <w:pStyle w:val='" ++ styleName ++ xml "'/>
            </w:pPr>
            " ++ runs ++ xml "
        </w:p>".

(** [createParagraphXml]. *)
Definition createParagraphXml (text : jsstring) : jsstring :=
  let runs := parseInlineFormatting text in
  xml "<w:p>
            <w:pPr>
                <w:pStyle w:val='Normal'/>
            </w:pPr>
            " ++ runs ++ xml "
        </w:p>".

(** [createQuoteXml]. *)
Definition createQuoteXml (text : jsstring) : jsstring :=
  let runs := parseInlineFormatting text in
  xml "<w:p>
            <w:pPr>
                <w:pStyle w:val='Quote'/>
            </w:pPr>
            " ++ runs ++ xml "
        </w:p>".

(** [createListItemXml]. *)
Definition createListItemXml (text : jsstring) (numbered : bool) : jsstring :=
  let runs := parseInlineFormatting text in
  let numId := if numbered then lit "1" else lit "2" in
  xml "<w:p>
            <w:pPr>
                <w:pStyle w:val='"
  ++ (if numbered then lit "ListNumber" else lit "ListBullet") ++ xml "'/>
                <w:numPr>
                    <w:ilvl w:val='0'/>
                    <w:numId w:val='" ++ numId ++ xml "'/>
                </w:numPr>
            </w:pPr>
            " ++ runs ++ xml "
        </w:p>".

(** The paragraph that [createCodeBlockXml] appends for one line;
    [count] is [lines.length]. *)
Definition codeLineXml (count index : nat) (line : jsstring) : jsstring :=
  let escapedLine := escapeXml line in
  xml "<w:p>
                <w:pPr>
                    <w:pStyle w:val='Normal'/>
                    <w:shd w:val='clear' w:color='auto' w:fill='F5F5F5'/>
                    <w:spacing w:before='"
  ++ (if index =? 0 then lit "120" else lit "0") ++ xml "' w:after='"
  ++ (if index =? count - 1 then lit "120" else lit "0")
  ++ xml "' w:line='240' w:lineRule='exact'/>
                    <w:ind w:left='284' w:right='284'/>
                    <w:jc w:val='left'/>
                    <w:keepLines/>
                    <w:wordWrap w:val='0'/>
                </w:pPr>
                <w:r>
                    <w:rPr>
                        <w:rFonts w:ascii='Consolas' w:hAnsi='Consolas' w:cs='Consolas'/>
                        <w:sz w:val='18'/>
                        <w:szCs w:val='18'/>
                        <w:noProof/>
                    </w:rPr>
                    <w:t xml:space='preserve'>" ++ escapedLine ++ xml "</w:t>
                </w:r>
            </w:p>".

(** [lines.forEach((line, index) => ...)] with an accumulator. *)
Fixpoint forEachIndexed {A} (f : jsstring -> nat -> A -> jsstring)
    (index : nat) (l : list A) (acc : jsstring) : jsstring :=
  match l with
  | [] => acc
  | x :: l' => forEachIndexed f (S index) l' (f acc index x)
  end.

(** [createCodeBlockXml]. *)
Definition createCodeBlockXml (code : jsstring) : jsstring :=
  let lines := split nl code in
  forEachIndexed (fun acc index line => acc ++ codeLineXml (length lines) index line)
    0 lines [].

(** [createHorizontalRuleXml]. *)
Definition createHorizontalRuleXml : jsstring :=
  xml "<w:p>
            <w:pPr>
                <w:pBdr>
                    <w:bottom w:val='single' w:sz='6' w:space='1' w:color='auto'/>
                </w:pBdr>
            </w:pPr>
        </w:p>".

(** *** Tables *)

(** Separator lines, [/^\s*\|[\s\-:]+\|\s*$/]. *)
Definition separatorRegex : regex :=
  rseq [RBol; star ws; one "|"; plus (cls [CSpace; c1 "-"; c1 ":"]); one "|";
        star ws; REol].

(** [line.split('|').filter(cell => cell.trim()).map(cell => cell.trim())]. *)
Definition tableCells (line : jsstring) : list jsstring :=
  map trim (List.filter (fun cell => truthy (trim cell)) (split (ch "|") line)).

(** The [for ... of] loop of [createTableXml] that fills [rows]. *)
Fixpoint tableRows (tableLines : list jsstring) (rows : list (list jsstring))
    : list (list jsstring) :=
  match tableLines with
  | [] => rows
  | line :: more =>
      if test separatorRegex line then tableRows more rows
      else
        let cells := tableCells line in
        if 0 <? length cells then tableRows more (rows ++ [cells])
        else tableRows more rows
  end.

(** [Math.max(...l)] for lengths; the source calls it on a list that is
    not empty, where the initial [-Infinity] never survives. *)
Definition math_max (l : list nat) : nat := fold_left Nat.max l 0.

(** [while (rowCells.length < numCols) rowCells.push('')]; at most
    [numCols] pushes can be needed. *)
Fixpoint padRow (fuel numCols : nat) (rowCells : list jsstring)
    : list jsstring :=
  match fuel with
  | 0 => rowCells
  | S fuel' =>
      if length rowCells <? numCols
      then padRow fuel' numCols (rowCells ++ [[]])
      else rowCells
  end.

(** [for (let i = 0; i < numCols; i++) tableXml += ...]. *)
Fixpoint gridCols (count : nat) (colWidth : N) (tableXml : jsstring)
    : jsstring :=
  match count with
  | 0 => tableXml
  | S count' =>
      gridCols count' colWidth
        (tableXml ++ xml "<w:gridCol w:w='" ++ N_to_js colWidth
         ++ xml "'/>")
  end.

Definition rPrRegex : regex := rlit "<w:rPr>".

(** What the inner [forEach] of [createTableXml] appends for one cell. *)
Definition tableCellXml (colWidth : N) (isHeader : bool)
    (tableXml cellText : jsstring) : jsstring :=
  let tableXml := tableXml ++ xml "<w:tc>" in
  let tableXml := tableXml ++ xml "<w:tcPr>" in
  let tableXml :=
    tableXml ++ xml "<w:tcW w:w='" ++ N_to_js colWidth
    ++ xml "' w:type='dxa'/>" in
  let tableXml :=
    if isHeader
    then tableXml ++ xml "<w:shd w:val='clear' w:color='auto' w:fill='F58220'/>"
    else tableXml ++ xml "<w:shd w:val='clear' w:color='auto' w:fill='FFFFFF'/>" in
  let tableXml :=
    tableXml ++ (xml "<w:tcBorders>"
    ++ xml "<w:top w:val='single' w:sz='8' w:space='0' w:color='F58220'/>"
    ++ xml "<w:left w:val='single' w:sz='8' w:space='0' w:color='F58220'/>"
    ++ xml "<w:bottom w:val='single' w:sz='8' w:space='0' w:color='F58220'/>"
    ++ xml "<w:right w:val='single' w:sz='8' w:space='0' w:color='F58220'/>"
    ++ xml "</w:tcBorders>") in
  let tableXml :=
    tableXml ++ (xml "<w:tcMar>"
    ++ xml "<w:top w:w='80' w:type='dxa'/>"
    ++ xml "<w:left w:w='120' w:type='dxa'/>"
    ++ xml "<w:bottom w:w='80' w:type='dxa'/>"
    ++ xml "<w:right w:w='120' w:type='dxa'/>"
    ++ xml "</w:tcMar>") in
  let tableXml := tableXml ++ xml "</w:tcPr>" in
  let tableXml := tableXml ++ xml "<w:p>" in
  let tableXml := tableXml ++ xml "<w:pPr>" in
  let tableXml :=
    tableXml
    ++ xml "<w:spacing w:before='0' w:after='0' w:line='240' w:lineRule='auto'/>" in
  let tableXml := tableXml ++ xml "</w:pPr>" in
  let runs := parseInlineFormatting cellText in
  let tableXml :=
    if isHeader
    then tableXml
         ++ replaceAll_re rPrRegex (xml "<w:rPr><w:b/><w:color w:val='FFFFFF'/>") runs
    else tableXml ++ runs in
  let tableXml := tableXml ++ xml "</w:p>" in
  tableXml ++ xml "</w:tc>".

(** What the outer [forEach] appends for one row: the row is padded, then
    its cells are emitted. *)
Definition tableRowXml (numCols : nat) (colWidth : N) (tableXml : jsstring)
    (rowIndex : nat) (rowCells : list jsstring) : jsstring :=
  let isHeader := rowIndex =? 0 in
  let tableXml := tableXml ++ xml "<w:tr>" in
  let tableXml :=
    tableXml ++ xml "<w:trPr><w:trHeight w:val='0' w:hRule='atLeast'/></w:trPr>" in
  let rowCells := padRow numCols numCols rowCells in
  let tableXml := fold_left (tableCellXml colWidth isHeader) rowCells tableXml in
  tableXml ++ xml "</w:tr>".

Definition totalTableWidth : N := 9360%N.

(** The table properties that [createTableXml] writes. *)
Definition tblPrXml : jsstring :=
  xml "<w:tblPr>
            <w:tblStyle w:val='TableGrid'/>
            <w:tblW w:w='0' w:type='auto'/>
            <w:tblLayout w:type='fixed'/>
            <w:tblLook w:val='04A0' w:firstRow='1' w:lastRow='0' w:firstColumn='0' w:lastColumn='0' w:noHBand='0' w:noVBand='1'/>
            <w:tblBorders>
                <w:top w:val='single' w:sz='8' w:space='0' w:color='F58220'/>
                <w:left w:val='single' w:sz='8' w:space='0' w:color='F58220'/>
                <w:bottom w:val='single' w:sz='8' w:space='0' w:color='F58220'/>
                <w:right w:val='single' w:sz='8' w:space='0' w:color='F58220'/>
                <w:insideH w:val='single' w:sz='8' w:space='0' w:color='F58220'/>
                <w:insideV w:val='single' w:sz='8' w:space='0' w:color='F58220'/>
            </w:tblBorders>
        </w:tblPr>".

(** [createTableXml]. [numCols] is at least 1 where the width is computed:
    [rows] is not empty and holds no empty row. *)
Definition createTableXml (tableLines : list jsstring) : jsstring :=
  let rows := tableRows tableLines [] in
  if length rows =? 0 then []
  else
    let numCols := math_max (map length rows) in
    let colWidth := (totalTableWidth / N.of_nat numCols)%N in
    let tableXml := xml "<w:tbl>" in
    let tableXml := tableXml ++ tblPrXml in
    let tableXml := tableXml ++ xml "<w:tblGrid>" in
    let tableXml := gridCols numCols colWidth tableXml in
    let tableXml := tableXml ++ xml "</w:tblGrid>" in
    let tableXml := forEachIndexed (tableRowXml numCols colWidth) 0 rows tableXml in
    let tableXml := tableXml ++ xml "</w:tbl>" in
    let tableXml :=
      tableXml
      ++ xml "<w:p><w:pPr><w:spacing w:before='120' w:after='0'/></w:pPr></w:p>" in
    tableXml.

(** *** ASCII art *)

(** [asciiArtChars]: box drawing, shapes, arrows and shading, each one
    code unit. *)
Definition asciiArtChars : list char :=
  [9472; 9474; 9484; 9488; 9492; 9496; 9500; 9508; 9516; 9524; 9532;
   9552; 9553; 9556; 9559; 9562; 9565; 9568; 9571; 9574; 9577; 9580;
   9581; 9582; 9583; 9584;
   9650; 9660; 9668; 9658; 9830; 9679; 9675; 9632; 9633; 9670; 9671;
   8595; 8594; 8592; 8593; 8596; 8597; 8658; 8656; 8659; 8657;
   9475; 9473; 9487; 9491; 9495; 9499; 9507; 9515; 9523; 9531; 9547;
   9617; 9618; 9619; 9608]%N.

(** [asciiPatterns], in the order of the source. *)
Definition asciiPatterns : list regex :=
  [ (* /^\s*\+[-=_+]+\+/ *)
    rseq [RBol; star ws; one "+"; plus (cls [c1 "-"; c1 "="; c1 "_"; c1 "+"]);
          one "+"];
    (* /^\s*\|[-=_]{3,}\|/ *)
    rseq [RBol; star ws; one "|"; atleast 3 (cls [c1 "-"; c1 "="; c1 "_"]);
          one "|"];
    (* /^\s*[-=_]{5,}$/ *)
    rseq [RBol; star ws; atleast 5 (cls [c1 "-"; c1 "="; c1 "_"]); REol];
    (* /^\s*\+[-]+\+[-]+\+/ *)
    rseq [RBol; star ws; one "+"; plus (cls [c1 "-"]); one "+";
          plus (cls [c1 "-"]); one "+"];
    (* /^\s*\([A-Z][a-z]+\)\s*\|\|/ *)
    rseq [RBol; star ws; one "("; cls [rng "A" "Z"]; plus (cls [rng "a" "z"]);
          one ")"; star ws; one "|"; one "|"];
    (* /^\s*\|\s+[A-Z\s]+[-:]\s+[A-Z]/ *)
    rseq [RBol; star ws; one "|"; plus ws; plus (cls [rng "A" "Z"; CSpace]);
          cls [c1 "-"; c1 ":"]; plus ws; cls [rng "A" "Z"]];
    (* /^\s*\|\s*\[[^\]]+\]/ *)
    rseq [RBol; star ws; one "|"; star ws; one "["; plus (ncls [c1 "]"]);
          one "]"];
    (* /^\s*\|\s{2,}\w+.*\|\|/ *)
    rseq [RBol; star ws; one "|"; atleast 2 ws; plus word; star (RChar CDot);
          one "|"; one "|"];
    (* /^\s*\[[^\]]+\]\s*$/ *)
    rseq [RBol; star ws; one "["; plus (ncls [c1 "]"]); one "]"; star ws; REol];
    (* /^\s*<[-=]+>/ *)
    rseq [RBol; star ws; one "<"; plus (cls [c1 "-"; c1 "="]); one ">"];
    (* /^\s*\/[-_\\\/]+\// *)
    rseq [RBol; star ws; one "/"; plus (cls [c1 "-"; c1 "_"; COne 92%N; c1 "/"]);
          one "/"];
    (* /^\s*\*[-=\*]+\*/ *)
    rseq [RBol; star ws; one "*"; plus (cls [c1 "-"; c1 "="; c1 "*"]); one "*"] ].

(** [isAsciiArt]. *)
Definition isAsciiArt (line : jsstring) : bool :=
  if startsWith (lit "|") (trim line) && endsWith (lit "|") (trim line)
     && (2 <=? length (List.filter (fun c => truthy (trim c)) (split (ch "|") line)))
  then false
  else if existsb (fun c => includes [c] line) asciiArtChars then true
  else existsb (fun pattern => test pattern line) asciiPatterns.

(** [arrowChars] of [createAsciiArtXml]. *)
Definition arrowChars : list char :=
  [8595; 8594; 8592; 8593; 9660; 9658; 9668; 9650]%N.

(** The [for ... of] loop that finds the first arrow of [remainingLine]:
    [arrowIndex] ([None] is [-1]) and [foundArrowChar]. *)
Definition findArrow (remainingLine : jsstring) : option (nat * char) :=
  fold_left
    (fun acc arrow =>
       match indexOf_opt [arrow] remainingLine with
       | Some idx =>
           match acc with
           | None => Some (idx, arrow)
           | Some (arrowIndex, _) =>
               if idx <? arrowIndex then Some (idx, arrow) else acc
           end
       | None => acc
       end)
    arrowChars None.

(** The runs of [createAsciiArtXml]: the text before an arrow, the arrow
    in red, the text after the last arrow and the line without arrows. The
    source indents the four literals differently. *)
Definition beforeArrowRunXml (escaped : jsstring) : jsstring :=
  xml "<w:r>
                                <w:rPr>
                                    <w:rFonts w:ascii='Consolas' w:hAnsi='Consolas' w:cs='Consolas'/>
                                    <w:sz w:val='16'/>
                                    <w:szCs w:val='16'/>
                                    <w:noProof/>
                                </w:rPr>
                                <w:t xml:space='preserve'>" ++ escaped ++ xml "</w:t>
                            </w:r>".

Definition arrowRunXml (escaped : jsstring) : jsstring :=
  xml "<w:r>
                            <w:rPr>
                                <w:rFonts w:ascii='Consolas' w:hAnsi='Consolas' w:cs='Consolas'/>
                                <w:sz w:val='16'/>
                                <w:szCs w:val='16'/>
                                <w:color w:val='FF0000'/>
                                <w:noProof/>
                            </w:rPr>
                            <w:t xml:space='preserve'>" ++ escaped ++ xml "</w:t>
                        </w:r>".

Definition remainingRunXml (escaped : jsstring) : jsstring :=
  xml "<w:r>
                            <w:rPr>
                                <w:rFonts w:ascii='Consolas' w:hAnsi='Consolas' w:cs='Consolas'/>
                                <w:sz w:val='16'/>
                                <w:szCs w:val='16'/>
                                <w:noProof/>
                            </w:rPr>
                            <w:t xml:space='preserve'>" ++ escaped ++ xml "</w:t>
                        </w:r>".

Definition asciiPlainLineRunXml (escaped : jsstring) : jsstring :=
  xml "<w:r>
                    <w:rPr>
                        <w:rFonts w:ascii='Consolas' w:hAnsi='Consolas' w:cs='Consolas'/>
                        <w:sz w:val='16'/>
                        <w:szCs w:val='16'/>
                        <w:noProof/>
                    </w:rPr>
                    <w:t xml:space='preserve'>" ++ escaped ++ xml "</w:t>
                </w:r>".

(** [while (remainingLine.length > 0)]: every round with an arrow cuts at
    least that arrow off, so the length of the line bounds the rounds. *)
Fixpoint arrowLoop (fuel : nat) (remainingLine acc : jsstring) : jsstring :=
  match fuel with
  | 0 => acc
  | S fuel' =>
      if negb (0 <? length remainingLine) then acc
      else
        match findArrow remainingLine with
        | Some (arrowIndex, foundArrowChar) =>
            let acc :=
              if 0 <? arrowIndex
              then acc ++ beforeArrowRunXml (escapeXml (take arrowIndex remainingLine))
              else acc in
            let acc := acc ++ arrowRunXml (escapeXml [foundArrowChar]) in
            arrowLoop fuel' (drop (arrowIndex + 1) remainingLine) acc
        | None => acc ++ remainingRunXml (escapeXml remainingLine)
        end
  end.

(** What [createAsciiArtXml] appends for one line. *)
Definition asciiLineXml (count : nat) (acc : jsstring) (index : nat)
    (line : jsstring) : jsstring :=
  let acc := acc ++ xml "<w:p>
                <w:pPr>
                    <w:pStyle w:val='Normal'/>
                    <w:shd w:val='clear' w:color='auto' w:fill='F5F5F5'/>
                    <w:spacing w:before='"
    ++ (if index =? 0 then lit "120" else lit "0") ++ xml "' w:after='"
    ++ (if index =? count - 1 then lit "120" else lit "0")
    ++ xml "' w:line='240' w:lineRule='exact'/>
                    <w:ind w:left='284' w:right='284'/>
                    <w:jc w:val='left'/>
                    <w:keepLines/>
                    <w:wordWrap w:val='0'/>
                </w:pPr>" in
  let hasArrow := existsb (fun arrow => includes [arrow] line) arrowChars in
  let acc :=
    if hasArrow then arrowLoop (length line) line acc
    else acc ++ asciiPlainLineRunXml (escapeXml line) in
  acc ++ xml "</w:p>".

(** [createAsciiArtXml]. *)
Definition createAsciiArtXml (asciiContent : jsstring) : jsstring :=
  let lines := split nl asciiContent in
  forEachIndexed (asciiLineXml (length lines)) 0 lines [].

(** *** Markdown to Word markup *)

Definition fence : jsstring := lit "```".

(** [while (i < lines.length && lines[i].includes('|'))]. *)
Fixpoint collectTable (ls : list jsstring) : list jsstring :=
  match ls with
  | l :: ls' => if includes (lit "|") l then l :: collectTable ls' else []
  | [] => []
  end.

(** The [while] loop that collects the lines of an ASCII diagram, with its
    inner [break]. *)
Fixpoint collectAscii (ls : list jsstring) : list jsstring :=
  match ls with
  | l :: ls' =>
      if isAsciiArt l || negb (truthy (trim l)) then
        l :: match ls' with
             | l2 :: _ =>
                 if truthy (trim l2) && negb (isAsciiArt l2) then []
                 else collectAscii ls'
             | [] => []
             end
      else []
  | [] => []
  end.

(** The patterns of the line rules. *)
Definition hashesRegex : regex := rseq [RBol; plus (one "#")].           (* /^#+/ *)
Definition hashesSpaceRegex : regex :=                                   (* /^#+\s*/ *)
  rseq [RBol; plus (one "#"); star ws].
Definition numberingRegex : regex :=                       (* /^\d+(\.\d+)*\.?\s+/ *)
  rseq [RBol; plus digit; star (RGroup 1 (RSeq (one ".") (plus digit)));
        opt (one "."); plus ws].
Definition quoteRegex : regex := rseq [RBol; one ">"; star ws].          (* /^>\s*/ *)
Definition orderedRegex : regex :=                                 (* /^\s*\d+\.\s+/ *)
  rseq [RBol; star ws; plus digit; one "."; plus ws].
Definition bulletRegex : regex :=                                (* /^\s*[-*+]\s+/ *)
  rseq [RBol; star ws; cls [c1 "-"; c1 "*"; c1 "+"]; plus ws].
Definition ruleRegex : regex :=                                   (* /^[-*_]{3,}$/ *)
  rseq [RBol; atleast 3 (cls [c1 "-"; c1 "*"; c1 "_"]); REol].

(** The variables of the loop of [markdownToWordXml]. *)
Record mdstate := MdState
  { out : jsstring; inCodeBlock : bool; codeLines : list jsstring }.

Definition emit (st : mdstate) (s : jsstring) : mdstate :=
  MdState (out st ++ s) (inCodeBlock st) (codeLines st).

(** [(line.match(/^#+/) || [''])[0].length]. *)
Definition headingLevel (line : jsstring) : nat :=
  match exec hashesRegex line with
  | Some m => length (matched m)
  | None => 0
  end.

(** The text of a heading: the hashes and the numbering are cut off. *)
Definition headingText (line : jsstring) : jsstring :=
  let text := trim (replace_re hashesSpaceRegex [] line) in
  replace_re numberingRegex [] text.

(** The [for] loop of [markdownToWordXml] over the lines from [lines[i]]
    on. A table or a diagram moves [i] past the lines it collected: [skip]
    is the number of lines still to pass. *)
Fixpoint markdownLoop (skip : nat) (ls : list jsstring) (st : mdstate)
    : jsstring :=
  match ls with
  | [] => out st
  | line :: ls' =>
      match skip with
      | S j => markdownLoop j ls' st
      | 0 =>
          if startsWith fence (trim line) then
            if inCodeBlock st then
              markdownLoop 0 ls'
                (MdState (out st ++ createCodeBlockXml (join [nl] (codeLines st)))
                   false [])
            else markdownLoop 0 ls' (MdState (out st) true (codeLines st))
          else if inCodeBlock st then
            markdownLoop 0 ls'
              (MdState (out st) (inCodeBlock st) (codeLines st ++ [line]))
          else if negb (truthy (trim line)) then
            markdownLoop 0 ls' (emit st (xml "<w:p><w:pPr></w:pPr></w:p>"))
          else if includes (lit "|") line && startsWith (lit "|") (trim line) then
            let tableLines := line :: collectTable ls' in
            markdownLoop (length (collectTable ls')) ls'
              (emit st (createTableXml tableLines))
          else if isAsciiArt line then
            let asciiLines := line :: collectAscii ls' in
            markdownLoop (length (collectAscii ls')) ls'
              (emit st (createAsciiArtXml (join [nl] asciiLines)))
          else if startsWith (lit "#") (trim line) then
            markdownLoop 0 ls'
              (emit st (createHeadingXml (headingText line) (headingLevel line)))
          else if startsWith (lit ">") (trim line) then
            markdownLoop 0 ls'
              (emit st (createQuoteXml (trim (replace_re quoteRegex [] line))))
          else if test orderedRegex line then
            markdownLoop 0 ls'
              (emit st (createListItemXml (replace_re orderedRegex [] line) true))
          else if test bulletRegex line then
            markdownLoop 0 ls'
              (emit st (createListItemXml (replace_re bulletRegex [] line) false))
          else if test ruleRegex (trim line) then
            markdownLoop 0 ls' (emit st createHorizontalRuleXml)
          else markdownLoop 0 ls' (emit st (createParagraphXml line))
      end
  end.

(** [markdownToWordXml]. *)
Definition markdownToWordXml (markdown : jsstring) : jsstring :=
  markdownLoop 0 (split nl markdown) (MdState [] false []).

(** *** The template *)

(** [PAGE_SIZES]. *)
Definition PAGE_SIZES : gmap jsstring (N * N) :=
  list_to_map
    [ (lit "a4", (11906, 16838)); (lit "a3", (16838, 23811));
      (lit "a5", (8391, 11906)); (lit "b4", (14170, 20015));
      (lit "b5", (9979, 14170)); (lit "letter", (12240, 15840));
      (lit "legal", (12240, 20160)); (lit "tabloid", (15840, 24480)) ]%N.

(** The properties that an object literal inherits from [Object.prototype]:
    under these keys [PAGE_SIZES[key]] is an object without [width] and
    [height]. *)
Definition objectPrototypeKeys : list jsstring :=
  map lit
    [ "constructor"; "__defineGetter__"; "__defineSetter__"; "hasOwnProperty";
      "__lookupGetter__"; "__lookupSetter__"; "isPrototypeOf";
      "propertyIsEnumerable"; "toString"; "valueOf"; "__proto__";
      "toLocaleString" ]%string.

(** A number of the template, or [undefined], as a template literal
    prints it. *)
Definition dim_to_js (d : option N) : jsstring :=
  match d with
  | Some n => N_to_js n
  | None => lit "undefined"
  end.

(** [width] and [height] of [setPageSize], after the landscape swap. *)
Definition pageDimensions (ps : pageSettings) : option N * option N :=
  let '(width, height) :=
    match PAGE_SIZES !! size ps with
    | Some (w, h) => (Some w, Some h)
    | None =>
        if existsb (str_eqb (size ps)) objectPrototypeKeys then (None, None)
        else (Some 11906%N, Some 16838%N)
    end in
  if str_eqb (orientation ps) (lit "landscape") then (height, width)
  else (width, height).

(** The element that [setPageSize] writes. *)
Definition pgSzElement (ps : pageSettings) : jsstring :=
  let '(width, height) := pageDimensions ps in
  xml "<w:pgSz w:w='" ++ dim_to_js width ++ xml "' w:h='" ++ dim_to_js height
  ++ xml "' w:orient='" ++ orientation ps ++ xml "'/>".

Definition pgSzRegex : regex :=                         (* /<w:pgSz[^>]*\/>/g *)
  rseq [rlit "<w:pgSz"; star (ncls [c1 ">"]); rlit "/>"].
Definition sectPrRegex : regex :=                       (* /<w:sectPr[^>]*>/g *)
  rseq [rlit "<w:sectPr"; star (ncls [c1 ">"]); one ">"].

(** [setPageSize]. [replace] leaves [lastIndex] of [pgSzRegex] at 0, so
    [test] looks at [documentXml] from its start. *)
Definition setPageSize (ps : pageSettings) (documentXml : jsstring) : jsstring :=
  let modifiedXml := replaceAll_fn pgSzRegex (fun _ => pgSzElement ps) documentXml in
  if negb (test pgSzRegex documentXml)
  then replaceAll_fn sectPrRegex (fun m => matched m ++ pgSzElement ps) modifiedXml
  else modifiedXml.

Definition sectionBreakRegex : regex :=   (* /<w:sectPr[^>]*>[\s\S]*?<\/w:sectPr>/g *)
  rseq [rlit "<w:sectPr"; star (ncls [c1 ">"]); one ">"; lazy_star any;
        rlit "</w:sectPr>"].

Definition bodyOpen : jsstring := lit "<w:body>".
Definition bodyClose : jsstring := lit "</w:body>".

(** [insertContentAfterPage]. *)
Definition insertContentAfterPage (documentXml newContentXml : jsstring)
    (afterPage : Z) : jsstring :=
  let matches := matchAll sectionBreakRegex documentXml in
  let sectionIndex := (afterPage - 1)%Z in
  if (sectionIndex <=? Z.of_nat (length matches))%Z && (0 <? sectionIndex)%Z then
    match matches !! Z.to_nat (sectionIndex - 1) with
    | Some m =>
        let insertPoint := index m + length (matched m) in
        take insertPoint documentXml ++ newContentXml
        ++ drop insertPoint documentXml
    | None => documentXml (* not reached: the index is below matches.length *)
    end
  else if (afterPage =? 1)%Z || (length matches =? 0) then
    let bodyStart := (indexOf bodyOpen documentXml + 8)%Z in
    slice_to documentXml bodyStart ++ newContentXml
    ++ slice_from documentXml bodyStart
  else replace_str bodyClose (newContentXml ++ bodyClose) documentXml.

(** *** convert *)

(** A thrown value: the name of its class and its message. *)
Record jsError := JsError { err_name : string; err_message : string }.

(** What [zip.file('word/document.xml').asText()] throws when the archive
    has no such entry and [zip.file] returns [null]. *)
Definition typeErrorNull : jsError :=
  JsError "TypeError" "Cannot read properties of null (reading 'asText')".

(** The content of a [Buffer]. *)
Definition bytes := list N.

(** What [convert] does to the world outside: it reads and writes files
    and prints to the console. *)
Inductive event :=
| EvRead (path : string)
| EvWrite (path : string) (data : bytes)
| EvLog (error : jsError).

(** The entry of the archive that holds the main document. *)
Definition docEntry : string := "word/document.xml".

(** The fields of the exporter. *)
Record exporter := Exporter
  { templatePath : string; startPage : Z; pageSettingsOf : option pageSettings }.

Section Convert.

(** The file system, [fs], [PizZip] and [zip.generate] are not part of the
    repository: they are parameters. Reading leaves the file system as it
    is; writing gives the file system after the attempt, also when it
    fails. An archive is the map from its entry names to their text. *)
Variable FS : Type.
Variable readFileSync : string -> FS -> jsError + bytes.
Variable writeFileSync : string -> bytes -> FS -> option jsError * FS.
Variable PizZip : bytes -> jsError + gmap string jsstring.
Variable generate : gmap string jsstring -> jsError + bytes.

(** [path.join(__dirname, '../word_template.docx')]. *)
Variable defaultTemplatePath : string.

(** The constructor: a missing or empty [templatePath] gives the default
    template, a missing [startPage] gives 3. *)
Definition newExporter (templatePath : option string) (startPage : option Z)
    (pageSettings : option pageSettings) : exporter :=
  Exporter
    (match templatePath with
     | Some EmptyString | None => defaultTemplatePath
     | Some p => p
     end)
    (default 3%Z startPage) pageSettings.

(** The world of a call: the file system and what has happened so far. *)
Record world := World { fs : FS; trace : list event }.

(** Computations that change the world and may throw. *)
Definition M (A : Type) : Type := world -> (jsError + A) * world.

Definition ret {A} (a : A) : M A := fun w => (inr a, w).

Definition throw {A} (e : jsError) : M A := fun w => (inl e, w).

Definition bind {A B} (m : M A) (f : A -> M B) : M B := fun w =>
  match m w with
  | (inr a, w') => f a w'
  | (inl e, w') => (inl e, w')
  end.

Definition lift {A} (r : jsError + A) : M A := fun w => (r, w).

Definition tryCatch {A} (m : M A) (handler : jsError -> M A) : M A := fun w =>
  match m w with
  | (inl e, w') => handler e w'
  | (inr a, w') => (inr a, w')
  end.

Notation "x <- m ;; k" := (bind m (fun x => k))
  (at level 100, m at next level, right associativity).

Definition fs_readFileSync (path : string) : M bytes := fun w =>
  (readFileSync path (fs w), World (fs w) (trace w ++ [EvRead path])).

Definition fs_writeFileSync (path : string) (data : bytes) : M unit := fun w =>
  let '(r, fs') := writeFileSync path data (fs w) in
  (match r with Some e => inl e | None => inr tt end,
   World fs' (trace w ++ [EvWrite path data])).

Definition console_error (error : jsError) : M unit := fun w =>
  (inr tt, World (fs w) (trace w ++ [EvLog error])).

Section Steps.

(** The three methods that [convert] calls, as steps that may throw. *)
Variable patchStep : pageSettings -> jsstring -> jsError + jsstring.
Variable renderStep : jsstring -> jsError + jsstring.
Variable spliceStep : jsstring -> jsstring -> Z -> jsError + jsstring.

(** The body of [convert] over these steps: the [try] block, and the
    [catch] block that prints the error and throws it again. A rejected
    promise of the [async] function is a thrown error here; writing the
    entry back into the archive is an insertion into the map. *)
Definition convertWith (this : exporter) (markdownContent : jsstring)
    (outputPath : string) : M string :=
  tryCatch
    (templateBuffer <- fs_readFileSync (templatePath this) ;;
     zip <- lift (PizZip templateBuffer) ;;
     documentXml <- lift (match zip !! docEntry with
                          | Some text => inr text
                          | None => inl typeErrorNull
                          end) ;;
     documentXml <- match pageSettingsOf this with
                    | Some ps => lift (patchStep ps documentXml)
                    | None => ret documentXml
                    end ;;
     newContentXml <- lift (renderStep markdownContent) ;;
     modifiedXml <- lift (spliceStep documentXml newContentXml (startPage this)) ;;
     newDocBuffer <- lift (generate (<[docEntry := modifiedXml]> zip)) ;;
     _ <- fs_writeFileSync outputPath newDocBuffer ;;
     ret outputPath)
    (fun error => _ <- console_error error ;; throw error).

(** Everything that [convert] computes before it writes: the buffer to
    write, or the error of the first step that fails. *)
Definition prepare (this : exporter) (markdownContent : jsstring) (f : FS)
    : jsError + bytes :=
  match readFileSync (templatePath this) f with
  | inl e => inl e
  | inr templateBuffer =>
  match PizZip templateBuffer with
  | inl e => inl e
  | inr zip =>
  match zip !! docEntry with
  | None => inl typeErrorNull
  | Some documentXml =>
  match match pageSettingsOf this with
        | Some ps => patchStep ps documentXml
        | None => inr documentXml
        end with
  | inl e => inl e
  | inr documentXml =>
  match renderStep markdownContent with
  | inl e => inl e
  | inr newContentXml =>
  match spliceStep documentXml newContentXml (startPage this) with
  | inl e => inl e
  | inr modifiedXml => generate (<[docEntry := modifiedXml]> zip)
  end end end end end end.

End Steps.

(** [convert]: the steps are the three methods of the exporter. *)
Definition convert : exporter -> jsstring -> string -> M string :=
  convertWith (fun ps documentXml => inr (setPageSize ps documentXml))
    (fun markdown => inr (markdownToWordXml markdown))
    (fun documentXml newContentXml afterPage =>
       inr (insertContentAfterPage documentXml newContentXml afterPage)).

(** The ways in which the template fails [convert]. *)
Inductive template_failure (this : exporter) (f : FS) : jsError -> Prop :=
| read_fails e :
    readFileSync (templatePath this) f = inl e -> template_failure this f e
| archive_fails templateBuffer e :
    readFileSync (templatePath this) f = inr templateBuffer ->
    PizZip templateBuffer = inl e -> template_failure this f e
| entry_absent templateBuffer zip :
    readFileSync (templatePath this) f = inr templateBuffer ->
    PizZip templateBuffer = inr zip -> zip !! docEntry = None ->
    template_failure this f typeErrorNull.

End Convert.

Arguments World {FS} _ _.
Arguments fs {FS} _.
Arguments trace {FS} _.

(** ** The vocabulary of the properties *)

(** A matcher only reads forward: it hands its continuation a state whose
    input is a suffix of the one it got. *)
Definition forward (m : matcher) : Prop :=
  forall x k z, m x k = Some z ->
    exists y, rest y `suffix_of` rest x /\ k y = Some z.

(** A matcher only asks its continuation about such states. *)
Definition local (m : matcher) : Prop :=
  forall x k1 k2,
    (forall y, rest y `suffix_of` rest x -> k1 y = k2 y) ->
    m x k1 = m x k2.

(** A pattern is consuming when it cannot match the empty string. *)
Definition consuming (r : regex) : Prop :=
  forall n s y, match_here n r s = Some y -> length (rest y) < length s.

(** A syntactic reason for a pattern to be consuming: it has to read at
    least one code unit. *)
Fixpoint reads_unit (r : regex) : bool :=
  match r with
  | RChar _ => true
  | RSeq a b => reads_unit a || reads_unit b
  | RGroup _ a => reads_unit a
  | _ => false
  end.

(** The value that a string of decimal digits stands for, on top of [v]. *)
Definition dec_value (v : N) (digits : jsstring) : N :=
  fold_left (fun v c => (10 * v + (c - 48))%N) digits v.

(** What the loop over the patterns has found after the patterns [pats]:
    the leftmost match, and among the patterns that match there the first
    of the list. *)
Definition earliest_ok (remaining : jsstring) (pats : list pattern)
    (e : earliest) : Prop :=
  match found e with
  | None =>
      earliestPos e = length remaining /\
      forall j q mq, pats !! j = Some q ->
        exec (p_regex q) remaining = Some mq -> length remaining <= index mq
  | Some (p, m) =>
      exists i, pats !! i = Some p /\
        exec (p_regex p) remaining = Some m /\
        earliestPos e = index m /\
        index m < length remaining /\
        forall j q mq, pats !! j = Some q ->
          exec (p_regex q) remaining = Some mq ->
          index m <= index mq /\ (j < i -> index m < index mq)
  end.

(** The four patterns with bold before bold-italic. *)
Definition patterns_swapped : list pattern :=
  [boldPattern; boldItalicPattern; italicPattern; codePattern].

(** The text that the emitter adds for a grid column. *)
Definition gridColXml (colWidth : N) : jsstring :=
  xml "<w:gridCol w:w='" ++ N_to_js colWidth ++ xml "'/>".

(** The text of a cell, without what was emitted before it. *)
Definition cellXml (colWidth : N) (isHeader : bool) (cellText : jsstring)
    : jsstring :=
  tableCellXml colWidth isHeader [] cellText.

(** The text of a row whose cells are [cells]. *)
Definition rowXml (colWidth : N) (isHeader : bool) (cells : list jsstring)
    : jsstring :=
  xml "<w:tr>"
  ++ xml "<w:trPr><w:trHeight w:val='0' w:hRule='atLeast'/></w:trPr>"
  ++ concat (map (cellXml colWidth isHeader) cells) ++ xml "</w:tr>".

(** The separator rows as the specification words them: the lines that
    match [|[\s\-:]+|], a bar, one or more units of white space, [-] and
    [:], and a bar, at any place of the line. The comment in
    [createTableXml] gives [|---|---|] as its example of such a line. *)
Definition spec_separatorRegex : regex :=
  rseq [one "|"; plus (cls [CSpace; c1 "-"; c1 ":"]); one "|"].

(** The rows of a table as the specification words them: the cells of the
    lines that are left once the separator rows are discarded. *)
Definition spec_tableRows (tableLines : list jsstring) : list (list jsstring) :=
  List.filter (fun cells => 0 <? length cells)
    (map tableCells
       (List.filter (fun l => negb (test spec_separatorRegex l)) tableLines)).

(** The table that the specification describes: [maxCols] grid columns of
    width [9360 / maxCols] and the rows, without the separator rows,
    padded to [maxCols] cells. *)
Definition spec_tableXml (tableLines : list jsstring) : jsstring :=
  let rows := spec_tableRows tableLines in
  let maxCols := math_max (map length rows) in
  let colWidth := (9360 / N.of_nat maxCols)%N in
  xml "<w:tbl>" ++ tblPrXml ++ xml "<w:tblGrid>"
  ++ concat (replicate maxCols (gridColXml colWidth))
  ++ xml "</w:tblGrid>"
  ++ concat (imap (fun i row =>
                     rowXml colWidth (i =? 0)
                       (row ++ replicate (maxCols - length row) [])) rows)
  ++ xml "</w:tbl>"
  ++ xml "<w:p><w:pPr><w:spacing w:before='120' w:after='0'/></w:pPr></w:p>".

(** The matches of a global scan come in document order and do not
    overlap: each starts at or after [lo], where the one before it ended,
    and ends within the [n] units of the document. *)
Fixpoint ordered_from (n lo : nat) (ms : list rxmatch) : Prop :=
  match ms with
  | [] => True
  | m :: ms' =>
      lo <= index m /\ index m + length (matched m) <= n /\
      ordered_from n (index m + length (matched m)) ms'
  end.

(** Where a match lies in the document. *)
Definition placed (doc : jsstring) (m : rxmatch) : Prop :=
  exists pre post, doc = pre ++ matched m ++ post /\ index m = length pre.

(** U+0024, which starts a replacement pattern. *)
Definition dollar : char := 36%N.

(** The number of units of a class at the start of a string. *)
Fixpoint count_class (cl : cclass) (s : jsstring) : nat :=
  match s with
  | c :: t => if class_matches cl c then S (count_class cl t) else 0
  | [] => 0
  end.

(** The string after these units. *)
Fixpoint skip_class (cl : cclass) (s : jsstring) : jsstring :=
  match s with
  | c :: t => if class_matches cl c then skip_class cl t else s
  | [] => []
  end.

(** What a greedy run of a class does: it reads as far as it can and gives
    units back one by one while the continuation fails. *)
Fixpoint greedy_class (cl : cclass) (min : nat) (s : jsstring)
    (cp : list (nat * jsstring)) (k : cont) : option mstate :=
  match s with
  | c :: t =>
      if class_matches cl c then
        if min =? 0 then
          match greedy_class cl 0 t cp k with
          | Some z => Some z
          | None => k (MState s cp)
          end
        else greedy_class cl (pred min) t cp k
      else if min =? 0 then k (MState s cp) else None
  | [] => if min =? 0 then k (MState [] cp) else None
  end.

(** The classes of the heading patterns. *)
Definition hashClass : cclass := CIn [c1 "#"].
Definition spaceClass : cclass := CIn [CSpace].
Definition digitClass : cclass := CIn [CDigit].

(** The units that delimit a tag, and the class [[^>]]. *)
Definition lt : char := ch "<".
Definition gt : char := ch ">".
Definition slash : char := ch "/".
Definition notGt : cclass := CNotIn [c1 ">"].

(** The tail [[^>]*\/>] of the page-size pattern. *)
Definition slashGtCont : cont := fun y =>
  if startsWith [slash; gt] (rest y)
  then Some (MState (drop 2 (rest y)) (caps y)) else None.

(** The tail [[^>]*>] of the pattern of an opening tag. *)
Definition gtCont : cont := fun y =>
  if startsWith [gt] (rest y)
  then Some (MState (drop 1 (rest y)) (caps y)) else None.

(** How the tags of the page-size patch start. *)
Definition pgSzOpen : jsstring := lit "<w:pgSz".
Definition sectPrOpen : jsstring := lit "<w:sectPr".

(** [pgSzOpen] without its [<]. *)
Definition pgSzTail : jsstring := lit "w:pgSz".

(** [s] starts with a page-size element, and [r] follows it. *)
Definition Tag (s r : jsstring) : Prop :=
  exists body, s = pgSzOpen ++ body ++ [slash; gt] ++ r /\ gt ∉ body.

(** [s] starts with the opening tag [tag] of a section, and [r] follows
    it. *)
Definition OpenTag (s tag r : jsstring) : Prop :=
  exists body, tag = sectPrOpen ++ body ++ [gt] /\ s = tag ++ r /\ gt ∉ body.

(** A document has a page-size element somewhere. *)
Definition has_tag (s : jsstring) : Prop :=
  exists t r, t `suffix_of` s /\ Tag t r.

(** The two passes of [setPageSize] over a document, with [new] for the
    element that is written and [n] for the length of the whole input. *)
Definition rewriteAll (new : jsstring) (n : nat) (s : jsstring) : jsstring :=
  replaceAll_from n pgSzRegex (fun _ => new) 0 s.

Definition appendAll (new : jsstring) (n : nat) (s : jsstring) : jsstring :=
  replaceAll_from n sectPrRegex (fun m => matched m ++ new) 0 s.

(** The patch of [setPageSize], with [new] for the element it writes. *)
Definition patch (new documentXml : jsstring) : jsstring :=
  let modifiedXml := replaceAll_fn pgSzRegex (fun _ => new) documentXml in
  if negb (test pgSzRegex documentXml)
  then replaceAll_fn sectPrRegex (fun m => matched m ++ new) modifiedXml
  else modifiedXml.

(** *** The vocabulary of further properties *)

(** The five units that [escapeXml] rewrites, and what it writes for one
    unit of the text. *)
Definition amp : char := ch "&".

Definition escapeUnit (c : char) : jsstring :=
  if N.eqb c amp then lit "&amp;"
  else if N.eqb c lt then lit "&lt;"
  else if N.eqb c gt then lit "&gt;"
  else if N.eqb c dquote then lit "&quot;"
  else if N.eqb c apos then lit "&apos;"
  else [c].

(** A unit that markup gives a meaning to. *)
Definition is_markup (c : char) : bool :=
  N.eqb c amp || N.eqb c lt || N.eqb c gt || N.eqb c dquote || N.eqb c apos.

(** The names that follow [&] in what [escapeXml] writes. *)
Definition entityNames : list jsstring :=
  [lit "amp;"; lit "lt;"; lit "gt;"; lit "quot;"; lit "apos;"].

(** The units that open and close a span of inline formatting. *)
Definition asterisk : char := ch "*".
Definition backtick : char := ch "`".

(** The pattern of a span between two markers [mk]: [mk(.+?)mk]. *)
Definition spanRegex (mk : string) : regex :=
  rseq [rlit mk; RGroup 1 (lazy_plus (RChar CDot)); rlit mk].

(** A unit that [createAsciiArtXml] colours. *)
Definition is_arrow (c : char) : bool := existsb (N.eqb c) arrowChars.

(** The runs of a diagram line, read off the line from left to right:
    [buf] is the text since the last arrow. *)
Fixpoint arrowRuns (line buf : jsstring) : jsstring :=
  match line with
  | [] => if truthy buf then remainingRunXml (escapeXml buf) else []
  | c :: t =>
      if is_arrow c
      then (if truthy buf then beforeArrowRunXml (escapeXml buf) else [])
           ++ arrowRunXml (escapeXml [c]) ++ arrowRuns t []
      else arrowRuns t (buf ++ [c])
  end.

(** The lines that a diagram block takes in: diagram lines and blank
    lines. *)
Definition diagramOrBlank (l : jsstring) : bool :=
  isAsciiArt l || negb (truthy (trim l)).

(** The empty paragraph of a blank line. *)
Definition emptyParagraphXml : jsstring := xml "<w:p><w:pPr></w:pPr></w:p>".

(** The longest prefix of a list whose elements all satisfy [p], and what
    follows it. *)
Fixpoint takeWhile {A} (p : A -> bool) (l : list A) : list A :=
  match l with
  | x :: l' => if p x then x :: takeWhile p l' else []
  | [] => []
  end.

Fixpoint dropWhile {A} (p : A -> bool) (l : list A) : list A :=
  match l with
  | x :: l' => if p x then dropWhile p l' else l
  | [] => []
  end.

(** A syntactic reason for a pattern not to match where the input starts
    with the unit [c]: the pattern has to read a first unit, and its
    first atom does not take [c]. *)
Fixpoint rejects (r : regex) (c : char) : bool :=
  match r with
  | RChar cl => negb (class_matches cl c)
  | RSeq a _ => rejects a c
  | RRep _ min max a =>
      match max with
      | Some 0 => false
      | _ => (0 <? min) && rejects a c
      end
  | RGroup _ a => rejects a c
  | _ => false
  end.

(** The units that start a block other than a paragraph: the fence, the
    bar of a table, the hash, the quote mark, the bullets and the units
    that the patterns of a diagram start with. *)
Definition blockStarters : list char :=
  [ch "`"; ch "|"; ch "#"; ch ">"; ch "+"; ch "-"; ch "="; ch "_"; ch "(";
   ch "["; ch "<"; ch "/"; ch "*"].

(** A unit with which an ordinary line of text starts. *)
Definition plain_start (c : char) : bool :=
  negb (is_space c) && negb (is_digit c) && negb (existsb (N.eqb c) blockStarters).

(** A line holds a bar. *)
Definition hasBar (l : jsstring) : bool := includes (lit "|") l.

(** The units between the two bars of a separator line: [[\s\-:]]. *)
Definition separatorClass : cclass := CIn [CSpace; c1 "-"; c1 ":"].

(** One run of a paragraph: its text and the three flags of
    [createRunXml]. *)
Record run := Run
  { run_text : jsstring; run_bold : bool; run_italic : bool; run_code : bool }.

(** The properties that [createRunXml] writes for the flags. *)
Definition runProps (bold italic code : bool) : jsstring :=
  (if bold then xml "<w:b/>" else [])
  ++ (if italic then xml "<w:i/>" else [])
  ++ (if code
      then xml "<w:rFonts w:ascii='Consolas' w:hAnsi='Consolas'/>"
           ++ xml "<w:sz w:val='20'/>"
      else []).

(** A run whose properties start with [extra]. *)
Definition styledRunXml (extra : jsstring) (r : run) : jsstring :=
  xml "<w:r>" ++ xml "<w:rPr>" ++ extra
  ++ runProps (run_bold r) (run_italic r) (run_code r) ++ xml "</w:rPr>"
  ++ xml "<w:t xml:space='preserve'>" ++ escapeXml (run_text r)
  ++ xml "</w:t></w:r>".

(** What a header cell adds to the properties of its runs. *)
Definition headerRunProps : jsstring := xml "<w:b/><w:color w:val='FFFFFF'/>".

(** A literal and a text differ at a place that both have. *)
Fixpoint mismatch (pat s : jsstring) : bool :=
  match pat, s with
  | x :: pat', y :: s' => negb (N.eqb x y) || mismatch pat' s'
  | _, _ => false
  end.

(** The literal [pat] starts at none of the first [k] places of [s], and
    the units of [s] alone show it. *)
Fixpoint no_start (k : nat) (pat s : jsstring) : bool :=
  match k, s with
  | 0, _ => true
  | S k', _ :: s' => mismatch pat s && no_start k' pat s'
  | S _, [] => false
  end.

(** A small world to run [convert] in: files are looked up by their path,
    an archive is recognised by its first two bytes and has no entry, and
    a write stores the buffer. *)
Module SmallWorld.

Definition files := gmap string bytes.

Definition enoent (path : string) : jsError :=
  JsError "Error" ("ENOENT: no such file or directory, open '" ++ path ++ "'").

Definition notZip : jsError :=
  JsError "Error" "Can't find end of central directory : is this a zip file ?".

Definition readFileSync (path : string) (f : files) : jsError + bytes :=
  match f !! path with
  | Some data => inr data
  | None => inl (enoent path)
  end.

Definition writeFileSync (path : string) (data : bytes) (f : files)
    : option jsError * files :=
  (None, <[path := data]> f).

Definition PizZip (data : bytes) : jsError + gmap string jsstring :=
  match data with
  | 80%N :: 75%N :: _ => inr ∅
  | _ => inl notZip
  end.

Definition generate (zip : gmap string jsstring) : jsError + bytes :=
  inr [80; 75]%N.

Definition exporter0 : exporter := Exporter "template.docx" 3 None.

Definition emptyArchive : files := {[ "template.docx" := [80; 75]%N ]}.

End SmallWorld.

(** ** Properties *)

(** Literals and printed numbers stay folded in proofs. *)
Arguments lit : simpl never.
Arguments xml : simpl never.
Arguments N_to_js : simpl never.

(** *** Properties of the matcher *)

Section Matcher.

Implicit Types (x y z : mstate) (k : cont) (m : matcher).

Lemma clear_caps_rest ids x : rest (clear_caps ids x) = rest x.
Proof. reflexivity. Qed.

Lemma rep_loop_forward m ids greedy fuel :
  forward m ->
  forall min max, forward (fun x k => rep_loop m ids greedy fuel min max x k).
Proof.
  intros Hm. induction fuel as [|fuel IH]; intros min max x k; simpl.
  { discriminate. }
  assert (Hd : forall z,
             m (clear_caps ids x)
               (fun y => if (min =? 0) && (length (rest y) =? length (rest x))
                         then None
                         else rep_loop m ids greedy fuel (pred min) (dec_max max) y k)
             = Some z ->
             exists y, rest y `suffix_of` rest x /\ k y = Some z).
  { intros z H. apply Hm in H as (y & Hy & H). rewrite clear_caps_rest in Hy.
    destruct ((min =? 0) && _); [discriminate|].
    apply IH in H as (y' & Hy' & H). exists y'. split; [|exact H].
    etrans; eassumption. }
  assert (Hk : forall z, k x = Some z ->
                         exists y, rest y `suffix_of` rest x /\ k y = Some z).
  { intros z H. exists x. split; [reflexivity|exact H]. }
  intros z.
  destruct max as [[|max]|]; auto;
    (destruct (negb (min =? 0)); [apply Hd|]);
    (destruct greedy;
     [ destruct (m _ _) eqn:E; [intros [= <-]; apply Hd; reflexivity | apply Hk]
     | destruct (k x) eqn:E; [intros [= <-]; apply Hk; reflexivity | apply Hd] ]).
Qed.

Lemma rep_loop_local m ids greedy fuel :
  forward m -> local m ->
  forall min max, local (fun x k => rep_loop m ids greedy fuel min max x k).
Proof.
  intros Hf Hm. induction fuel as [|fuel IH]; intros min max x k1 k2 Hk; simpl.
  { reflexivity. }
  assert (Hd : m (clear_caps ids x)
                 (fun y => if (min =? 0) && (length (rest y) =? length (rest x))
                           then None
                           else rep_loop m ids greedy fuel (pred min) (dec_max max) y k1)
               = m (clear_caps ids x)
                 (fun y => if (min =? 0) && (length (rest y) =? length (rest x))
                           then None
                           else rep_loop m ids greedy fuel (pred min) (dec_max max) y k2)).
  { apply Hm. intros y Hy. rewrite clear_caps_rest in Hy.
    destruct ((min =? 0) && _); [reflexivity|].
    apply IH. intros y' Hy'. apply Hk. etrans; eassumption. }
  rewrite Hd, (Hk x) by reflexivity. reflexivity.
Qed.

(** The bound of [rep_loop] is enough: beyond it, the amount of fuel does
    not change the result, so the loop never stops for lack of fuel. *)
Lemma rep_loop_fuel m ids greedy :
  forward m -> local m ->
  forall fuel fuel' min max x k,
    min + length (rest x) < fuel -> min + length (rest x) < fuel' ->
    rep_loop m ids greedy fuel min max x k
    = rep_loop m ids greedy fuel' min max x k.
Proof.
  intros Hf Hm. induction fuel as [|fuel IH]; intros fuel' min max x k H1 H2.
  { lia. }
  destruct fuel' as [|fuel']; [lia|]. simpl.
  assert (Hd : m (clear_caps ids x)
                 (fun y => if (min =? 0) && (length (rest y) =? length (rest x))
                           then None
                           else rep_loop m ids greedy fuel (pred min) (dec_max max) y k)
               = m (clear_caps ids x)
                 (fun y => if (min =? 0) && (length (rest y) =? length (rest x))
                           then None
                           else rep_loop m ids greedy fuel' (pred min) (dec_max max) y k)).
  { apply Hm. intros y Hy. rewrite clear_caps_rest in Hy.
    apply suffix_length in Hy.
    destruct (min =? 0) eqn:E1; simpl.
    - destruct (length (rest y) =? length (rest x)) eqn:E2; [reflexivity|].
      apply Nat.eqb_eq in E1. apply Nat.eqb_neq in E2. apply IH; lia.
    - apply Nat.eqb_neq in E1. apply IH; lia. }
  rewrite Hd. reflexivity.
Qed.

Local Arguments rep_loop : simpl never.

Lemma rmatch_forward n r : forward (rmatch n r).
Proof.
  induction r as [|cl|a IHa b IHb|greedy min max a IHa|i a IHa| |];
    intros x k z; simpl.
  - intros H. exists x. split; [reflexivity|exact H].
  - destruct (rest x) as [|c t] eqn:E; [discriminate|].
    destruct (class_matches cl c); [|discriminate].
    intros H. exists (MState t (caps x)). split; [|exact H].
    simpl. exists [c]. reflexivity.
  - intros H. apply IHa in H as (y & Hy & H). apply IHb in H as (y' & Hy' & H).
    exists y'. split; [etrans; eassumption|exact H].
  - apply (rep_loop_forward _ _ _ _ IHa).
  - intros H. apply IHa in H as (y & Hy & H). eexists. split; [|exact H]. exact Hy.
  - destruct (_ =? _); [|discriminate]. intros H. exists x. split; [reflexivity|exact H].
  - destruct (rest x) eqn:E; [|discriminate]. intros H. exists x.
    split; [rewrite E; reflexivity|exact H].
Qed.

Lemma rmatch_local n r : local (rmatch n r).
Proof.
  induction r as [|cl|a IHa b IHb|greedy min max a IHa|i a IHa| |];
    intros x k1 k2 Hk; simpl.
  - apply Hk. reflexivity.
  - destruct (rest x) as [|c t] eqn:E; [reflexivity|].
    destruct (class_matches cl c); [|reflexivity].
    apply Hk. simpl. exists [c]. reflexivity.
  - apply IHa. intros y Hy. apply IHb. intros y' Hy'. apply Hk.
    etrans; eassumption.
  - apply (rep_loop_local _ _ _ _ (rmatch_forward n a) IHa). exact Hk.
  - apply IHa. intros y Hy. apply Hk. exact Hy.
  - destruct (_ =? _); [|reflexivity]. apply Hk. reflexivity.
  - destruct (rest x) eqn:E; [|reflexivity]. apply Hk. rewrite E. reflexivity.
Qed.

End Matcher.

(** What a successful match looks like from the outside. *)
Lemma match_here_suffix n r s y :
  match_here n r s = Some y -> rest y `suffix_of` s.
Proof.
  intros H. apply rmatch_forward in H as (y' & Hy' & [= <-]). exact Hy'.
Qed.

Lemma mk_match_spec n s y :
  rest y `suffix_of` s ->
  s = matched (mk_match n s y) ++ rest y.
Proof.
  intros [pre Hs]. unfold mk_match. simpl.
  replace (length s - length (rest y)) with (length pre)
    by (rewrite Hs, length_app; lia).
  rewrite Hs at 1 2. rewrite take_app_length. reflexivity.
Qed.

(** [search] returns the leftmost start position at which the pattern
    matches. *)
Lemma search_spec n r s m :
  search n r s = Some m ->
  exists pre y,
    s = pre ++ matched m ++ rest y /\
    match_here n r (matched m ++ rest y) = Some y /\
    groups m = caps y /\
    index m = n - length (matched m ++ rest y) /\
    (forall pre1 t, s = pre1 ++ t -> length pre1 < length pre ->
                    match_here n r t = None).
Proof.
  induction s as [|c t IH]; simpl.
  - destruct (match_here n r []) as [y|] eqn:E; [|discriminate].
    intros [= <-]. pose proof (match_here_suffix _ _ _ _ E) as Hs.
    pose proof (mk_match_spec n [] y Hs) as Hm.
    exists [], y. rewrite <- Hm. repeat split; try assumption; try reflexivity.
    intros pre1 t _ Hl. simpl in Hl. lia.
  - destruct (match_here n r (c :: t)) as [y|] eqn:E.
    + intros [= <-]. pose proof (match_here_suffix _ _ _ _ E) as Hs.
      pose proof (mk_match_spec n (c :: t) y Hs) as Hm.
      exists [], y. rewrite <- Hm.
      repeat split; try assumption; try reflexivity.
      intros pre1 t' _ Hl. simpl in Hl. lia.
    + intros H. apply IH in H as (pre & y & Hs & Hm & Hg & Hi & Hfirst).
      exists (c :: pre), y. repeat split; try assumption.
      * simpl. rewrite Hs at 1. reflexivity.
      * intros pre1 t' Ht' Hl. destruct pre1 as [|c' pre1]; simpl in *.
        -- subst t'. exact E.
        -- injection Ht' as -> Ht'. apply (Hfirst pre1); [exact Ht'|lia].
Qed.

(** *** Bounded loops *)

Lemma dec_digits_value fuel n acc :
  (n < 10 ^ N.of_nat fuel)%N ->
  dec_value 0%N (dec_digits fuel n acc) = dec_value n acc.
Proof.
  revert n acc. induction fuel as [|fuel IH]; intros n acc Hn.
  - change (10 ^ N.of_nat 0)%N with 1%N in Hn.
    replace n with 0%N by lia. reflexivity.
  - cbn [dec_digits].
    assert (Hdiv : (n = 10 * (n / 10) + n mod 10)%N) by (apply N.div_mod; lia).
    assert (Hmod : (n mod 10 < 10)%N) by (apply N.mod_upper_bound; lia).
    set (q := (n / 10)%N) in *. set (d := (n mod 10)%N) in *.
    clearbody q d.
    assert (Hstep : dec_value q ((48 + d)%N :: acc) = dec_value n acc).
    { unfold dec_value. cbn [fold_left]. f_equal. lia. }
    destruct (N.eqb_spec q 0%N) as [Hq|Hq].
    + rewrite <- Hstep, Hq. reflexivity.
    + rewrite IH; [exact Hstep|].
      rewrite Nat2N.inj_succ, N.pow_succ_r' in Hn. lia.
Qed.

(** [N_to_js] prints all the digits of a number: its bound is enough. *)
Lemma N_to_js_value n : dec_value 0%N (N_to_js n) = n.
Proof.
  unfold N_to_js. rewrite dec_digits_value; [reflexivity|].
  rewrite Nat2N.inj_succ, N2Nat.id.
  destruct (N.eq_dec n 0%N) as [->|Hn]; [reflexivity|].
  pose proof (N.log2_spec n ltac:(lia)) as [_ Hlt].
  eapply N.lt_le_trans; [exact Hlt|].
  apply N.pow_le_mono_l. lia.
Qed.

(** The loop over the arrows of a line ends within its bound: more fuel
    gives the same runs. *)
Lemma arrowLoop_fuel fuel fuel' remainingLine acc :
  length remainingLine <= fuel -> length remainingLine <= fuel' ->
  arrowLoop fuel remainingLine acc = arrowLoop fuel' remainingLine acc.
Proof.
  revert fuel' remainingLine acc.
  induction fuel as [|fuel IH]; intros fuel' remainingLine acc H1 H2.
  - destruct remainingLine; [|simpl in H1; lia]. destruct fuel'; reflexivity.
  - destruct fuel' as [|fuel'].
    + destruct remainingLine; [|simpl in H2; lia]. reflexivity.
    + cbn [arrowLoop]. destruct (0 <? length remainingLine) eqn:E; [|reflexivity].
      apply Nat.ltb_lt in E. cbn [negb].
      destruct (findArrow remainingLine) as [[arrowIndex foundArrowChar]|];
        [|reflexivity].
      apply IH; rewrite length_drop; lia.
Qed.

(** *** Inline formatting *)

Section Inline.

Variable remaining : jsstring.

Lemma tryPattern_ok pats e p :
  earliest_ok remaining pats e ->
  earliest_ok remaining (pats ++ [p]) (tryPattern remaining e p).
Proof.
  unfold earliest_ok, tryPattern. intros H.
  destruct (exec (p_regex p) remaining) as [m|] eqn:Em.
  - destruct (index m <? earliestPos e) eqn:Elt.
    + apply Nat.ltb_lt in Elt. simpl.
      exists (length pats). rewrite lookup_app_r, Nat.sub_diag by lia.
      split; [reflexivity|]. split; [exact Em|]. split; [reflexivity|].
      destruct (found e) as [[p0 m0]|].
      * destruct H as (i & Hi & E0 & Hpos & Hlen & Hmin).
        split; [lia|]. intros j q mq Hj Eq.
        destruct (decide (j < length pats)) as [Hlt|Hge].
        -- rewrite lookup_app_l in Hj by lia.
           destruct (Hmin j q mq Hj Eq) as [Hle _]. lia.
        -- rewrite lookup_app_r in Hj by lia.
           destruct (j - length pats) as [|[|]] eqn:Ej; simpl in Hj; try discriminate.
           injection Hj as <-. rewrite Em in Eq. injection Eq as <-. lia.
      * destruct H as [Hpos Hnone]. split; [lia|]. intros j q mq Hj Eq.
        destruct (decide (j < length pats)) as [Hlt|Hge].
        -- rewrite lookup_app_l in Hj by lia.
           pose proof (Hnone j q mq Hj Eq). lia.
        -- rewrite lookup_app_r in Hj by lia.
           destruct (j - length pats) as [|[|]] eqn:Ej; simpl in Hj; try discriminate.
           injection Hj as <-. rewrite Em in Eq. injection Eq as <-. lia.
    + apply Nat.ltb_ge in Elt.
      destruct (found e) as [[p0 m0]|].
      * destruct H as (i & Hi & E0 & Hpos & Hlen & Hmin).
        pose proof (lookup_lt_Some _ _ _ Hi) as Hilt.
        exists i. rewrite lookup_app_l by lia.
        repeat (split; [assumption|]). intros j q mq Hj Eq.
        destruct (decide (j < length pats)) as [Hlt|Hge].
        -- rewrite lookup_app_l in Hj by lia. exact (Hmin j q mq Hj Eq).
        -- rewrite lookup_app_r in Hj by lia.
           destruct (j - length pats) as [|[|]] eqn:Ej; simpl in Hj; try discriminate.
           injection Hj as <-. rewrite Em in Eq. injection Eq as <-. lia.
      * destruct H as [Hpos Hnone]. split; [assumption|]. intros j q mq Hj Eq.
        destruct (decide (j < length pats)) as [Hlt|Hge].
        -- rewrite lookup_app_l in Hj by lia. exact (Hnone j q mq Hj Eq).
        -- rewrite lookup_app_r in Hj by lia.
           destruct (j - length pats) as [|[|]] eqn:Ej; simpl in Hj; try discriminate.
           injection Hj as <-. rewrite Em in Eq. injection Eq as <-. lia.
  - destruct (found e) as [[p0 m0]|].
    + destruct H as (i & Hi & E0 & Hpos & Hlen & Hmin).
      pose proof (lookup_lt_Some _ _ _ Hi) as Hilt.
      exists i. rewrite lookup_app_l by lia.
      repeat (split; [assumption|]). intros j q mq Hj Eq.
      destruct (decide (j < length pats)) as [Hlt|Hge].
      * rewrite lookup_app_l in Hj by lia. exact (Hmin j q mq Hj Eq).
      * rewrite lookup_app_r in Hj by lia.
        destruct (j - length pats) as [|[|]] eqn:Ej; simpl in Hj; try discriminate.
        injection Hj as <-. rewrite Em in Eq. discriminate.
    + destruct H as [Hpos Hnone]. split; [assumption|]. intros j q mq Hj Eq.
      destruct (decide (j < length pats)) as [Hlt|Hge].
      * rewrite lookup_app_l in Hj by lia. exact (Hnone j q mq Hj Eq).
      * rewrite lookup_app_r in Hj by lia.
        destruct (j - length pats) as [|[|]] eqn:Ej; simpl in Hj; try discriminate.
        injection Hj as <-. rewrite Em in Eq. discriminate.
Qed.

Lemma findEarliest_ok pats :
  earliest_ok remaining pats (findEarliest pats remaining).
Proof.
  unfold findEarliest. induction pats as [|p pats IH] using rev_ind.
  - simpl. split; [reflexivity|]. intros j q mq Hj. discriminate.
  - rewrite fold_left_app. simpl. apply tryPattern_ok, IH.
Qed.

End Inline.

Lemma reads_unit_progress n r :
  reads_unit r = true ->
  forall x k z, rmatch n r x k = Some z ->
    exists y, length (rest y) < length (rest x) /\ k y = Some z.
Proof.
  induction r as [|cl|a IHa b IHb|greedy min max a IHa|i a IHa| |];
    simpl; try discriminate; intros Hr x k z H.
  - destruct (rest x) as [|c t] eqn:E; [discriminate|].
    destruct (class_matches cl c); [|discriminate].
    eexists. split; [|exact H]. simpl. lia.
  - apply orb_true_iff in Hr as [Hr|Hr].
    + apply (IHa Hr) in H as (y & Hy & H).
      apply rmatch_forward in H as (y' & Hy' & H).
      apply suffix_length in Hy'. exists y'. split; [lia|exact H].
    + apply rmatch_forward in H as (y & Hy & H).
      apply (IHb Hr) in H as (y' & Hy' & H).
      apply suffix_length in Hy. exists y'. split; [lia|exact H].
  - apply (IHa Hr) in H as (y & Hy & H). eexists. split; [|exact H]. exact Hy.
Qed.

Lemma reads_unit_consuming r : reads_unit r = true -> consuming r.
Proof.
  intros Hr n s y H. apply (reads_unit_progress n r Hr) in H as (y' & Hy' & [= <-]).
  exact Hy'.
Qed.

Lemma exec_consuming r s m :
  consuming r -> exec r s = Some m -> 0 < length (matched m).
Proof.
  intros Hr H. apply search_spec in H as (pre & y & _ & Hm & _).
  apply Hr in Hm. rewrite length_app in Hm. lia.
Qed.

(** The loop of [parseInlineFormatting] ends within its bound when every
    pattern is consuming. *)
Lemma parseInlineLoop_total pats :
  Forall (fun p => consuming (p_regex p)) pats ->
  forall fuel remaining out, length remaining < fuel ->
    exists r, parseInlineLoop pats fuel remaining out = Some r.
Proof.
  intros Hp. induction fuel as [|fuel IH]; intros remaining out Hf; [lia|].
  simpl. destruct (0 <? length remaining) eqn:El; simpl; [|eauto].
  apply Nat.ltb_lt in El.
  pose proof (findEarliest_ok remaining pats) as Hok. unfold earliest_ok in Hok.
  destruct (found (findEarliest pats remaining)) as [[p m]|]; [|eauto].
  destruct Hok as (i & Hi & Em & _).
  apply IH. rewrite length_drop.
  assert (Hc : consuming (p_regex p)).
  { rewrite Forall_forall in Hp. apply Hp. eapply list_elem_of_lookup_2, Hi. }
  pose proof (exec_consuming _ _ _ Hc Em). lia.
Qed.

Lemma patterns_consuming : Forall (fun p => consuming (p_regex p)) patterns.
Proof. repeat constructor; apply reads_unit_consuming; reflexivity. Qed.

(** [parseInlineFormatting] is the result of the loop of the source. *)
Lemma parseInlineFormatting_total text :
  parseInlineWith patterns text = Some (parseInlineFormatting text).
Proof.
  unfold parseInlineFormatting.
  destruct (parseInlineLoop_total patterns patterns_consuming
              (S (length text)) text []) as [r Hr]; [lia|].
  unfold parseInlineWith. rewrite Hr. reflexivity.
Qed.

(** C6. For the line [**a** and *b* and `c`] the parser emits five runs in
    this order: bold "a", plain " and ", italic "b", plain " and " and
    code "c". *)
Theorem inline_run_sequence :
  parseInlineFormatting (lit "**a** and *b* and `c`")
  = createRunXml (lit "a") true false false
    ++ createRunXml (lit " and ") false false false
    ++ createRunXml (lit "b") false true false
    ++ createRunXml (lit " and ") false false false
    ++ createRunXml (lit "c") false false true.
Proof. vm_compute. reflexivity. Qed.

(** C7, as stated, fails: on [***a***] the bold-italic and the bold
    pattern both match at offset 0, and the order of the list decides. *)
Lemma inline_order_counterexample :
  patterns_swapped ≡ₚ patterns /\
  parseInlineWith patterns (lit "***a***")
    = Some (createRunXml (lit "a") true true false) /\
  parseInlineWith patterns_swapped (lit "***a***")
    = Some (createRunXml (lit "*a") true false false
            ++ createRunXml (lit "*") false false false) /\
  parseInlineWith patterns_swapped (lit "***a***")
    <> parseInlineWith patterns (lit "***a***").
Proof.
  split; [apply perm_swap|].
  split; [vm_compute; reflexivity|].
  split; [vm_compute; reflexivity|].
  vm_compute. discriminate.
Qed.

(** C7, amended. Each scan selects the match with the smallest start
    offset among the attempts of the patterns, and when several patterns
    match at that offset, the one that comes first in the list: no
    pattern matches further left, and no earlier pattern matches as far
    left. When nothing is selected, no pattern matches the line. *)
Theorem inline_leftmost_first (pats : list pattern) (remaining : jsstring) :
  match found (findEarliest pats remaining) with
  | Some (p, m) =>
      exists i, pats !! i = Some p /\
        exec (p_regex p) remaining = Some m /\
        earliestPos (findEarliest pats remaining) = index m /\
        forall j q mq, pats !! j = Some q ->
          exec (p_regex q) remaining = Some mq ->
          index m <= index mq /\ (j < i -> index m < index mq)
  | None =>
      forall j q mq, pats !! j = Some q ->
        exec (p_regex q) remaining = Some mq -> length remaining <= index mq
  end.
Proof.
  pose proof (findEarliest_ok remaining pats) as H. unfold earliest_ok in H.
  destruct (found (findEarliest pats remaining)) as [[p m]|].
  - destruct H as (i & Hi & Em & Hpos & _ & Hmin). exists i. auto.
  - apply H.
Qed.

(** *** Tables *)

Section Tables.

Lemma filter_map_trim (l : list jsstring) :
  map trim (List.filter (fun cell => truthy (trim cell)) l)
  = List.filter truthy (map trim l).
Proof.
  induction l as [|c l IH]; simpl; [reflexivity|].
  destruct (truthy (trim c)); simpl; rewrite IH; reflexivity.
Qed.

Lemma tableCells_truthy line : Forall (fun c => c <> []) (tableCells line).
Proof.
  unfold tableCells. rewrite filter_map_trim.
  apply Forall_forall. intros c Hc. apply list_elem_of_In, filter_In in Hc as [_ Hc].
  destruct c; [discriminate|congruence].
Qed.

(** The loop that fills [rows] keeps, in order, the cells of every line
    that is not a separator line and has a cell. *)
Lemma tableRows_spec tableLines rows :
  tableRows tableLines rows
  = rows ++ List.filter (fun cells => 0 <? length cells)
              (map tableCells
                 (List.filter (fun l => negb (test separatorRegex l)) tableLines)).
Proof.
  revert rows. induction tableLines as [|l ls IH]; intros rows; simpl.
  - rewrite app_nil_r. reflexivity.
  - destruct (test separatorRegex l); simpl; [apply IH|].
    destruct (0 <? length (tableCells l)); rewrite IH; [|reflexivity].
    rewrite <- app_assoc. reflexivity.
Qed.

Lemma padRow_spec fuel numCols rowCells :
  padRow fuel numCols rowCells
  = rowCells ++ replicate (Nat.min fuel (numCols - length rowCells)) [].
Proof.
  revert rowCells. induction fuel as [|fuel IH]; intros rowCells; cbn [padRow].
  - rewrite Nat.min_0_l. simpl. rewrite app_nil_r. reflexivity.
  - destruct (length rowCells <? numCols) eqn:E.
    + apply Nat.ltb_lt in E. rewrite IH, length_app. cbn [length].
      replace (numCols - length rowCells) with (S (numCols - (length rowCells + 1))) by lia.
      rewrite <- Nat.succ_min_distr. cbn [replicate].
      rewrite <- app_assoc. reflexivity.
    + apply Nat.ltb_ge in E.
      replace (numCols - length rowCells) with 0 by lia.
      rewrite Nat.min_0_r. simpl. rewrite app_nil_r. reflexivity.
Qed.

(** Padding appends empty cells at the end of the row and nowhere else;
    the bound of the loop is enough. *)
Lemma padRow_full numCols rowCells :
  padRow numCols numCols rowCells
  = rowCells ++ replicate (numCols - length rowCells) [].
Proof. rewrite padRow_spec. f_equal. f_equal. lia. Qed.

Lemma fold_max_ge l a : a <= fold_left Nat.max l a.
Proof.
  revert a. induction l as [|x l IH]; intros a; simpl; [lia|].
  etrans; [|apply IH]. lia.
Qed.

Lemma fold_max_upper l a : Forall (fun x => x <= fold_left Nat.max l a) l.
Proof.
  revert a. induction l as [|x l IH]; intros a; simpl; constructor.
  - etrans; [|apply fold_max_ge]. lia.
  - apply IH.
Qed.

Lemma fold_max_attained l a :
  fold_left Nat.max l a = a \/ fold_left Nat.max l a ∈ l.
Proof.
  revert a. induction l as [|x l IH]; intros a; simpl; [left; reflexivity|].
  destruct (IH (Nat.max a x)) as [H|H].
  - rewrite H. destruct (Nat.max_spec a x) as [[_ ->]|[_ ->]].
    + right. left.
    + left. reflexivity.
  - right. right. exact H.
Qed.

Lemma gridCols_spec count colWidth tableXml :
  gridCols count colWidth tableXml
  = tableXml ++ concat (replicate count (gridColXml colWidth)).
Proof.
  revert tableXml. induction count as [|count IH]; intros tableXml;
    cbn [gridCols replicate concat].
  - rewrite app_nil_r. reflexivity.
  - rewrite IH. unfold gridColXml. rewrite <- !app_assoc. reflexivity.
Qed.

Lemma tableCellXml_acc colWidth isHeader tableXml cellText :
  tableCellXml colWidth isHeader tableXml cellText
  = tableXml ++ cellXml colWidth isHeader cellText.
Proof.
  unfold cellXml, tableCellXml. cbv zeta.
  destruct isHeader; rewrite ?app_nil_l, <- ?app_assoc; reflexivity.
Qed.

Lemma fold_cells_spec colWidth isHeader cells tableXml :
  fold_left (tableCellXml colWidth isHeader) cells tableXml
  = tableXml ++ concat (map (cellXml colWidth isHeader) cells).
Proof.
  revert tableXml. induction cells as [|c cells IH]; intros tableXml;
    cbn [fold_left map concat].
  - rewrite app_nil_r. reflexivity.
  - rewrite IH, tableCellXml_acc, <- app_assoc. reflexivity.
Qed.

Lemma tableRowXml_spec numCols colWidth tableXml rowIndex rowCells :
  tableRowXml numCols colWidth tableXml rowIndex rowCells
  = tableXml
    ++ rowXml colWidth (rowIndex =? 0)
         (rowCells ++ replicate (numCols - length rowCells) []).
Proof.
  unfold tableRowXml, rowXml. cbv zeta.
  rewrite fold_cells_spec, padRow_full, <- !app_assoc. reflexivity.
Qed.

Lemma forEachIndexed_spec {A} (g : nat -> A -> jsstring) index (l : list A) acc :
  forEachIndexed (fun acc i x => acc ++ g i x) index l acc
  = acc ++ concat (imap (fun i x => g (index + i) x) l).
Proof.
  revert index acc. induction l as [|x l IH]; intros index acc;
    cbn [forEachIndexed imap concat].
  - rewrite app_nil_r. reflexivity.
  - rewrite IH, Nat.add_0_r, <- app_assoc. do 3 f_equal.
    apply imap_ext. intros i y _. unfold compose. f_equal. lia.
Qed.

Lemma forEachIndexed_ext {A} (f g : jsstring -> nat -> A -> jsstring) index l acc :
  (forall acc i x, f acc i x = g acc i x) ->
  forEachIndexed f index l acc = forEachIndexed g index l acc.
Proof.
  intros H. revert index acc. induction l as [|x l IH]; intros index acc;
    cbn [forEachIndexed].
  - reflexivity.
  - rewrite H. apply IH.
Qed.

End Tables.

(** What [createTableXml] does keep. For every run of table lines, with
    the rows being the cells of the lines that its own pattern does not
    match: no row is longer than the
    largest column count [maxCols], a row has that many cells once it is
    padded with empty cells, [maxCols] is the length of some row, and the
    emitted table has [maxCols] grid columns and the padded rows, every
    grid column and every cell carrying the width [9360 / maxCols]. *)
Theorem table_padding (tableLines : list jsstring) :
  let rows :=
    List.filter (fun cells => 0 <? length cells)
      (map tableCells
         (List.filter (fun l => negb (test separatorRegex l)) tableLines)) in
  let maxCols := math_max (map length rows) in
  let colWidth := (9360 / N.of_nat maxCols)%N in
  let pad := fun row : list jsstring => row ++ replicate (maxCols - length row) [] in
  Forall (fun row => length row <= maxCols /\ length (pad row) = maxCols) rows /\
  match rows with
  | [] => createTableXml tableLines = []
  | _ :: _ =>
      1 <= maxCols /\
      (exists row, row ∈ rows /\ length row = maxCols) /\
      createTableXml tableLines
      = xml "<w:tbl>" ++ tblPrXml ++ xml "<w:tblGrid>"
        ++ concat (replicate maxCols (gridColXml colWidth))
        ++ xml "</w:tblGrid>"
        ++ concat (imap (fun i row => rowXml colWidth (i =? 0) (pad row)) rows)
        ++ xml "</w:tbl>"
        ++ xml "<w:p><w:pPr><w:spacing w:before='120' w:after='0'/></w:pPr></w:p>"
  end /\
  forall isHeader cellText,
    exists tail,
      cellXml colWidth isHeader cellText
      = xml "<w:tc>" ++ xml "<w:tcPr>" ++ xml "<w:tcW w:w='" ++ N_to_js colWidth
        ++ xml "' w:type='dxa'/>" ++ tail.
Proof.
  intros rows maxCols colWidth pad.
  assert (Hup : Forall (fun row => length row <= maxCols) rows).
  { pose proof (fold_max_upper (map length rows) 0) as H.
    rewrite Forall_fmap in H. exact H. }
  split; [|split].
  - eapply Forall_impl; [exact Hup|]. intros row Hrow. cbv beta in Hrow.
    split; [exact Hrow|].
    unfold pad. rewrite length_app, length_replicate. lia.
  - unfold createTableXml. rewrite tableRows_spec. cbn [app]. fold rows.
    destruct rows as [|row0 rows'] eqn:Erows; [reflexivity|].
    assert (Hmax : 1 <= maxCols).
    { assert (Hlen : (0 <? length row0) = true).
      { assert (Hin : In row0 rows) by (rewrite Erows; left; reflexivity).
        apply filter_In in Hin as [_ Hin]. exact Hin. }
      apply Nat.ltb_lt in Hlen. apply Forall_cons_1 in Hup as [Hup _]. lia. }
    split; [exact Hmax|]. split.
    + destruct (fold_max_attained (map length (row0 :: rows')) 0) as [H|H].
      * unfold maxCols, math_max in Hmax. rewrite H in Hmax. lia.
      * apply list_elem_of_fmap in H as (row & Hrow & Hin). exists row.
        split; [exact Hin|]. symmetry. exact Hrow.
    + cbn [length Nat.eqb]. cbv zeta. fold maxCols. fold colWidth.
      rewrite (forEachIndexed_ext _
                 (fun acc i row => acc ++ rowXml colWidth (i =? 0) (pad row)))
        by (intros; apply tableRowXml_spec).
      rewrite forEachIndexed_spec, gridCols_spec, <- !app_assoc.
      reflexivity.
  - intros isHeader cellText. unfold cellXml, tableCellXml. cbv zeta.
    rewrite !app_nil_l. destruct isHeader; rewrite <- !app_assoc; eexists; reflexivity.
Qed.

(** C5. The separator row of a table with two or more columns is not
    discarded. The pattern of [createTableXml] is anchored at both ends and
    allows no bar between its two bars, so it does not match [|---|---|],
    the line that its own comment gives as the example and that the
    pattern [|[\s\-:]+|] of the specification matches. For the table
    [| a | b |], [|---|---|], [| 1 | 2 |] the emitted table has three rows,
    the second one with the cells [---] and [---], where the specification
    gives the two rows [a b] and [1 2]. For [| a |], [|---|---|---|] the
    separator row sets the column count: the table has three grid columns
    of width 3120 and the row [a] is padded to three cells, where the
    specification gives one column of width 9360. *)
Theorem table_separator_row_kept :
  let sep := lit "|---|---|" in
  let table := [lit "| a | b |"; sep; lit "| 1 | 2 |"] in
  let narrow := [lit "| a |"; lit "|---|---|---|"] in
  (test spec_separatorRegex sep = true /\ test separatorRegex sep = false) /\
  (spec_tableRows table = [[lit "a"; lit "b"]; [lit "1"; lit "2"]] /\
   tableRows table []
   = [[lit "a"; lit "b"]; [lit "---"; lit "---"]; [lit "1"; lit "2"]]) /\
  (markdownToWordXml (lit "| a | b |
|---|---|
| 1 | 2 |") = createTableXml table /\
   createTableXml table
   = xml "<w:tbl>" ++ tblPrXml ++ xml "<w:tblGrid>"
     ++ gridColXml 4680 ++ gridColXml 4680 ++ xml "</w:tblGrid>"
     ++ rowXml 4680 true [lit "a"; lit "b"]
     ++ rowXml 4680 false [lit "---"; lit "---"]
     ++ rowXml 4680 false [lit "1"; lit "2"]
     ++ xml "</w:tbl>"
     ++ xml "<w:p><w:pPr><w:spacing w:before='120' w:after='0'/></w:pPr></w:p>" /\
   createTableXml table <> spec_tableXml table) /\
  (spec_tableRows narrow = [[lit "a"]] /\
   spec_tableXml narrow
   = xml "<w:tbl>" ++ tblPrXml ++ xml "<w:tblGrid>"
     ++ gridColXml 9360 ++ xml "</w:tblGrid>"
     ++ rowXml 9360 true [lit "a"]
     ++ xml "</w:tbl>"
     ++ xml "<w:p><w:pPr><w:spacing w:before='120' w:after='0'/></w:pPr></w:p>" /\
   createTableXml narrow
   = xml "<w:tbl>" ++ tblPrXml ++ xml "<w:tblGrid>"
     ++ gridColXml 3120 ++ gridColXml 3120 ++ gridColXml 3120
     ++ xml "</w:tblGrid>"
     ++ rowXml 3120 true [lit "a"; []; []]
     ++ rowXml 3120 false [lit "---"; lit "---"; lit "---"]
     ++ xml "</w:tbl>"
     ++ xml "<w:p><w:pPr><w:spacing w:before='120' w:after='0'/></w:pPr></w:p>").
Proof.
  repeat split; try (vm_compute; reflexivity).
  vm_compute. discriminate.
Qed.

(** C10. A row keeps only the cells whose trimmed text is not empty,
    wherever the empty ones stand: [| a | | b |] gives the two cells "a"
    and "b". The cells of a row are the trimmed pieces between the bars
    without the empty ones, none of them is empty, and padding appends
    its empty cells at the end of the row. *)
Theorem table_cells_drop_empty :
  tableCells (lit "| a | | b |") = [lit "a"; lit "b"] /\
  (forall line,
     tableCells line = List.filter truthy (map trim (split (ch "|") line))) /\
  (forall line, Forall (fun cell => cell <> []) (tableCells line)) /\
  (forall numCols rowCells,
     padRow numCols numCols rowCells
     = rowCells ++ replicate (numCols - length rowCells) []).
Proof.
  split; [vm_compute; reflexivity|]. split; [|split].
  - intros line. apply filter_map_trim.
  - apply tableCells_truthy.
  - apply padRow_full.
Qed.

(** *** Section boundaries and the splice *)

Section MatchAll.

Variables (n : nat) (r : regex).

Lemma ordered_from_weaken lo lo' ms :
  lo' <= lo -> ordered_from n lo ms -> ordered_from n lo' ms.
Proof. destruct ms as [|m ms]; simpl; [auto|]. intros ? (? & ? & ?). repeat split; auto; lia. Qed.

Lemma matchAll_from_ordered skip s :
  length s <= n ->
  ordered_from n (n - length s + skip) (matchAll_from n r skip s).
Proof.
  revert skip. induction s as [|c t IH]; intros skip Hn.
  - destruct skip as [|j]; simpl; [|exact I].
    destruct (match_here n r []) as [y|] eqn:E; simpl; [|exact I].
    apply match_here_suffix, suffix_length in E. simpl in E.
    replace (length (rest y)) with 0 by lia. simpl. lia.
  - simpl in Hn. destruct skip as [|j]; simpl.
    + destruct (match_here n r (c :: t)) as [y|] eqn:E.
      * apply match_here_suffix, suffix_length in E. simpl in E.
        cbn [ordered_from mk_match index matched length].
        rewrite length_take. simpl length.
        split; [lia|]. split; [lia|].
        eapply ordered_from_weaken; [|apply IH; lia]. lia.
      * eapply ordered_from_weaken; [|apply IH; lia]. lia.
    + eapply ordered_from_weaken; [|apply IH; lia]. lia.
Qed.

Lemma matchAll_from_placed doc skip s :
  length doc = n -> s `suffix_of` doc ->
  Forall (placed doc) (matchAll_from n r skip s).
Proof.
  intros Hn. revert skip. induction s as [|c t IH]; intros skip [pre Hs].
  - destruct skip as [|j]; simpl; [|constructor].
    destruct (match_here n r []) as [y|] eqn:E; [|constructor].
    constructor; [|constructor].
    apply match_here_suffix in E.
    exists pre, (rest y). rewrite <- (mk_match_spec n [] y E).
    split; [exact Hs|]. simpl. subst doc n. rewrite length_app. simpl. lia.
  - assert (Ht : t `suffix_of` doc).
    { exists (pre ++ [c]). rewrite <- app_assoc. exact Hs. }
    destruct skip as [|j]; simpl; [|apply IH; exact Ht].
    destruct (match_here n r (c :: t)) as [y|] eqn:E; [|apply IH; exact Ht].
    constructor; [|apply IH; exact Ht].
    apply match_here_suffix in E.
    exists pre, (rest y). rewrite <- (mk_match_spec n (c :: t) y E).
    split; [exact Hs|]. cbn [mk_match index]. subst doc n.
    rewrite length_app. lia.
Qed.

End MatchAll.

Lemma ordered_from_lookup n lo ms i m :
  ordered_from n lo ms -> ms !! i = Some m ->
  lo <= index m /\ index m + length (matched m) <= n /\
  forall m', ms !! S i = Some m' -> index m + length (matched m) <= index m'.
Proof.
  revert lo i. induction ms as [|m0 ms IH]; intros lo i; [discriminate|].
  intros (Hlo & Hn & Hrest) Hi. destruct i as [|i]; simpl in Hi.
  - injection Hi as ->. repeat split; try assumption.
    intros m' Hm'. simpl in Hm'. destruct ms as [|m1 ms]; [discriminate|].
    injection Hm' as ->. apply Hrest.
  - destruct (IH _ _ Hrest Hi) as (H1 & H2 & H3).
    repeat split; try assumption. lia.
Qed.

(** The matches of [matchAll]: each lies in the document where its index
    says, and the next one starts at or after its end. *)
Lemma matchAll_spec r doc i m :
  matchAll r doc !! i = Some m ->
  placed doc m /\
  index m + length (matched m) <= length doc /\
  forall m', matchAll r doc !! S i = Some m' ->
             index m + length (matched m) <= index m'.
Proof.
  intros Hi. split.
  - assert (Hs : doc `suffix_of` doc) by reflexivity.
    pose proof (matchAll_from_placed (length doc) r doc 0 doc eq_refl Hs) as H.
    rewrite Forall_forall in H. apply H. eapply list_elem_of_lookup_2, Hi.
  - pose proof (matchAll_from_ordered (length doc) r 0 doc (Nat.le_refl _)) as H.
    destruct (ordered_from_lookup _ _ _ _ _ H Hi) as (_ & H2 & H3). auto.
Qed.

Lemma startsWith_spec p s :
  startsWith p s = true <-> exists t, s = p ++ t.
Proof.
  revert s. induction p as [|x p IH]; intros s; simpl.
  - split; [eauto|reflexivity].
  - destruct s as [|y s].
    + split; [discriminate|]. intros [t Ht]. discriminate.
    + rewrite andb_true_iff, N.eqb_eq, IH. split.
      * intros [-> [t ->]]. eauto.
      * intros [t [= -> ->]]. eauto.
Qed.

Lemma indexOf_from_spec p s k i :
  indexOf_from p s k = Some i ->
  exists pre post, s = pre ++ p ++ post /\ i = k + length pre.
Proof.
  revert k. induction s as [|c s IH]; intros k; simpl.
  - destruct (startsWith p []) eqn:E; [|discriminate].
    intros [= <-]. apply startsWith_spec in E as [t Ht].
    exists [], t. split; [exact Ht|simpl; lia].
  - destruct (startsWith p (c :: s)) eqn:E.
    + intros [= <-]. apply startsWith_spec in E as [t Ht].
      exists [], t. split; [exact Ht|simpl; lia].
    + intros H. apply IH in H as (pre & post & -> & ->).
      exists (c :: pre), post. split; [reflexivity|simpl; lia].
Qed.

Lemma indexOf_opt_spec p s i :
  indexOf_opt p s = Some i ->
  exists pre post, s = pre ++ p ++ post /\ i = length pre.
Proof. intros H. apply indexOf_from_spec in H as (pre & post & ? & ?). eauto. Qed.

Lemma app_eq_split {A} (a b c d : list A) :
  a ++ b = c ++ d -> length a <= length c ->
  exists g, c = a ++ g /\ b = g ++ d.
Proof.
  revert c. induction a as [|x a IH]; intros c H Hl; simpl in *.
  - exists c. auto.
  - destruct c as [|y c]; simpl in *; [lia|].
    injection H as -> H. destruct (IH c H) as (g & -> & ->); [lia|].
    exists g. auto.
Qed.

Lemma getSubstitution_plain m before after g ngroups tpl :
  dollar ∉ tpl -> getSubstitution m before after g ngroups tpl = tpl.
Proof.
  induction tpl as [|c t IH]; intros H; [reflexivity|].
  apply not_elem_of_cons in H as [Hc Ht]. cbn [getSubstitution].
  destruct (N.eqb c 36) eqn:E.
  - apply N.eqb_eq in E. unfold dollar in Hc. congruence.
  - cbn [negb]. rewrite (IH Ht). reflexivity.
Qed.

Section Splice.

Variables (documentXml newContentXml : jsstring).

Let matches := matchAll sectionBreakRegex documentXml.

(** The first branch of [insertContentAfterPage]: with [k] boundaries and
    [1 < p <= k + 1], the fragment goes in right after boundary [p - 1],
    and boundary [p], when there is one, lies in what follows. *)
Lemma insert_after_boundary (p : Z) :
  (1 < p)%Z -> (p <= Z.of_nat (length matches) + 1)%Z ->
  exists m pre post,
    matches !! Z.to_nat (p - 2) = Some m /\
    documentXml = pre ++ matched m ++ post /\
    index m = length pre /\
    insertContentAfterPage documentXml newContentXml p
    = pre ++ matched m ++ newContentXml ++ post /\
    forall m', matches !! Z.to_nat (p - 1) = Some m' ->
      exists gap post', post = gap ++ matched m' ++ post'.
Proof.
  intros Hp1 Hpk.
  destruct (matches !! Z.to_nat (p - 2)) as [m|] eqn:Em.
  2:{ apply lookup_ge_None in Em. lia. }
  destruct (matchAll_spec _ _ _ _ Em) as ((pre & post & Hdoc & Hidx) & Hlen & Hnext).
  exists m, pre, post. split; [reflexivity|]. split; [exact Hdoc|].
  split; [exact Hidx|]. split.
  - unfold insertContentAfterPage. fold matches.
    replace ((p - 1 <=? Z.of_nat (length matches))%Z) with true
      by (symmetry; apply Z.leb_le; lia).
    replace ((0 <? p - 1)%Z) with true by (symmetry; apply Z.ltb_lt; lia).
    cbn [andb]. replace (p - 1 - 1)%Z with (p - 2)%Z by lia. rewrite Em.
    rewrite Hidx. rewrite Hdoc at 1 2.
    rewrite (app_assoc pre), <- length_app, take_app_length, drop_app_length.
    rewrite <- !app_assoc. reflexivity.
  - intros m' Em'. replace (Z.to_nat (p - 1)) with (S (Z.to_nat (p - 2))) in Em' by lia.
    pose proof (Hnext m' Em') as Hle.
    destruct (matchAll_spec _ _ _ _ Em') as ((pre' & post' & Hdoc' & Hidx') & _).
    rewrite Hdoc' in Hdoc at 1. symmetry in Hdoc. rewrite app_assoc in Hdoc.
    apply app_eq_split in Hdoc as (gap & Hpre' & Hpost).
    + exists gap, post'. exact Hpost.
    + rewrite length_app. lia.
Qed.

(** The second branch: for page 1, or without any boundary, the fragment
    goes in right after the first [<w:body>]. *)
Lemma insert_after_body_open (p : Z) i :
  p = 1%Z \/ matches = [] ->
  indexOf_opt bodyOpen documentXml = Some i ->
  exists pre post,
    documentXml = pre ++ bodyOpen ++ post /\ i = length pre /\
    insertContentAfterPage documentXml newContentXml p
    = pre ++ bodyOpen ++ newContentXml ++ post.
Proof.
  intros Hp Hi.
  destruct (indexOf_opt_spec _ _ _ Hi) as [pre [post [Hdoc ->]]].
  exists pre, post. split; [exact Hdoc|]. split; [reflexivity|].
  unfold insertContentAfterPage. fold matches.
  replace ((p - 1 <=? Z.of_nat (length matches))%Z && (0 <? p - 1)%Z) with false.
  2:{ symmetry. apply andb_false_iff. destruct Hp as [-> | ->].
      - right. reflexivity.
      - destruct (Z.ltb_spec 0 (p - 1)); [|right; reflexivity].
        left. apply Z.leb_gt. simpl. lia. }
  replace ((p =? 1)%Z || (length matches =? 0)) with true.
  2:{ symmetry. apply orb_true_iff. destruct Hp as [-> | ->]; [left|right]; reflexivity. }
  unfold indexOf. rewrite Hi. unfold slice_to, slice_from.
  replace ((Z.of_nat (length pre) + 8 <? 0)%Z) with false by (symmetry; apply Z.ltb_ge; lia).
  replace (Z.to_nat (Z.of_nat (length pre) + 8)) with (length (pre ++ bodyOpen))
    by (rewrite length_app; change (length bodyOpen) with 8; lia).
  rewrite Hdoc. rewrite (app_assoc pre), take_app_length, drop_app_length.
  rewrite <- !app_assoc. reflexivity.
Qed.

(** The third branch, for a fragment without [$]: with boundaries but fewer
    than [p - 1], the fragment goes in right before the first
    [</w:body>]. *)
Lemma insert_before_body_close (p : Z) i :
  (Z.of_nat (length matches) < p - 1)%Z -> matches <> [] ->
  dollar ∉ newContentXml ->
  indexOf_opt bodyClose documentXml = Some i ->
  exists pre post,
    documentXml = pre ++ bodyClose ++ post /\ i = length pre /\
    insertContentAfterPage documentXml newContentXml p
    = pre ++ newContentXml ++ bodyClose ++ post.
Proof.
  intros Hp Hk Hfrag Hi.
  destruct (indexOf_opt_spec _ _ _ Hi) as [pre [post [Hdoc ->]]].
  exists pre, post. split; [exact Hdoc|]. split; [reflexivity|].
  unfold insertContentAfterPage. fold matches.
  replace ((p - 1 <=? Z.of_nat (length matches))%Z) with false
    by (symmetry; apply Z.leb_gt; lia).
  cbn [andb].
  replace ((p =? 1)%Z) with false by (symmetry; apply Z.eqb_neq; lia).
  replace (length matches =? 0) with false.
  2:{ symmetry. apply Nat.eqb_neq. destruct matches; [congruence|simpl; lia]. }
  cbn [orb]. unfold replace_str. rewrite Hi.
  rewrite getSubstitution_plain.
  2:{ rewrite elem_of_app. intros [H|H]; [exact (Hfrag H)|].
      vm_compute in H. repeat (apply elem_of_cons in H as [H|H]; [discriminate|]).
      apply elem_of_nil in H. exact H. }
  rewrite Hdoc at 1 2. rewrite take_app_length.
  rewrite (app_assoc pre bodyClose post), <- length_app, drop_app_length.
  rewrite <- !app_assoc. reflexivity.
Qed.

End Splice.

(** C1. The first two branches are the lemmas above; the third one passes
    the fragment to [replace] as a replacement string, which rewrites the
    [$] patterns in it. With one boundary and the default start page 3, the
    Markdown text [$$] arrives in the document as a single [$]: the
    paragraph that is inserted is the one of the text [$], not the
    generated fragment. *)
Theorem splice_fallback_rewrites_dollar :
  let documentXml :=
    lit "<w:document><w:body><w:p/><w:sectPr></w:sectPr></w:body></w:document>" in
  let newContentXml := markdownToWordXml (lit "$$") in
  length (matchAll sectionBreakRegex documentXml) = 1 /\
  insertContentAfterPage documentXml newContentXml 3
  = lit "<w:document><w:body><w:p/><w:sectPr></w:sectPr>"
    ++ markdownToWordXml (lit "$") ++ lit "</w:body></w:document>" /\
  insertContentAfterPage documentXml newContentXml 3
  <> lit "<w:document><w:body><w:p/><w:sectPr></w:sectPr>"
     ++ newContentXml ++ lit "</w:body></w:document>".
Proof.
  split; [vm_compute; reflexivity|]. split; [vm_compute; reflexivity|].
  vm_compute. discriminate.
Qed.

(** *** Code blocks *)

Section CodeBlocks.

Lemma split_nosep c a : c ∉ a -> split c a = [a].
Proof.
  induction a as [|x a IH]; intros H; cbn [split]; [reflexivity|].
  apply not_elem_of_cons in H as [Hx Ha].
  destruct (N.eqb_spec x c) as [->|_]; [congruence|].
  rewrite (IH Ha). reflexivity.
Qed.

Lemma split_app_sep c a s : c ∉ a -> split c (a ++ c :: s) = a :: split c s.
Proof.
  induction a as [|x a IH]; intros H; cbn [split app].
  - rewrite N.eqb_refl. reflexivity.
  - apply not_elem_of_cons in H as [Hx Ha].
    destruct (N.eqb_spec x c) as [->|_]; [congruence|].
    rewrite (IH Ha). reflexivity.
Qed.

(** Splitting at newlines undoes joining with newlines. *)
Lemma split_join c l ls :
  Forall (fun a => c ∉ a) (l :: ls) -> split c (join [c] (l :: ls)) = l :: ls.
Proof.
  revert l. induction ls as [|l' ls IH]; intros l H.
  - apply Forall_cons_1 in H as [H _]. cbn [join]. apply split_nosep, H.
  - apply Forall_cons_1 in H as [Hl H].
    change (join [c] (l :: l' :: ls)) with (l ++ c :: join [c] (l' :: ls)).
    rewrite (split_app_sep _ _ _ Hl), (IH _ H). reflexivity.
Qed.

(** No piece of a split holds the separator. *)
Lemma split_pieces c s : Forall (fun a => c ∉ a) (split c s).
Proof.
  induction s as [|x s IH]; cbn [split].
  - repeat constructor. apply not_elem_of_nil.
  - destruct (N.eqb_spec x c) as [->|Hx].
    + constructor; [apply not_elem_of_nil|exact IH].
    + destruct (split c s) as [|h r]; [repeat constructor|].
      * intros H. apply elem_of_cons in H as [H|H]; [congruence|].
        apply elem_of_nil in H. exact H.
      * apply Forall_cons_1 in IH as [Hh Hr]. constructor; [|exact Hr].
        intros H. apply elem_of_cons in H as [H|H]; [congruence|exact (Hh H)].
Qed.

(** Inside a code block, a line that is not a fence is kept as it is. *)
Lemma markdownLoop_code_lines content ls xmlOut codeLines0 :
  Forall (fun l => startsWith fence (trim l) = false) content ->
  markdownLoop 0 (content ++ ls) (MdState xmlOut true codeLines0)
  = markdownLoop 0 ls (MdState xmlOut true (codeLines0 ++ content)).
Proof.
  revert codeLines0. induction content as [|l content IH]; intros codeLines0 H.
  - rewrite app_nil_r. reflexivity.
  - apply Forall_cons_1 in H as [Hl H]. cbn [app markdownLoop].
    rewrite Hl. cbn [inCodeBlock out codeLines]. rewrite (IH _ H), <- app_assoc.
    reflexivity.
Qed.

(** A closed block: between two fence lines, every line of a content that
    is not empty becomes one paragraph that holds its escaped text. *)
Lemma markdownLoop_closed_block opening closing content ls xmlOut :
  startsWith fence (trim opening) = true ->
  startsWith fence (trim closing) = true ->
  Forall (fun l => startsWith fence (trim l) = false /\ nl ∉ l) content ->
  content <> [] ->
  markdownLoop 0 (opening :: content ++ closing :: ls) (MdState xmlOut false [])
  = markdownLoop 0 ls
      (MdState (xmlOut ++ concat (imap (codeLineXml (length content)) content))
         false []).
Proof.
  intros Ho Hc Hcontent Hne. cbn [markdownLoop]. rewrite Ho.
  cbn [inCodeBlock out codeLines].
  rewrite markdownLoop_code_lines
    by (eapply Forall_impl; [exact Hcontent|]; intros l [Hl _]; exact Hl).
  cbn [markdownLoop app]. rewrite Hc. cbn [inCodeBlock out codeLines].
  do 2 f_equal. unfold createCodeBlockXml.
  destruct content as [|l content]; [congruence|].
  rewrite split_join
    by (eapply Forall_impl; [exact Hcontent|]; intros l' [_ Hl']; exact Hl').
  rewrite (forEachIndexed_spec (codeLineXml (length (l :: content)))).
  reflexivity.
Qed.

End CodeBlocks.

(** C2. A block that is closed and has content is emitted line by line (the
    lemma above), but the loop never emits the lines of a block that the
    end of the input closes, and a closed block without content still
    gives one paragraph. *)
Theorem code_block_unclosed_dropped :
  markdownToWordXml (lit "```
first line
second line") = [] /\
  markdownToWordXml (lit "```
```") = codeLineXml 1 0 [].
Proof. split; vm_compute; reflexivity. Qed.

(** *** Anchored patterns and runs of a class *)

Section ClassRuns.

Lemma filter_all_true {A} (l : list A) : List.filter (fun _ => true) l = l.
Proof. induction l as [|x l IH]; simpl; [|rewrite IH]; reflexivity. Qed.

Lemma clear_caps_nil x : clear_caps [] x = x.
Proof. destruct x as [s cp]. unfold clear_caps. simpl. rewrite filter_all_true. reflexivity. Qed.

Lemma rep_loop_greedy_class (m : matcher) cl fuel min s cp k :
  (forall x k, m x k = match rest x with
                       | c :: t =>
                           if class_matches cl c then k (MState t (caps x))
                           else None
                       | [] => None
                       end) ->
  min + length s < fuel ->
  rep_loop m [] true fuel min None (MState s cp) k
  = greedy_class cl min s cp k.
Proof.
  intros Hm. revert min s. induction fuel as [|fuel IH]; intros min s Hf; [lia|].
  cbn [rep_loop dec_max]. rewrite clear_caps_nil, Hm. cbn [rest caps].
  destruct s as [|c t]; cbn [greedy_class].
  - destruct (min =? 0); reflexivity.
  - cbn [length] in Hf. destruct (class_matches cl c).
    + cbn [rest length].
      replace (length t =? S (length t)) with false
        by (symmetry; apply Nat.eqb_neq; lia).
      rewrite andb_false_r.
      destruct (min =? 0) eqn:E; cbn [negb].
      * apply Nat.eqb_eq in E. subst min. rewrite IH by (simpl; lia). reflexivity.
      * apply Nat.eqb_neq in E. rewrite IH by lia. reflexivity.
    + destruct (min =? 0); reflexivity.
Qed.

Lemma rmatch_greedy_class n cl min x k :
  rmatch n (RRep true min None (RChar cl)) x k
  = greedy_class cl min (rest x) (caps x) k.
Proof.
  destruct x as [s cp]. cbn [rmatch group_ids rest caps].
  apply rep_loop_greedy_class; [reflexivity|lia].
Qed.

(** Before a continuation that never fails, a greedy run reads all the
    units of the class. *)
Lemma greedy_class_total cl min s cp k :
  (forall y, k y <> None) ->
  greedy_class cl min s cp k
  = if min <=? count_class cl s then k (MState (skip_class cl s) cp) else None.
Proof.
  intros Hk. revert min. induction s as [|c t IH]; intros min;
    cbn [greedy_class count_class skip_class].
  - destruct min; reflexivity.
  - destruct (class_matches cl c).
    + destruct min as [|min]; cbn [Nat.eqb pred].
      * rewrite IH. cbn [Nat.leb].
        destruct (k (MState (skip_class cl t) cp)) eqn:E; [reflexivity|].
        exfalso. exact (Hk _ E).
      * rewrite IH. reflexivity.
    + destruct min; reflexivity.
Qed.

Lemma count_skip_class cl s :
  length s = count_class cl s + length (skip_class cl s).
Proof.
  induction s as [|c t IH]; cbn [count_class skip_class]; [reflexivity|].
  destruct (class_matches cl c); simpl; lia.
Qed.

Lemma rmatch_seq n a b x k :
  rmatch n (RSeq a b) x k = rmatch n a x (fun y => rmatch n b y k).
Proof. reflexivity. Qed.

(** A pattern that starts with [^] is only tried at the start. *)
Lemma search_anchored_later n r s :
  length s < n -> search n (RSeq RBol r) s = None.
Proof.
  induction s as [|c t IH]; intros Hn; cbn [search match_here rmatch rest].
  - replace (length [] =? n) with false by (symmetry; apply Nat.eqb_neq; simpl; lia).
    reflexivity.
  - replace (length (c :: t) =? n) with false by (symmetry; apply Nat.eqb_neq; lia).
    apply IH. simpl in Hn. lia.
Qed.

Lemma exec_anchored r s :
  exec (RSeq RBol r) s
  = match rmatch (length s) r (MState s []) Some with
    | Some y => Some (mk_match (length s) s y)
    | None => None
    end.
Proof.
  unfold exec. destruct s as [|c t]; cbn [search match_here rmatch rest].
  - cbn [length Nat.eqb]. destruct (rmatch 0 r _ _); reflexivity.
  - rewrite Nat.eqb_refl. destruct (rmatch _ r _ _); [reflexivity|].
    apply search_anchored_later. simpl. lia.
Qed.

End ClassRuns.

(** *** Headings *)

Section Headings.

Lemma skip_space_trimStart s : skip_class spaceClass s = trimStart s.
Proof.
  induction s as [|c t IH]; cbn [skip_class trimStart]; [reflexivity|].
  cbn [class_matches spaceClass existsb item_matches]. rewrite orb_false_r.
  destruct (is_space c); [exact IH|reflexivity].
Qed.

Lemma trimStart_idem s : trimStart (trimStart s) = trimStart s.
Proof.
  induction s as [|c t IH]; cbn [trimStart]; [reflexivity|].
  destruct (is_space c) eqn:E; [exact IH|]. cbn [trimStart]. rewrite E. reflexivity.
Qed.

Lemma trimStart_app_nonspace a c b :
  is_space c = false -> trimStart (a ++ c :: b) = trimStart a ++ c :: b.
Proof.
  intros Hc. induction a as [|x a IH]; cbn [app trimStart].
  - rewrite Hc. reflexivity.
  - destruct (is_space x); [exact IH|reflexivity].
Qed.

(** Trimming keeps a first unit that is not white space. *)
Lemma trim_head c t : is_space c = false -> exists u, trim (c :: t) = c :: u.
Proof.
  intros Hc. unfold trim, trimEnd. cbn [trimStart]. rewrite Hc.
  cbn [rev]. rewrite (trimStart_app_nonspace _ _ [] Hc), rev_app_distr.
  cbn [rev app]. eauto.
Qed.

Lemma greedy_class_short cl min s cp k :
  count_class cl s < min -> greedy_class cl min s cp k = None.
Proof.
  revert min. induction s as [|c t IH]; intros min H;
    cbn [greedy_class count_class] in *.
  - destruct min; [lia|reflexivity].
  - destruct (class_matches cl c).
    + destruct min as [|min]; [lia|]. cbn [Nat.eqb pred]. apply IH. lia.
    + destruct min; [lia|reflexivity].
Qed.

(** Replacing an anchored pattern by nothing leaves what follows the
    match. *)
Lemma replace_anchored_empty r s :
  replace_re (RSeq RBol r) [] s
  = match rmatch (length s) r (MState s []) Some with
    | Some y => rest y
    | None => s
    end.
Proof.
  unfold replace_re, replace_fn. rewrite exec_anchored.
  destruct (rmatch (length s) r (MState s []) Some) as [y|] eqn:E; [|reflexivity].
  apply rmatch_forward in E as (y' & [pre Hs] & [= <-]). cbn [rest] in Hs.
  unfold substitute. cbn [getSubstitution mk_match index matched].
  rewrite Nat.sub_diag. cbn [take app Nat.add].
  rewrite length_take, Hs, length_app.
  replace (Nat.min (length pre + length (rest y') - length (rest y'))
             (length pre + length (rest y'))) with (length pre) by lia.
  apply drop_app_length.
Qed.

(** [headingLevel] counts the hashes at the start of the line. *)
Lemma headingLevel_spec line : headingLevel line = count_class hashClass line.
Proof.
  unfold headingLevel, hashesRegex. cbn [rseq]. rewrite exec_anchored.
  unfold plus, one. rewrite rmatch_greedy_class, greedy_class_total by discriminate.
  cbn [rest caps]. change (CIn [COne (ch "#")]) with hashClass.
  destruct (count_class hashClass line) as [|k] eqn:E; [reflexivity|].
  cbn [Nat.leb mk_match matched rest]. rewrite length_take.
  pose proof (count_skip_class hashClass line). lia.
Qed.

(** Cutting the hashes and the white space after them. *)
Lemma replace_hashes_spec line :
  1 <= count_class hashClass line ->
  replace_re hashesSpaceRegex [] line
  = trimStart (skip_class hashClass line).
Proof.
  intros H. unfold hashesSpaceRegex. cbn [rseq]. rewrite replace_anchored_empty.
  unfold plus, star, one, ws, cls. rewrite rmatch_seq, rmatch_greedy_class.
  change (CIn [COne (ch "#")]) with hashClass.
  rewrite greedy_class_total.
  2:{ intros y. rewrite rmatch_greedy_class, greedy_class_total by discriminate.
      discriminate. }
  cbn [rest caps]. destruct (1 <=? count_class hashClass line) eqn:E.
  2:{ apply Nat.leb_gt in E. lia. }
  rewrite rmatch_greedy_class, greedy_class_total by discriminate.
  cbn [rest Nat.leb]. apply skip_space_trimStart.
Qed.

Lemma headingText_spec line :
  1 <= count_class hashClass line ->
  headingText line
  = replace_re numberingRegex [] (trim (skip_class hashClass line)).
Proof.
  intros H. unfold headingText. rewrite (replace_hashes_spec _ H).
  unfold trim. rewrite trimStart_idem. reflexivity.
Qed.

(** A text that does not start with a digit has no numbering to cut. *)
Lemma numbering_no_digit text :
  count_class digitClass text = 0 -> replace_re numberingRegex [] text = text.
Proof.
  intros H. unfold numberingRegex. cbn [rseq]. rewrite replace_anchored_empty.
  unfold plus, digit, cls. rewrite rmatch_seq, rmatch_greedy_class.
  rewrite greedy_class_short by (cbn [rest]; fold digitClass; lia).
  reflexivity.
Qed.

End Headings.

(** C3, as stated, fails: the level is not kept within 1-6. A line of
    seven hashes is a heading of level 7. *)
Lemma heading_level_counterexample :
  startsWith (lit "#") (trim (lit "####### x")) = true /\
  isAsciiArt (lit "####### x") = false /\
  markdownToWordXml (lit "####### x") = createHeadingXml (lit "x") 7 /\
  ~ (headingLevel (lit "####### x") <= 6).
Proof.
  split; [vm_compute; reflexivity|]. split; [vm_compute; reflexivity|].
  split; [vm_compute; reflexivity|]. vm_compute. lia.
Qed.

(** C3, amended. When the loop reaches, outside a code block, a line that
    starts with a hash and that the diagram rule does not take, it emits a
    heading and goes on with the next line. The level is the number of
    hashes at the start of the line: at least 1, with no upper limit. The
    text is what follows the hashes, trimmed, with the numbering pattern
    of the source cut off its start. In particular [## 2.1 Overview] gives
    level 2 and the text "Overview". *)
Theorem heading_line (line : jsstring) (ls : list jsstring) (st : mdstate) :
  startsWith (lit "#") line = true ->
  inCodeBlock st = false ->
  isAsciiArt line = false ->
  markdownLoop 0 (line :: ls) st
  = markdownLoop 0 ls
      (emit st (createHeadingXml (headingText line) (headingLevel line))) /\
  headingLevel line = count_class hashClass line /\
  1 <= headingLevel line /\
  headingText line
  = replace_re numberingRegex [] (trim (skip_class hashClass line)) /\
  markdownToWordXml (lit "## 2.1 Overview") = createHeadingXml (lit "Overview") 2.
Proof.
  intros Hhash Hcode Hart.
  destruct line as [|c t]; [discriminate|].
  assert (Hc : c = ch "#").
  { change (lit "#") with [ch "#"] in Hhash. cbn [startsWith] in Hhash.
    apply andb_true_iff in Hhash as [Hhash _]. apply N.eqb_eq in Hhash.
    symmetry. exact Hhash. }
  subst c.
  assert (Hcount : 1 <= count_class hashClass (ch "#" :: t)).
  { cbn [count_class]. change (class_matches hashClass (ch "#")) with true.
    cbv iota. lia. }
  destruct (trim_head (ch "#") t eq_refl) as [u Hu].
  split; [|split; [|split; [|split]]].
  - cbn [markdownLoop]. rewrite Hu, Hcode, Hart.
    change (startsWith fence (ch "#" :: u)) with false.
    change (truthy (ch "#" :: u)) with true.
    change (startsWith (lit "|") (ch "#" :: u)) with false.
    change (startsWith (lit "#") (ch "#" :: u)) with true.
    rewrite andb_false_r. reflexivity.
  - apply headingLevel_spec.
  - rewrite headingLevel_spec. exact Hcount.
  - apply headingText_spec, Hcount.
  - vm_compute. reflexivity.
Qed.

Lemma heading_line_witness :
  markdownLoop 0 [lit "### 1. Setup"] (MdState [] false [])
  = markdownLoop 0 []
      (emit (MdState [] false [])
         (createHeadingXml (headingText (lit "### 1. Setup"))
            (headingLevel (lit "### 1. Setup")))) /\
  headingLevel (lit "### 1. Setup") = count_class hashClass (lit "### 1. Setup") /\
  1 <= headingLevel (lit "### 1. Setup") /\
  headingText (lit "### 1. Setup")
  = replace_re numberingRegex []
      (trim (skip_class hashClass (lit "### 1. Setup"))) /\
  markdownToWordXml (lit "## 2.1 Overview") = createHeadingXml (lit "Overview") 2.
Proof.
  apply (heading_line (lit "### 1. Setup") [] (MdState [] false [])).
  - vm_compute. reflexivity.
  - reflexivity.
  - vm_compute. reflexivity.
Defined.

(** *** The page-size patch *)

Section TagPatterns.

Lemma class_notGt c : class_matches notGt c = negb (N.eqb c gt).
Proof. cbn [class_matches notGt existsb item_matches c1]. rewrite orb_false_r. reflexivity. Qed.

Lemma rseq_cons n r l x k :
  rmatch n (rseq (r :: l)) x k = rmatch n r x (fun y => rmatch n (rseq l) y k).
Proof. destruct l; reflexivity. Qed.

(** A literal matches when the input starts with it. *)
Lemma rmatch_chars n (l : jsstring) x k :
  rmatch n (rseq (map (fun c => RChar (CIn [COne c])) l)) x k
  = if startsWith l (rest x)
    then k (MState (drop (length l) (rest x)) (caps x))
    else None.
Proof.
  revert x. induction l as [|c l IH]; intros [s cp].
  - reflexivity.
  - cbn [map]. rewrite rseq_cons. cbn [rmatch rest caps startsWith].
    destruct s as [|d s]; [reflexivity|].
    cbn [class_matches existsb item_matches]. rewrite orb_false_r, N.eqb_sym.
    destruct (N.eqb c d); [|reflexivity]. cbn [andb]. rewrite IH. reflexivity.
Qed.

Lemma rmatch_rlit n s x k :
  rmatch n (rlit s) x k
  = if startsWith (lit s) (rest x)
    then k (MState (drop (length (lit s)) (rest x)) (caps x))
    else None.
Proof. apply rmatch_chars. Qed.

Lemma greedy_class_ext cl min s cp (k k' : cont) :
  (forall y, k y = k' y) ->
  greedy_class cl min s cp k = greedy_class cl min s cp k'.
Proof.
  intros H. revert min. induction s as [|c t IH]; intros min; cbn [greedy_class].
  - rewrite H. reflexivity.
  - rewrite !IH, H. reflexivity.
Qed.

(** Where the first [>] of a string is, is determined. *)
Lemma first_gt_unique (a b a' b' : jsstring) :
  a ++ gt :: b = a' ++ gt :: b' -> gt ∉ a -> gt ∉ a' -> a = a' /\ b = b'.
Proof.
  revert a'. induction a as [|x a IH]; intros a' H Ha Ha'.
  - destruct a' as [|y a']; simpl in H.
    + injection H as ->. auto.
    + injection H as <- _. exfalso. apply Ha'. left.
  - apply not_elem_of_cons in Ha as [Hx Ha].
    destruct a' as [|y a']; simpl in H.
    + injection H as -> _. congruence.
    + injection H as -> H. apply not_elem_of_cons in Ha' as [_ Ha'].
      destruct (IH _ H Ha Ha') as [-> ->]. auto.
Qed.

Lemma greedy_slashGt_sound s cp z :
  greedy_class notGt 0 s cp slashGtCont = Some z ->
  exists body, s = body ++ [slash; gt] ++ rest z /\ (gt ∉ body) /\ caps z = cp.
Proof.
  revert z. induction s as [|c t IH]; intros z; cbn [greedy_class Nat.eqb].
  - discriminate.
  - assert (Hk : slashGtCont (MState (c :: t) cp) = Some z ->
                 exists body, c :: t = body ++ [slash; gt] ++ rest z /\
                              (gt ∉ body) /\ caps z = cp).
    { unfold slashGtCont. cbn [rest caps].
      destruct (startsWith [slash; gt] (c :: t)) eqn:E; [|discriminate].
      intros [= <-]. apply startsWith_spec in E as [r Hr].
      cbn [app] in Hr. injection Hr as -> ->.
      exists []. cbn [rest caps drop app]. split; [reflexivity|].
      split; [apply not_elem_of_nil|reflexivity]. }
    rewrite class_notGt. destruct (N.eqb_spec c gt) as [->|Hc]; cbn [negb]; [exact Hk|].
    destruct (greedy_class notGt 0 t cp slashGtCont) as [z'|] eqn:E; [|exact Hk].
    intros [= <-]. destruct (IH _ eq_refl) as (body & -> & Hb & Hcp).
    exists (c :: body). split; [reflexivity|]. split; [|exact Hcp].
    apply not_elem_of_cons. auto.
Qed.

Lemma greedy_slashGt_complete body r cp :
  gt ∉ body ->
  greedy_class notGt 0 (body ++ [slash; gt] ++ r) cp slashGtCont
  = Some (MState r cp).
Proof.
  induction body as [|c body IH]; intros Hb; cbn [app greedy_class Nat.eqb].
  - rewrite !class_notGt. change (N.eqb slash gt) with false.
    rewrite N.eqb_refl. cbn [negb]. reflexivity.
  - apply not_elem_of_cons in Hb as [Hc Hb]. rewrite class_notGt.
    destruct (N.eqb_spec c gt) as [->|_]; [congruence|]. cbn [negb].
    cbn [app] in IH. rewrite (IH Hb). reflexivity.
Qed.

Lemma greedy_gt_sound s cp z :
  greedy_class notGt 0 s cp gtCont = Some z ->
  exists body, s = body ++ gt :: rest z /\ (gt ∉ body) /\ caps z = cp.
Proof.
  revert z. induction s as [|c t IH]; intros z; cbn [greedy_class Nat.eqb].
  - discriminate.
  - rewrite class_notGt. destruct (N.eqb_spec c gt) as [->|Hc]; cbn [negb].
    + unfold gtCont. cbn [rest caps startsWith]. rewrite N.eqb_refl. cbn [andb drop].
      intros [= <-]. exists []. split; [reflexivity|].
      split; [apply not_elem_of_nil|reflexivity].
    + destruct (greedy_class notGt 0 t cp gtCont) as [z'|] eqn:E.
      * intros [= <-]. destruct (IH _ eq_refl) as (body & -> & Hb & Hcp).
        exists (c :: body). split; [reflexivity|]. split; [|exact Hcp].
        apply not_elem_of_cons. auto.
      * unfold gtCont. cbn [rest caps startsWith].
        destruct (N.eqb_spec gt c) as [<-|_]; [congruence|]. discriminate.
Qed.

Lemma greedy_gt_complete body r cp :
  gt ∉ body ->
  greedy_class notGt 0 (body ++ gt :: r) cp gtCont = Some (MState r cp).
Proof.
  induction body as [|c body IH]; intros Hb; cbn [app greedy_class Nat.eqb].
  - rewrite class_notGt, N.eqb_refl. cbn [negb]. unfold gtCont.
    cbn [rest startsWith]. rewrite N.eqb_refl. reflexivity.
  - apply not_elem_of_cons in Hb as [Hc Hb]. rewrite class_notGt.
    destruct (N.eqb_spec c gt) as [->|_]; [congruence|]. cbn [negb].
    rewrite (IH Hb). reflexivity.
Qed.

End TagPatterns.

Lemma suffix_cons_case {A} (t' : list A) c t :
  t' `suffix_of` c :: t -> t' = c :: t \/ t' `suffix_of` t.
Proof.
  intros [[|c' k] Hk]; cbn [app] in Hk.
  - left. symmetry. exact Hk.
  - right. injection Hk as _ ->. exists k. reflexivity.
Qed.

Section GlobalReplace.

Variables (n : nat) (r : regex) (f : rxmatch -> jsstring).

Lemma replaceAll_skip a b :
  replaceAll_from n r f (length a) (a ++ b) = replaceAll_from n r f 0 b.
Proof.
  induction a as [|c a IH]; [reflexivity|].
  cbn [length app replaceAll_from]. exact IH.
Qed.

Lemma replaceAll_nil :
  match_here n r [] = None -> replaceAll_from n r f 0 [] = [].
Proof. intros H. cbn [replaceAll_from]. rewrite H. reflexivity. Qed.

Lemma replaceAll_none c t :
  match_here n r (c :: t) = None ->
  replaceAll_from n r f 0 (c :: t) = c :: replaceAll_from n r f 0 t.
Proof. intros H. cbn [replaceAll_from]. rewrite H. reflexivity. Qed.

Lemma replaceAll_some s y :
  match_here n r s = Some y -> length (rest y) < length s ->
  replaceAll_from n r f 0 s
  = f (mk_match n s y) ++ replaceAll_from n r f 0 (rest y).
Proof.
  intros H Hlen. pose proof (match_here_suffix _ _ _ _ H) as [pre Hs].
  destruct s as [|c t]; [simpl in Hlen; lia|].
  cbn [replaceAll_from]. rewrite H. f_equal.
  destruct pre as [|c' pre]; cbn [app] in Hs.
  { rewrite <- Hs in Hlen. lia. }
  injection Hs as <- ->.
  replace (length (c :: pre ++ rest y) - length (rest y)) with (S (length pre))
    by (cbn [length]; rewrite length_app; lia).
  cbn [Nat.eqb pred]. apply replaceAll_skip.
Qed.

(** Without a match at any position, nothing is replaced. *)
Lemma replaceAll_no_match s :
  (forall t, t `suffix_of` s -> match_here n r t = None) ->
  replaceAll_from n r f 0 s = s.
Proof.
  induction s as [|c t IH]; intros H.
  - apply replaceAll_nil, H. reflexivity.
  - rewrite replaceAll_none by (apply H; reflexivity).
    rewrite IH; [reflexivity|]. intros t' Ht'. apply H.
    apply suffix_cons_r, Ht'.
Qed.

(** A prefix in which no match starts is copied. *)
Lemma replaceAll_prefix pre u :
  (forall p1 p2, pre = p1 ++ p2 -> p2 <> [] -> match_here n r (p2 ++ u) = None) ->
  replaceAll_from n r f 0 (pre ++ u) = pre ++ replaceAll_from n r f 0 u.
Proof.
  induction pre as [|c pre IH]; intros H; [reflexivity|].
  cbn [app]. rewrite replaceAll_none by (apply (H [] (c :: pre)); [reflexivity|discriminate]).
  rewrite IH; [reflexivity|]. intros p1 p2 -> Hp2. apply (H (c :: p1) p2); auto.
Qed.

Lemma search_none_iff s :
  search n r s = None <-> forall t, t `suffix_of` s -> match_here n r t = None.
Proof.
  induction s as [|c t IH]; cbn [search].
  - destruct (match_here n r []) eqn:E.
    + split; [discriminate|]. intros H. rewrite H in E by reflexivity. discriminate.
    + split; [|reflexivity]. intros _ t Ht. apply suffix_nil_inv in Ht. subst t. exact E.
  - destruct (match_here n r (c :: t)) eqn:E.
    + split; [discriminate|]. intros H. rewrite H in E by reflexivity. discriminate.
    + rewrite IH. split.
      * intros H t' Ht'. apply suffix_cons_case in Ht' as [-> | Ht']; [exact E|].
        apply H, Ht'.
      * intros H t' Ht'. apply H, suffix_cons_r, Ht'.
Qed.

End GlobalReplace.

Section PageSize.

Ltac not_in_literal :=
  let H := fresh in
  vm_compute; intros H;
  repeat (apply elem_of_cons in H as [H|H]; [discriminate|]);
  apply elem_of_nil in H; exact H.

Lemma gt_notin_pgSzOpen : gt ∉ pgSzOpen.
Proof. not_in_literal. Qed.

Lemma gt_notin_sectPrOpen : gt ∉ sectPrOpen.
Proof. not_in_literal. Qed.

Lemma pgSz_rest n s :
  rmatch n (RSeq (star (ncls [c1 ">"])) (rlit "/>")) (MState s []) Some
  = greedy_class notGt 0 s [] slashGtCont.
Proof.
  rewrite rmatch_seq. unfold star, ncls. rewrite rmatch_greedy_class.
  apply greedy_class_ext. intros y. rewrite rmatch_rlit. reflexivity.
Qed.

Lemma pgSz_match n s y :
  match_here n pgSzRegex s = Some y <-> Tag s (rest y) /\ caps y = [].
Proof.
  unfold match_here, pgSzRegex. cbn [rseq]. rewrite rmatch_seq, rmatch_rlit.
  cbn [rest caps]. fold pgSzOpen. split.
  - destruct (startsWith pgSzOpen s) eqn:E; [|discriminate].
    apply startsWith_spec in E as [t ->]. rewrite drop_app_length, pgSz_rest.
    intros H. apply greedy_slashGt_sound in H as (body & -> & Hb & Hcp).
    split; [|exact Hcp]. exists body. auto.
  - intros [(body & -> & Hb) Hcp].
    replace (startsWith pgSzOpen (pgSzOpen ++ body ++ [slash; gt] ++ rest y))
      with true by (symmetry; apply startsWith_spec; eauto).
    rewrite drop_app_length, pgSz_rest, greedy_slashGt_complete by exact Hb.
    destruct y as [r cp]. cbn [caps] in Hcp. subst cp. reflexivity.
Qed.

Lemma pgSz_no_match n s :
  match_here n pgSzRegex s = None <-> forall r, ~ Tag s r.
Proof.
  split.
  - intros H r Ht.
    assert (Hm : match_here n pgSzRegex s = Some (MState r [])).
    { apply pgSz_match. auto. }
    congruence.
  - intros H. destruct (match_here n pgSzRegex s) as [y|] eqn:E; [|reflexivity].
    apply pgSz_match in E as [Ht _]. exfalso. exact (H _ Ht).
Qed.

Lemma sectPr_rest n s :
  rmatch n (RSeq (star (ncls [c1 ">"])) (one ">")) (MState s []) Some
  = greedy_class notGt 0 s [] gtCont.
Proof.
  rewrite rmatch_seq. unfold star, ncls. rewrite rmatch_greedy_class.
  apply greedy_class_ext. intros [t cp]. unfold gtCont, one.
  cbn [rmatch rest caps startsWith]. destruct t as [|c t]; [reflexivity|].
  cbn [class_matches existsb item_matches]. rewrite orb_false_r, andb_true_r.
  rewrite (N.eqb_sym c). reflexivity.
Qed.

Lemma sectPr_match n s y :
  match_here n sectPrRegex s = Some y
  <-> (exists tag, OpenTag s tag (rest y)) /\ caps y = [].
Proof.
  unfold match_here, sectPrRegex. cbn [rseq]. rewrite rmatch_seq, rmatch_rlit.
  cbn [rest caps]. fold sectPrOpen. split.
  - destruct (startsWith sectPrOpen s) eqn:E; [|discriminate].
    apply startsWith_spec in E as [t ->]. rewrite drop_app_length, sectPr_rest.
    intros H. apply greedy_gt_sound in H as (body & -> & Hb & Hcp).
    split; [|exact Hcp]. exists (sectPrOpen ++ body ++ [gt]), body.
    split; [reflexivity|]. split; [|exact Hb]. rewrite <- !app_assoc. reflexivity.
  - intros [(tag & body & -> & -> & Hb) Hcp]. rewrite <- !app_assoc.
    replace (startsWith sectPrOpen (sectPrOpen ++ body ++ [gt] ++ rest y))
      with true by (symmetry; apply startsWith_spec; eauto).
    rewrite drop_app_length, sectPr_rest. cbn [app].
    rewrite greedy_gt_complete by exact Hb.
    destruct y as [r cp]. cbn [caps] in Hcp. subst cp. reflexivity.
Qed.

Lemma sectPr_no_match n s :
  match_here n sectPrRegex s = None <-> forall tag r, ~ OpenTag s tag r.
Proof.
  split.
  - intros H tag r Ht.
    assert (Hm : match_here n sectPrRegex s = Some (MState r [])).
    { apply sectPr_match. eauto. }
    congruence.
  - intros H. destruct (match_here n sectPrRegex s) as [y|] eqn:E; [|reflexivity].
    apply sectPr_match in E as [[tag Ht] _]. exfalso. exact (H _ _ Ht).
Qed.

(** The element that the patch writes: a page-size element whose
    attributes hold no [>]. *)
Variable new : jsstring.
Hypothesis new_shape :
  exists nbody, new = pgSzOpen ++ nbody ++ [slash; gt] /\ gt ∉ nbody.

Lemma Tag_new u : Tag (new ++ u) u.
Proof.
  destruct new_shape as (nbody & -> & Hb). exists nbody.
  split; [|exact Hb]. rewrite <- !app_assoc. reflexivity.
Qed.

Lemma Tag_shorter s r : Tag s r -> length r < length s.
Proof. intros (body & -> & _). rewrite !length_app. cbn [length]. lia. Qed.

Lemma rewriteAll_nil n : rewriteAll new n [] = [].
Proof.
  apply replaceAll_nil, pgSz_no_match. intros r (body & H & _).
  destruct body; discriminate.
Qed.

Lemma rewriteAll_tag n s r : Tag s r -> rewriteAll new n s = new ++ rewriteAll new n r.
Proof.
  intros Ht. unfold rewriteAll.
  assert (Hm : match_here n pgSzRegex s = Some (MState r [])).
  { apply pgSz_match. auto. }
  rewrite (replaceAll_some _ _ _ _ _ Hm); [reflexivity|].
  apply Tag_shorter, Ht.
Qed.

Lemma rewriteAll_no_tag n c t :
  (forall r, ~ Tag (c :: t) r) -> rewriteAll new n (c :: t) = c :: rewriteAll new n t.
Proof. intros H. apply replaceAll_none, pgSz_no_match, H. Qed.

Lemma appendAll_nil n : appendAll new n [] = [].
Proof.
  apply replaceAll_nil, sectPr_no_match. intros tag r (body & -> & H & _).
  destruct body; discriminate.
Qed.

Lemma appendAll_open n s tag r :
  OpenTag s tag r -> appendAll new n s = tag ++ new ++ appendAll new n r.
Proof.
  intros Ht. unfold appendAll.
  assert (Hm : match_here n sectPrRegex s = Some (MState r [])).
  { apply sectPr_match. eauto. }
  destruct Ht as (body & -> & -> & Hb).
  rewrite (replaceAll_some _ _ _ _ _ Hm).
  2:{ cbn [rest]. rewrite !length_app. cbn [length]. lia. }
  cbn [mk_match matched rest].
  replace (length ((sectPrOpen ++ body ++ [gt]) ++ r) - length r)
    with (length (sectPrOpen ++ body ++ [gt])) by (rewrite (length_app _ r); lia).
  rewrite take_app_length, <- !app_assoc. reflexivity.
Qed.

Lemma appendAll_no_open n c t :
  (forall tag r, ~ OpenTag (c :: t) tag r) ->
  appendAll new n (c :: t) = c :: appendAll new n t.
Proof. intros H. apply replaceAll_none, sectPr_no_match, H. Qed.

Lemma pgSzOpen_cons : pgSzOpen = lt :: pgSzTail.
Proof. reflexivity. Qed.

Lemma lt_notin_pgSzTail : lt ∉ pgSzTail.
Proof. not_in_literal. Qed.

Lemma gt_notin_pgSzTail : gt ∉ pgSzTail.
Proof. not_in_literal. Qed.

Lemma not_elem_of_app_iff (c : char) (a b : jsstring) :
  c ∉ (a ++ b) <-> (c ∉ a) /\ (c ∉ b).
Proof. rewrite elem_of_app. tauto. Qed.

Lemma gt_notin_slash : gt ∉ [slash].
Proof. not_in_literal. Qed.

(** A string without [c] in front of the first [c] of another one is a
    prefix of what stands before that [c]. *)
Lemma prefix_before_char (c : char) (l u a v : jsstring) :
  l ++ u = a ++ c :: v -> c ∉ l -> exists a', a = l ++ a'.
Proof.
  revert a. induction l as [|x l IH]; intros a H Hl; [eauto|].
  apply not_elem_of_cons in Hl as [Hx Hl].
  destruct a as [|y a]; cbn [app] in H.
  - injection H as -> _. congruence.
  - injection H as -> H. destruct (IH _ H Hl) as [a' ->]. eauto.
Qed.

(** Up to its first [>], a rewritten document is the document itself, or
    both end there in a page-size element that starts at the same
    place. *)
Lemma rewriteAll_first_gt n s q r :
  gt ∉ q -> rewriteAll new n s = q ++ gt :: r ->
  exists q' r',
    s = q' ++ gt :: r' /\ (gt ∉ q') /\
    (q' = q \/ exists a x y, q = a ++ lt :: x /\ q' = a ++ lt :: y ++ [slash]).
Proof.
  revert q r. induction s as [|c t IH]; intros q r Hq H.
  - rewrite rewriteAll_nil in H. destruct q; discriminate.
  - destruct (match_here n pgSzRegex (c :: t)) as [y|] eqn:E.
    + apply pgSz_match in E as [Ht _]. rewrite (rewriteAll_tag _ _ _ Ht) in H.
      destruct Ht as (body & Hs & Hb).
      destruct new_shape as (nbody & Hnew & Hnb). rewrite Hnew in H at 1.
      assert (H' : (pgSzOpen ++ nbody ++ [slash]) ++ gt :: rewriteAll new n (rest y)
                   = q ++ gt :: r).
      { rewrite <- H, <- !app_assoc. reflexivity. }
      apply first_gt_unique in H' as [<- <-]; [| |exact Hq].
      2:{ rewrite !not_elem_of_app_iff.
          auto using gt_notin_pgSzOpen, gt_notin_slash. }
      exists (pgSzOpen ++ body ++ [slash]), (rest y).
      split; [rewrite Hs, <- !app_assoc; reflexivity|].
      split; [rewrite !not_elem_of_app_iff;
              auto using gt_notin_pgSzOpen, gt_notin_slash|].
      right. exists [], (pgSzTail ++ nbody ++ [slash]), (pgSzTail ++ body).
      rewrite pgSzOpen_cons. cbn [app]. rewrite <- !app_assoc. auto.
    + pose proof (proj1 (pgSz_no_match _ _) E) as E'. clear E. rename E' into E. rewrite (rewriteAll_no_tag _ _ _ E) in H.
      destruct q as [|c0 q]; cbn [app] in H.
      * injection H as -> <-. exists [], t. split; [reflexivity|].
        split; [apply not_elem_of_nil|]. left. reflexivity.
      * injection H as <- H. apply not_elem_of_cons in Hq as [Hc Hq].
        destruct (IH _ _ Hq H) as (q' & r' & -> & Hq' & Hrel).
        exists (c :: q'), r'. split; [reflexivity|].
        split; [apply not_elem_of_cons; auto|].
        destruct Hrel as [-> | (a & x & y & -> & ->)]; [left; reflexivity|].
        right. exists (c :: a), x, y. auto.
Qed.

(** Rewriting what follows a position does not make a page-size element
    start there. *)
Lemma rewriteAll_keeps_no_tag n c s :
  (forall r, ~ Tag (c :: s) r) -> forall r, ~ Tag (c :: rewriteAll new n s) r.
Proof.
  intros Hno r (body & Heq & Hb). rewrite pgSzOpen_cons in Heq.
  cbn [app] in Heq. injection Heq as -> Heq.
  assert (Heq' : rewriteAll new n s = (pgSzTail ++ body ++ [slash]) ++ gt :: r).
  { rewrite Heq, <- !app_assoc. reflexivity. }
  apply rewriteAll_first_gt in Heq' as (q' & r' & -> & Hq' & Hrel).
  2:{ rewrite !not_elem_of_app_iff. auto using gt_notin_pgSzTail, gt_notin_slash. }
  destruct Hrel as [-> | (a & x & y & Hq & ->)].
  - apply (Hno r'). exists body. split; [|exact Hb].
    rewrite pgSzOpen_cons. cbn [app]. rewrite <- !app_assoc. reflexivity.
  - apply prefix_before_char in Hq as [a' ->]; [|exact lt_notin_pgSzTail].
    apply (Hno r'). exists (a' ++ lt :: y). split.
    + rewrite pgSzOpen_cons. cbn [app]. rewrite <- !app_assoc. cbn [app].
      rewrite <- !app_assoc. reflexivity.
    + rewrite !not_elem_of_app_iff in Hq'. destruct Hq' as [[_ Ha'] Hy].
      rewrite not_elem_of_app_iff. split; [exact Ha'|].
      apply not_elem_of_cons in Hy as [Hlt Hy].
      rewrite not_elem_of_app_iff in Hy. apply not_elem_of_cons. tauto.
Qed.

(** Rewriting the page-size elements a second time changes nothing. *)
Lemma rewriteAll_idem n n' s : rewriteAll new n' (rewriteAll new n s) = rewriteAll new n s.
Proof.
  remember (length s) as len eqn:Hlen. revert s Hlen.
  induction len as [len IH] using lt_wf_ind. intros s Hlen.
  destruct s as [|c t]; [rewrite !rewriteAll_nil; reflexivity|].
  destruct (match_here n pgSzRegex (c :: t)) as [y|] eqn:E.
  - apply pgSz_match in E as [Ht _]. rewrite (rewriteAll_tag _ _ _ Ht).
    rewrite (rewriteAll_tag n' _ _ (Tag_new _)).
    rewrite (IH (length (rest y))); [reflexivity| |reflexivity].
    subst len. apply Tag_shorter, Ht.
  - pose proof (proj1 (pgSz_no_match _ _) E) as E'. clear E. rename E' into E. rewrite (rewriteAll_no_tag _ _ _ E).
    rewrite (rewriteAll_no_tag n' _ _ (rewriteAll_keeps_no_tag n _ _ E)).
    rewrite (IH (length t)); [reflexivity| |reflexivity].
    subst len. simpl. lia.
Qed.

Lemma test_pgSz_true s : test pgSzRegex s = true <-> has_tag s.
Proof.
  unfold test, exec. split.
  - destruct (search (length s) pgSzRegex s) as [m|] eqn:E; [|discriminate].
    intros _. apply search_spec in E as (pre & y & Hs & Hm & _).
    apply pgSz_match in Hm as [Ht _]. exists (matched m ++ rest y), (rest y).
    split; [exists pre; exact Hs|exact Ht].
  - intros (t & r & Hsuf & Ht).
    destruct (search (length s) pgSzRegex s) as [m|] eqn:E; [reflexivity|].
    pose proof (proj1 (search_none_iff _ _ _) E t Hsuf) as Hn.
    exfalso. exact (proj1 (pgSz_no_match _ _) Hn r Ht).
Qed.

Lemma test_pgSz_false s : test pgSzRegex s = false <-> ~ has_tag s.
Proof.
  rewrite <- test_pgSz_true. destruct (test pgSzRegex s); split; congruence.
Qed.

Lemma rewriteAll_no_tags n s : ~ has_tag s -> rewriteAll new n s = s.
Proof.
  intros H. apply replaceAll_no_match. intros t Ht. apply pgSz_no_match.
  intros r Hr. apply H. exists t, r. auto.
Qed.

Lemma rewriteAll_has_tag n s : has_tag s -> has_tag (rewriteAll new n s).
Proof.
  induction s as [|c t IH]; intros (t' & r & Hsuf & Ht).
  - apply suffix_nil_inv in Hsuf. subst t'. destruct Ht as (body & H & _).
    destruct body; discriminate.
  - destruct (match_here n pgSzRegex (c :: t)) as [y|] eqn:E.
    + apply pgSz_match in E as [Hy _]. rewrite (rewriteAll_tag _ _ _ Hy).
      eexists _, _. split; [reflexivity|apply Tag_new].
    + pose proof (proj1 (pgSz_no_match _ _) E) as E'.
      rewrite (rewriteAll_no_tag _ _ _ E').
      apply suffix_cons_case in Hsuf as [-> | Hsuf]; [exfalso; exact (E' _ Ht)|].
      destruct IH as (t2 & r2 & Hsuf2 & Ht2); [exists t', r; auto|].
      exists t2, r2. split; [apply suffix_cons_r, Hsuf2|exact Ht2].
Qed.

(** Appending leaves a document as it is up to its first [>]. *)
Lemma appendAll_first_gt n s q r :
  gt ∉ q -> appendAll new n s = q ++ gt :: r -> exists r', s = q ++ gt :: r'.
Proof.
  revert q r. induction s as [|c t IH]; intros q r Hq H.
  - rewrite appendAll_nil in H. destruct q; discriminate.
  - destruct (match_here n sectPrRegex (c :: t)) as [y|] eqn:E.
    + apply sectPr_match in E as [[tag Ht] _].
      rewrite (appendAll_open _ _ _ _ Ht) in H.
      destruct Ht as (body & -> & Hs & Hb).
      assert (H' : (sectPrOpen ++ body) ++ gt :: (new ++ appendAll new n (rest y))
                   = q ++ gt :: r).
      { rewrite <- H, <- !app_assoc. reflexivity. }
      apply first_gt_unique in H' as [<- _]; [| |exact Hq].
      2:{ rewrite not_elem_of_app_iff. auto using gt_notin_sectPrOpen. }
      exists (rest y). rewrite Hs, <- !app_assoc. reflexivity.
    + pose proof (proj1 (sectPr_no_match _ _) E) as E'.
      rewrite (appendAll_no_open _ _ _ E') in H.
      destruct q as [|c0 q]; cbn [app] in H.
      * injection H as -> _. exists t. reflexivity.
      * injection H as <- H. apply not_elem_of_cons in Hq as [_ Hq].
        destruct (IH _ _ Hq H) as [r' ->]. exists r'. reflexivity.
Qed.

Lemma split_last_unit {A} (p1 p2 w : list A) (g : A) :
  p1 ++ p2 = w ++ [g] -> p2 <> [] -> exists p2', p2 = p2' ++ [g] /\ w = p1 ++ p2'.
Proof.
  induction p2 as [|x p2 _] using rev_ind; intros H Hp2; [congruence|].
  rewrite app_assoc in H. apply app_inj_tail in H as [<- <-]. eauto.
Qed.

(** In a document without page-size elements, the elements that the
    append pass adds are the only ones, and rewriting them changes
    nothing. *)
Lemma rewriteAll_appendAll n n' s :
  ~ has_tag s -> rewriteAll new n' (appendAll new n s) = appendAll new n s.
Proof.
  remember (length s) as len eqn:Hlen. revert s Hlen.
  induction len as [len IH] using lt_wf_ind. intros s Hlen Hno.
  destruct s as [|c t]; [rewrite appendAll_nil; apply rewriteAll_nil|].
  destruct (match_here n sectPrRegex (c :: t)) as [y|] eqn:E.
  - apply sectPr_match in E as [[tag Ht] _]. rewrite (appendAll_open _ _ _ _ Ht).
    destruct Ht as (body & Htag & Hs & Hb).
    unfold rewriteAll at 1. rewrite replaceAll_prefix.
    + fold (rewriteAll new n' (new ++ appendAll new n (rest y))).
      rewrite (rewriteAll_tag _ _ _ (Tag_new _)).
      rewrite (IH (length (rest y))); [reflexivity| |reflexivity|].
      * subst len. rewrite Hs, length_app, Htag, !length_app. cbn [length]. lia.
      * intros (t2 & r2 & Hsuf & Ht2). apply Hno. exists t2, r2.
        split; [|exact Ht2]. rewrite Hs. apply suffix_app_r, Hsuf.
    + intros p1 p2 Hp Hp2. apply pgSz_no_match. intros r (b & Heq & Hbb).
      rewrite Htag in Hp. rewrite app_assoc in Hp. symmetry in Hp.
      apply split_last_unit in Hp as (p2' & -> & Hw); [|exact Hp2].
      assert (Heq' : p2' ++ gt :: (new ++ appendAll new n (rest y))
                     = (pgSzOpen ++ b ++ [slash]) ++ gt :: r).
      { rewrite <- app_assoc in Heq. cbn [app] in Heq. rewrite Heq, <- !app_assoc.
        reflexivity. }
      apply first_gt_unique in Heq' as [-> _].
      * apply Hno. exists ((pgSzOpen ++ b ++ [slash]) ++ gt :: rest y), (rest y).
        split.
        -- exists p1. rewrite Hs, Htag, (app_assoc sectPrOpen), Hw, <- !app_assoc.
           reflexivity.
        -- exists b. split; [rewrite <- !app_assoc; reflexivity|exact Hbb].
      * assert (Hin : gt ∉ sectPrOpen ++ body).
        { rewrite not_elem_of_app_iff. auto using gt_notin_sectPrOpen. }
        rewrite Hw, not_elem_of_app_iff in Hin. tauto.
      * rewrite !not_elem_of_app_iff.
        auto using gt_notin_pgSzOpen, gt_notin_slash.
  - pose proof (proj1 (sectPr_no_match _ _) E) as E'.
    rewrite (appendAll_no_open _ _ _ E').
    rewrite rewriteAll_no_tag.
    + rewrite (IH (length t)); [reflexivity| |reflexivity|].
      * subst len. simpl. lia.
      * intros (t2 & r2 & Hsuf & Ht2). apply Hno. exists t2, r2.
        split; [apply suffix_cons_r, Hsuf|exact Ht2].
    + intros r (b & Heq & Hbb). rewrite pgSzOpen_cons in Heq. cbn [app] in Heq.
      injection Heq as -> Heq.
      assert (Heq' : appendAll new n t = (pgSzTail ++ b ++ [slash]) ++ gt :: r).
      { rewrite Heq, <- !app_assoc. reflexivity. }
      apply appendAll_first_gt in Heq' as [r' ->].
      2:{ rewrite !not_elem_of_app_iff. auto using gt_notin_pgSzTail, gt_notin_slash. }
      apply Hno. eexists _, r'. split; [reflexivity|]. exists b.
      split; [|exact Hbb]. rewrite pgSzOpen_cons. cbn [app].
      rewrite <- !app_assoc. reflexivity.
Qed.

(** When the append pass leaves no page-size element, it has found no
    opening tag and has left the document as it was. *)
Lemma appendAll_no_tags n s : ~ has_tag (appendAll new n s) -> appendAll new n s = s.
Proof.
  induction s as [|c t IH]; intros Hno; [apply appendAll_nil|].
  destruct (match_here n sectPrRegex (c :: t)) as [y|] eqn:E.
  - apply sectPr_match in E as [[tag Ht] _].
    rewrite (appendAll_open _ _ _ _ Ht) in Hno. exfalso. apply Hno.
    eexists _, _. split; [apply suffix_app_r; reflexivity|apply Tag_new].
  - pose proof (proj1 (sectPr_no_match _ _) E) as E'.
    rewrite (appendAll_no_open _ _ _ E') in *. f_equal. apply IH.
    intros (t2 & r2 & Hsuf & Ht2). apply Hno. exists t2, r2.
    split; [apply suffix_cons_r, Hsuf|exact Ht2].
Qed.

Lemma patch_idem documentXml :
  patch new (patch new documentXml) = patch new documentXml.
Proof.
  unfold patch, replaceAll_fn.
  fold (rewriteAll new (length documentXml) documentXml).
  destruct (test pgSzRegex documentXml) eqn:E; cbn [negb].
  - apply test_pgSz_true in E.
    pose proof (rewriteAll_has_tag (length documentXml) _ E) as E2.
    apply test_pgSz_true in E2. rewrite E2. cbn [negb].
    apply rewriteAll_idem.
  - apply test_pgSz_false in E. rewrite (rewriteAll_no_tags _ _ E).
    fold (appendAll new (length documentXml) documentXml).
    set (n := length documentXml). set (r := appendAll new n documentXml).
    fold (rewriteAll new (length r) r).
    assert (Hr : rewriteAll new (length r) r = r) by (apply rewriteAll_appendAll, E).
    rewrite Hr. destruct (test pgSzRegex r) eqn:E2; cbn [negb]; [reflexivity|].
    apply test_pgSz_false in E2. pose proof (appendAll_no_tags _ _ E2) as Hid.
    fold r in Hid. fold (appendAll new (length r) r). rewrite Hid. exact Hid.
Qed.

End PageSize.

Lemma dec_digits_digits fuel n acc :
  Forall (fun c => is_digit c = true) acc ->
  Forall (fun c => is_digit c = true) (dec_digits fuel n acc).
Proof.
  revert n acc. induction fuel as [|fuel IH]; intros n acc H; cbn [dec_digits];
    [exact H|].
  assert (Hd : Forall (fun c => is_digit c = true) ((48 + n mod 10)%N :: acc)).
  { constructor; [|exact H]. unfold is_digit.
    assert (Hm : (n mod 10 < 10)%N) by (apply N.mod_upper_bound; lia).
    set (d := (n mod 10)%N) in *. clearbody d.
    apply andb_true_iff. split; apply N.leb_le; lia. }
  destruct (n / 10 =? 0)%N; [exact Hd|]. apply IH, Hd.
Qed.

Lemma gt_notin_number n : gt ∉ N_to_js n.
Proof.
  intros H. pose proof (dec_digits_digits (S (N.to_nat (N.log2 n))) n []
                          (Forall_nil_2 _)) as Hd.
  rewrite Forall_forall in Hd. specialize (Hd _ H). vm_compute in Hd. discriminate.
Qed.

Lemma gt_notin_dim d : gt ∉ dim_to_js d.
Proof.
  destruct d as [n|]; [apply gt_notin_number|].
  vm_compute. intros H.
  repeat (apply elem_of_cons in H as [H|H]; [discriminate|]).
  apply elem_of_nil in H. exact H.
Qed.

(** The element that [setPageSize] writes has the shape that the patch
    relies on, as long as the orientation holds no [>]. *)
Lemma pgSzElement_shape ps :
  gt ∉ orientation ps ->
  exists nbody, pgSzElement ps = pgSzOpen ++ nbody ++ [slash; gt] /\ gt ∉ nbody.
Proof.
  intros Ho. unfold pgSzElement. destruct (pageDimensions ps) as [width height].
  exists (xml " w:w='" ++ dim_to_js width ++ xml "' w:h='" ++ dim_to_js height
          ++ xml "' w:orient='" ++ orientation ps ++ [dquote]).
  split.
  - change (xml "<w:pgSz w:w='") with (pgSzOpen ++ xml " w:w='").
    change (xml "'/>") with ([dquote] ++ [slash; gt]).
    rewrite <- !app_assoc. reflexivity.
  - rewrite !not_elem_of_app_iff.
    repeat split; try apply gt_notin_dim; try exact Ho;
      (vm_compute; intros H;
       repeat (apply elem_of_cons in H as [H|H]; [discriminate|]);
       apply elem_of_nil in H; exact H).
Qed.

(** C4. Applying the page-size patch to its own result changes nothing, in
    the rewrite case and in the append case alike, for every document and
    for all settings whose orientation string holds no [>] (its values are
    [portrait] and [landscape]). *)
Theorem setPageSize_idempotent (ps : pageSettings) (documentXml : jsstring) :
  gt ∉ orientation ps ->
  setPageSize ps (setPageSize ps documentXml) = setPageSize ps documentXml.
Proof.
  intros Ho. exact (patch_idem (pgSzElement ps) (pgSzElement_shape ps Ho) documentXml).
Qed.

Lemma setPageSize_idempotent_witness :
  setPageSize (PageSettings (lit "letter") (lit "landscape"))
    (setPageSize (PageSettings (lit "letter") (lit "landscape"))
       (lit "<w:body><w:sectPr><w:pgMar/></w:sectPr></w:body>"))
  = setPageSize (PageSettings (lit "letter") (lit "landscape"))
      (lit "<w:body><w:sectPr><w:pgMar/></w:sectPr></w:body>").
Proof.
  apply (setPageSize_idempotent (PageSettings (lit "letter") (lit "landscape"))).
  vm_compute. intros H.
  repeat (apply elem_of_cons in H as [H|H]; [discriminate|]).
  apply elem_of_nil in H. exact H.
Defined.

(** *** convert *)

Section ConvertProperties.

Variable FS : Type.
Variable readFileSync : string -> FS -> jsError + bytes.
Variable writeFileSync : string -> bytes -> FS -> option jsError * FS.
Variable PizZip : bytes -> jsError + gmap string jsstring.
Variable generate : gmap string jsstring -> jsError + bytes.

Local Abbreviation convertWith_ :=
  (convertWith FS readFileSync writeFileSync PizZip generate).
Local Abbreviation prepare_ := (prepare FS readFileSync PizZip generate).

Ltac finish_run := cbn [fs trace]; rewrite <- ?app_assoc; cbn [app]; reflexivity.

(** What a call of [convert] comes to. *)
Lemma convertWith_run patchStep renderStep spliceStep
    this markdownContent outputPath w :
  convertWith_ patchStep renderStep spliceStep this markdownContent outputPath w
  = match prepare_ patchStep renderStep spliceStep this markdownContent (fs w) with
    | inl e =>
        (inl e, World (fs w) (trace w ++ [EvRead (templatePath this); EvLog e]))
    | inr buf =>
        match writeFileSync outputPath buf (fs w) with
        | (None, fs') =>
            (inr outputPath,
             World fs' (trace w ++ [EvRead (templatePath this);
                                    EvWrite outputPath buf]))
        | (Some e, fs') =>
            (inl e,
             World fs' (trace w ++ [EvRead (templatePath this);
                                    EvWrite outputPath buf; EvLog e]))
        end
    end.
Proof.
  unfold convertWith, prepare, tryCatch, bind, lift, ret, throw,
    fs_readFileSync, fs_writeFileSync, console_error.
  cbn [fs trace].
  destruct (readFileSync (templatePath this) (fs w)) as [e|templateBuffer];
    [finish_run|].
  destruct (PizZip templateBuffer) as [e|zip]; [finish_run|].
  destruct (zip !! docEntry) as [documentXml|]; [|finish_run].
  destruct (pageSettingsOf this) as [ps|].
  - destruct (patchStep ps documentXml) as [e|documentXml'];
      [finish_run|].
    destruct (renderStep markdownContent) as [e|newContentXml];
      [finish_run|].
    destruct (spliceStep documentXml' newContentXml (startPage this)) as [e|modifiedXml];
      [finish_run|].
    destruct (generate _) as [e|buf]; [finish_run|].
    cbn [fs trace]. destruct (writeFileSync outputPath buf (fs w)) as [[e|] fs'];
      finish_run.
  - cbn [fs trace].
    destruct (renderStep markdownContent) as [e|newContentXml];
      [finish_run|].
    destruct (spliceStep documentXml newContentXml (startPage this)) as [e|modifiedXml];
      [finish_run|].
    destruct (generate _) as [e|buf]; [finish_run|].
    cbn [fs trace]. destruct (writeFileSync outputPath buf (fs w)) as [[e|] fs'];
      finish_run.
Qed.

(** C8, amended. When the template cannot be read, when it is not an
    archive, or when the archive has no [word/document.xml], [convert]
    fails: it reads the template once, prints the error of the step that
    failed and throws that same error, the one of [fs] or of the archive
    library, or the [TypeError] of calling [asText] on [null]. Nothing is
    written and nothing is tried again. *)
Theorem convert_template_failure this markdownContent outputPath w e :
  template_failure FS readFileSync PizZip this (fs w) e ->
  convert FS readFileSync writeFileSync PizZip generate this markdownContent
    outputPath w
  = (inl e, World (fs w) (trace w ++ [EvRead (templatePath this); EvLog e])).
Proof.
  intros H. unfold convert. rewrite convertWith_run. unfold prepare.
  destruct H as [e H|templateBuffer e H1 H2|templateBuffer zip H1 H2 H3].
  - rewrite H. reflexivity.
  - rewrite H1, H2. reflexivity.
  - rewrite H1, H2, H3. reflexivity.
Qed.

(** C9. Whatever the steps of [convert] do: when one of the steps before
    the write fails, [convert] throws its error, the file system is the
    one it started with and no write was attempted; otherwise the write to
    [outputPath] is attempted once, after everything else, and only the
    report of its own failure can follow it. [convert] is [convertWith] at
    the three methods of the exporter. *)
Theorem convert_write_last patchStep renderStep spliceStep
    this markdownContent outputPath w :
  match prepare FS readFileSync PizZip generate patchStep renderStep spliceStep
          this markdownContent (fs w) with
  | inl e =>
      convertWith FS readFileSync writeFileSync PizZip generate
        patchStep renderStep spliceStep this markdownContent outputPath w
      = (inl e, World (fs w) (trace w ++ [EvRead (templatePath this); EvLog e]))
  | inr buf =>
      exists r fs',
        writeFileSync outputPath buf (fs w) = (r, fs') /\
        convertWith FS readFileSync writeFileSync PizZip generate
          patchStep renderStep spliceStep this markdownContent outputPath w
        = (match r with Some e => inl e | None => inr outputPath end,
           World fs'
             (trace w ++ EvRead (templatePath this) :: EvWrite outputPath buf
              :: match r with Some e => [EvLog e] | None => [] end))
  end.
Proof.
  rewrite convertWith_run.
  destruct (prepare _ _ _ _ _ _ _ _ _ _) as [e|buf]; [reflexivity|].
  destruct (writeFileSync outputPath buf (fs w)) as [[e|] fs'];
    eexists _, _; split; reflexivity.
Qed.

End ConvertProperties.

Lemma convert_template_failure_witness :
  convert SmallWorld.files SmallWorld.readFileSync SmallWorld.writeFileSync
    SmallWorld.PizZip SmallWorld.generate SmallWorld.exporter0 (lit "# Title")
    "out.docx" (World (∅ : SmallWorld.files) [])
  = (inl (SmallWorld.enoent "template.docx"),
     World (∅ : SmallWorld.files)
       [EvRead "template.docx"; EvLog (SmallWorld.enoent "template.docx")]).
Proof.
  apply (convert_template_failure SmallWorld.files SmallWorld.readFileSync
           SmallWorld.writeFileSync SmallWorld.PizZip SmallWorld.generate
           SmallWorld.exporter0 (lit "# Title") "out.docx"
           (World (∅ : SmallWorld.files) [])).
  apply read_fails. reflexivity.
Defined.

(** C8, as stated, fails: for a template without [word/document.xml] the
    error that reaches the caller is the [TypeError] of the call on
    [null]. It is no [TemplateReadError] and names no reason of the file
    system. *)
Lemma convert_absent_entry_counterexample :
  exists e w',
    convert SmallWorld.files SmallWorld.readFileSync SmallWorld.writeFileSync
      SmallWorld.PizZip SmallWorld.generate SmallWorld.exporter0 (lit "# Title")
      "out.docx" (World SmallWorld.emptyArchive [])
    = (inl e, w') /\
    e = typeErrorNull /\
    err_name e <> "TemplateReadError"%string.
Proof.
  eexists _, _. split; [vm_compute; reflexivity|].
  split; [reflexivity|]. discriminate.
Qed.

(** ** Further properties of the exporter *)

(** *** Escaping *)

Section Escaping.

(** A global replacement of one unit by a fixed text. *)
Lemma replaceAll_unit n c (f : rxmatch -> jsstring) tpl s :
  (forall m, f m = tpl) ->
  replaceAll_from n (RChar (CIn [COne c])) f 0 s
  = flat_map (fun a => if N.eqb a c then tpl else [a]) s.
Proof.
  intros Hf. induction s as [|a t IH].
  - apply replaceAll_nil. reflexivity.
  - cbn [flat_map]. destruct (N.eqb a c) eqn:E.
    + assert (Hm : match_here n (RChar (CIn [COne c])) (a :: t)
                   = Some (MState t [])).
      { unfold match_here. cbn [rmatch rest caps class_matches existsb item_matches].
        rewrite E. reflexivity. }
      rewrite (replaceAll_some _ _ _ _ _ Hm) by (cbn [rest length]; lia).
      rewrite Hf. cbn [rest]. rewrite IH. reflexivity.
    + rewrite replaceAll_none.
      * rewrite IH. reflexivity.
      * unfold match_here. cbn [rmatch rest caps class_matches existsb item_matches].
        rewrite E. reflexivity.
Qed.

Lemma replaceAll_re_unit c tpl s :
  dollar ∉ tpl ->
  replaceAll_re (RChar (CIn [COne c])) tpl s
  = flat_map (fun a => if N.eqb a c then tpl else [a]) s.
Proof.
  intros Htpl. unfold replaceAll_re, replaceAll_fn. apply replaceAll_unit.
  intros m. unfold substitute. apply getSubstitution_plain, Htpl.
Qed.

Ltac no_dollar :=
  let H := fresh in
  vm_compute; intros H;
  repeat (apply elem_of_cons in H as [H|H]; [discriminate|]);
  apply elem_of_nil in H; exact H.

(** The five passes of [escapeXml] come to one pass over the units of the
    text. *)
Lemma escapeXml_flat_map text : escapeXml text = flat_map escapeUnit text.
Proof.
  unfold escapeXml, one.
  rewrite !replaceAll_re_unit by no_dollar.
  induction text as [|a t IH]; [reflexivity|].
  cbn [flat_map]. rewrite !flat_map_app. f_equal; [|exact IH].
  unfold escapeUnit, amp, lt, gt.
  destruct (N.eqb_spec a (ch "&")) as [->|H1]; [vm_compute; reflexivity|].
  cbn [flat_map app]. rewrite !app_nil_r.
  destruct (N.eqb_spec a (ch "<")) as [->|H2]; [vm_compute; reflexivity|].
  cbn [flat_map app]. rewrite !app_nil_r.
  destruct (N.eqb_spec a (ch ">")) as [->|H3]; [vm_compute; reflexivity|].
  cbn [flat_map app]. rewrite !app_nil_r.
  destruct (N.eqb_spec a dquote) as [->|H4]; [vm_compute; reflexivity|].
  cbn [flat_map app]. rewrite !app_nil_r.
  destruct (N.eqb_spec a apos) as [->|H5]; reflexivity.
Qed.


Lemma escapeUnit_markup c :
  is_markup c = true ->
  exists name, name ∈ entityNames /\ escapeUnit c = amp :: name.
Proof.
  unfold is_markup, escapeUnit, entityNames.
  destruct (N.eqb c amp); [intros _; exists (lit "amp;"); split; [set_solver|reflexivity]|].
  destruct (N.eqb c lt); [intros _; exists (lit "lt;"); split; [set_solver|reflexivity]|].
  destruct (N.eqb c gt); [intros _; exists (lit "gt;"); split; [set_solver|reflexivity]|].
  destruct (N.eqb c dquote); [intros _; exists (lit "quot;"); split; [set_solver|reflexivity]|].
  destruct (N.eqb c apos); [intros _; exists (lit "apos;"); split; [set_solver|reflexivity]|].
  discriminate.
Qed.

Lemma escapeUnit_plain c : is_markup c = false -> escapeUnit c = [c].
Proof.
  unfold is_markup, escapeUnit. intros H.
  repeat (apply orb_false_iff in H as [H ?]). rewrite H.
  repeat match goal with E : N.eqb _ _ = false |- _ => rewrite E; clear E end.
  reflexivity.
Qed.

Lemma entityNames_clean name :
  name ∈ entityNames -> Forall (fun c => is_markup c = false) name.
Proof.
  unfold entityNames. intros H.
  repeat (apply elem_of_cons in H as [->|H]; [vm_compute; repeat constructor|]).
  apply elem_of_nil in H. destruct H.
Qed.

(** X1. [escapeXml] works unit by unit: each of the five units is replaced
    by its entity and every other unit is kept, so escaping distributes
    over concatenation and the [&] of an entity that a later pass writes
    is never escaped again. *)
Theorem escapeXml_units (text1 text2 : jsstring) :
  escapeXml text1 = concat (map escapeUnit text1) /\
  escapeXml (text1 ++ text2) = escapeXml text1 ++ escapeXml text2.
Proof.
  rewrite !escapeXml_flat_map. split.
  - apply flat_map_concat_map.
  - apply flat_map_app.
Qed.

Lemma is_markup_spec c :
  is_markup c = false <->
  c <> amp /\ c <> lt /\ c <> gt /\ c <> dquote /\ c <> apos.
Proof.
  unfold is_markup. rewrite !orb_false_iff, !N.eqb_neq. tauto.
Qed.

Lemma escapeXml_clean text :
  Forall (fun c => c = amp \/ is_markup c = false) (escapeXml text).
Proof.
  rewrite escapeXml_flat_map. induction text as [|a t IH]; [constructor|].
  cbn [flat_map]. apply Forall_app. split; [|exact IH].
  destruct (is_markup a) eqn:E.
  - apply escapeUnit_markup in E as (name & Hn & ->).
    constructor; [left; reflexivity|].
    eapply Forall_impl; [apply entityNames_clean, Hn|]. intros c Hc. right. exact Hc.
  - rewrite (escapeUnit_plain _ E). constructor; [right; exact E|constructor].
Qed.

Lemma app_eq_cases {A} (pre post u v : list A) x :
  pre ++ x :: post = u ++ v ->
  (exists w, u = pre ++ x :: w /\ post = w ++ v) \/
  (exists w, pre = u ++ w /\ v = w ++ x :: post).
Proof.
  revert u. induction pre as [|p pre IH]; intros u H.
  - destruct u as [|y u]; cbn [app] in H.
    + right. exists []. auto.
    + injection H as <- ->. left. exists u. auto.
  - destruct u as [|y u]; cbn [app] in H.
    + right. exists (p :: pre). auto.
    + injection H as <- H. destruct (IH _ H) as [(w & -> & ->)|(w & -> & ->)].
      * left. exists w. auto.
      * right. exists w. auto.
Qed.

(** X2. What [escapeXml] returns is character data: it holds none of
    [<], [>], the double quote and the apostrophe, and each [&] in it
    starts one of the five entities. *)
Theorem escapeXml_no_markup (text : jsstring) :
  Forall (fun c => c <> lt /\ c <> gt /\ c <> dquote /\ c <> apos)
    (escapeXml text) /\
  forall pre post, escapeXml text = pre ++ amp :: post ->
    exists name, name ∈ entityNames /\ name `prefix_of` post.
Proof.
  split.
  - eapply Forall_impl; [apply escapeXml_clean|]. intros c [->|Hc].
    + repeat split; discriminate.
    + apply is_markup_spec in Hc. tauto.
  - rewrite escapeXml_flat_map. induction text as [|a t IH]; intros pre post H.
    { destruct pre; discriminate. }
    cbn [flat_map] in H. symmetry in H. apply app_eq_cases in H as [(w & Hu & ->)|(w & -> & Hv)].
    + destruct (is_markup a) eqn:E.
      * apply escapeUnit_markup in E as (name & Hn & E). rewrite E in Hu.
        destruct pre as [|p pre]; cbn [app] in Hu.
        -- injection Hu as <-. exists name. split; [exact Hn|].
           apply prefix_app_r. reflexivity.
        -- injection Hu as <- Hu. exfalso.
           pose proof (entityNames_clean _ Hn) as Hc. rewrite Hu in Hc.
           apply Forall_app in Hc as [_ Hc]. apply Forall_cons_1 in Hc as [Hc _].
           vm_compute in Hc. discriminate.
      * rewrite (escapeUnit_plain _ E) in Hu.
        destruct pre as [|p [|q pre]]; cbn [app] in Hu; try discriminate.
        injection Hu as -> <-. vm_compute in E. discriminate.
    + destruct (IH _ _ Hv) as (name & Hn & Hp). eauto.
Qed.

Lemma escapeXml_length text : length text <= length (escapeXml text).
Proof.
  rewrite escapeXml_flat_map. induction text as [|a t IH]; [reflexivity|].
  cbn [flat_map]. rewrite length_app. cbn [length].
  destruct (is_markup a) eqn:E.
  - apply escapeUnit_markup in E as (name & _ & ->). cbn [length]. lia.
  - rewrite (escapeUnit_plain _ E). cbn [length]. lia.
Qed.

(** X3. A text is left as it is exactly when it holds none of the five
    units. *)
Theorem escapeXml_unchanged (text : jsstring) :
  escapeXml text = text <-> Forall (fun c => is_markup c = false) text.
Proof.
  split.
  - rewrite escapeXml_flat_map.
    induction text as [|a t IH]; intros H; [constructor|].
    cbn [flat_map] in H. destruct (is_markup a) eqn:E.
    + exfalso. apply (f_equal length) in H. rewrite length_app in H.
      pose proof (escapeXml_length t) as Ht. rewrite escapeXml_flat_map in Ht.
      cbn [length] in H.
      apply escapeUnit_markup in E as (name & Hn & E). rewrite E in H.
      cbn [length] in H.
      assert (0 < length name).
      { unfold entityNames in Hn.
        repeat (apply elem_of_cons in Hn as [->|Hn]; [vm_compute; lia|]).
        apply elem_of_nil in Hn. destruct Hn. }
      lia.
    + rewrite (escapeUnit_plain _ E) in H. cbn [app] in H.
      injection H as H. constructor; [exact E|apply IH, H].
  - intros H. rewrite escapeXml_flat_map.
    induction H as [|a t Ha Ht IH]; [reflexivity|].
    cbn [flat_map]. rewrite IH, (escapeUnit_plain _ Ha). reflexivity.
Qed.

Lemma is_markup_cases c :
  is_markup c = true ->
  c = amp \/ c = lt \/ c = gt \/ c = dquote \/ c = apos.
Proof.
  unfold is_markup. rewrite !orb_true_iff, !N.eqb_eq. tauto.
Qed.

Lemma escapeUnit_inj_app a b u v :
  escapeUnit a ++ u = escapeUnit b ++ v -> a = b /\ u = v.
Proof.
  intros H0. destruct (is_markup a) eqn:Ea, (is_markup b) eqn:Eb.
  - revert H0. apply is_markup_cases in Ea, Eb.
    destruct Ea as [->|[->|[->|[->| ->]]]], Eb as [->|[->|[->|[->| ->]]]];
      vm_compute; intros H; try discriminate; injection H as H; auto.
  - exfalso. revert H0. apply escapeUnit_markup in Ea as (name & _ & ->).
    rewrite (escapeUnit_plain _ Eb). cbn [app]. intros [= <- _].
    vm_compute in Eb. discriminate.
  - exfalso. revert H0. apply escapeUnit_markup in Eb as (name & _ & ->).
    rewrite (escapeUnit_plain _ Ea). cbn [app]. intros [= -> _].
    vm_compute in Ea. discriminate.
  - revert H0. rewrite (escapeUnit_plain _ Ea), (escapeUnit_plain _ Eb). cbn [app].
    intros [= -> ->]. auto.
Qed.

(** X4. Escaping loses nothing: two texts with the same escaped form are
    the same text. *)
Theorem escapeXml_injective (text1 text2 : jsstring) :
  escapeXml text1 = escapeXml text2 -> text1 = text2.
Proof.
  rewrite !escapeXml_flat_map. revert text2.
  induction text1 as [|a t IH]; intros [|b t2] H; cbn [flat_map] in H.
  - reflexivity.
  - exfalso. destruct (is_markup b) eqn:E.
    + apply escapeUnit_markup in E as (name & _ & E). rewrite E in H. discriminate.
    + rewrite (escapeUnit_plain _ E) in H. discriminate.
  - exfalso. destruct (is_markup a) eqn:E.
    + apply escapeUnit_markup in E as (name & _ & E). rewrite E in H. discriminate.
    + rewrite (escapeUnit_plain _ E) in H. discriminate.
  - apply escapeUnit_inj_app in H as [-> H]. f_equal. apply IH, H.
Qed.

Lemma escapeXml_injective_witness :
  escapeXml (lit "a<b") = escapeXml (lit "a" ++ lit "<b") /\
  lit "a<b" = lit "a" ++ lit "<b".
Proof.
  split; [reflexivity|].
  apply (escapeXml_injective (lit "a<b") (lit "a" ++ lit "<b")). reflexivity.
Defined.

End Escaping.

(** *** Spans of inline formatting *)

Section InlineSpans.

(** The text emitted so far is only appended to. *)
Lemma parseInlineLoop_acc pats fuel remaining out :
  parseInlineLoop pats fuel remaining out
  = option_map (app out) (parseInlineLoop pats fuel remaining []).
Proof.
  revert remaining out. induction fuel as [|fuel IH]; intros remaining out;
    cbn [parseInlineLoop]; [reflexivity|].
  destruct (negb (0 <? length remaining));
    [cbn [option_map]; rewrite app_nil_r; reflexivity|].
  destruct (found (findEarliest pats remaining)) as [[p m]|];
    [|cbn [option_map app]; reflexivity].
  rewrite IH. rewrite (IH _ (_ ++ _)).
  destruct (parseInlineLoop pats fuel _ []) as [r|]; [|reflexivity].
  cbn [option_map]. f_equal.
  destruct (0 <? earliestPos (findEarliest pats remaining));
    cbn [app]; rewrite <- ?app_assoc; reflexivity.
Qed.

(** More rounds than needed give the same runs. *)
Lemma parseInlineLoop_more pats fuel fuel' remaining out r :
  parseInlineLoop pats fuel remaining out = Some r -> fuel <= fuel' ->
  parseInlineLoop pats fuel' remaining out = Some r.
Proof.
  revert fuel' remaining out. induction fuel as [|fuel IH];
    intros fuel' remaining out H Hle; [discriminate|].
  destruct fuel' as [|fuel']; [lia|]. cbn [parseInlineLoop] in *.
  destruct (negb (0 <? length remaining)); [exact H|].
  destruct (found (findEarliest pats remaining)) as [[p m]|]; [|exact H].
  apply IH; [exact H|lia].
Qed.

Lemma parseInlineLoop_enough fuel text out :
  length text < fuel ->
  parseInlineLoop patterns fuel text out = Some (out ++ parseInlineFormatting text).
Proof.
  intros Hf. rewrite parseInlineLoop_acc.
  rewrite (parseInlineLoop_more patterns (S (length text)) fuel text []
             (parseInlineFormatting text)); [reflexivity| |lia].
  apply parseInlineFormatting_total.
Qed.

(** The three ways in which a pattern changes the candidate of a scan. *)
Lemma tryPattern_keep remaining e p :
  (forall m, exec (p_regex p) remaining = Some m -> earliestPos e <= index m) ->
  tryPattern remaining e p = e.
Proof.
  intros H. unfold tryPattern.
  destruct (exec (p_regex p) remaining) as [m|]; [|reflexivity].
  specialize (H m eq_refl).
  replace (index m <? earliestPos e) with false
    by (symmetry; apply Nat.ltb_ge; lia).
  reflexivity.
Qed.

Lemma tryPattern_take remaining e p m :
  exec (p_regex p) remaining = Some m -> index m < earliestPos e ->
  tryPattern remaining e p = Earliest (index m) (Some (p, m)).
Proof.
  intros H Hlt. unfold tryPattern. rewrite H.
  replace (index m <? earliestPos e) with true
    by (symmetry; apply Nat.ltb_lt; lia).
  reflexivity.
Qed.

Lemma tryPattern_above remaining e p lo :
  lo < earliestPos e ->
  (forall m, exec (p_regex p) remaining = Some m -> lo < index m) ->
  lo < earliestPos (tryPattern remaining e p).
Proof.
  intros He H. unfold tryPattern.
  destruct (exec (p_regex p) remaining) as [m|]; [|exact He].
  destruct (index m <? earliestPos e); [|exact He].
  cbn [earliestPos]. apply H. reflexivity.
Qed.

(** A literal does not match where the input starts with another unit. *)
Lemma startsWith_other_head (mk : jsstring) h mk' c u :
  mk = h :: mk' -> c <> h -> startsWith mk (c :: u) = false.
Proof.
  intros -> Hc. cbn [startsWith]. destruct (N.eqb_spec h c); [congruence|reflexivity].
Qed.

Lemma match_here_span n mk s :
  match_here n (spanRegex mk) s
  = if startsWith (lit mk) s
    then rmatch n (RSeq (RGroup 1 (lazy_plus (RChar CDot))) (rlit mk))
           (MState (drop (length (lit mk)) s) []) Some
    else None.
Proof.
  unfold match_here, spanRegex. cbn [rseq]. rewrite rmatch_seq, rmatch_rlit.
  reflexivity.
Qed.

(** A span pattern matches no earlier than the first occurrence of the
    first unit of its marker. *)
Lemma exec_span_lower mk h mk' pre t m :
  lit mk = h :: mk' -> h ∉ pre ->
  exec (spanRegex mk) (pre ++ t) = Some m ->
  length pre <= index m /\
  (startsWith (lit mk) t = false -> length pre < index m).
Proof.
  intros Hmk Hpre H. unfold exec in H.
  apply search_spec in H as (pre' & y & Hs & Hm & _ & Hi & _).
  assert (Hidx : index m = length pre').
  { rewrite Hi, Hs, !length_app. lia. }
  rewrite match_here_span in Hm.
  destruct (startsWith (lit mk) (matched m ++ rest y)) eqn:E; [|discriminate].
  destruct (decide (length pre' < length pre)) as [Hlt|Hge].
  - exfalso. symmetry in Hs. apply app_eq_split in Hs as (g & -> & Hg); [|lia].
    destruct g as [|c g]; [rewrite app_nil_r in Hlt; lia|].
    rewrite Hg in E. cbn [app] in E.
    rewrite (startsWith_other_head _ _ _ _ _ Hmk) in E; [discriminate|].
    intros ->. apply Hpre. apply elem_of_app. right. left.
  - split; [lia|]. intros Ht.
    destruct (decide (length pre' = length pre)) as [Heq|Hne]; [|lia].
    exfalso. apply app_inj_1 in Hs as [_ Hs]; [|lia].
    rewrite <- Hs, Ht in E. discriminate.
Qed.

(** A lazy run of [.] reads on until what follows lets the rest of the
    pattern match. *)
Lemma rep_loop_lazy_dot n (x rst : jsstring) cp (k : cont) z :
  Forall (fun c => is_line_terminator c = false) x ->
  k (MState rst cp) = Some z ->
  forall fuel min,
    min <= length x -> min + length (x ++ rst) < fuel ->
    (forall x1 x2, x = x1 ++ x2 -> x2 <> [] -> min <= length x1 ->
                   k (MState (x2 ++ rst) cp) = None) ->
    rep_loop (rmatch n (RChar CDot)) [] false fuel min None (MState (x ++ rst) cp) k
    = Some z.
Proof.
  intros Hx Hz. induction Hx as [|c x Hc Hx IH]; intros fuel min Hmin Hfuel Hk.
  - destruct fuel as [|fuel]; [lia|]. cbn [length] in Hmin.
    replace min with 0 by lia. cbn [rep_loop app Nat.eqb negb]. rewrite Hz.
    reflexivity.
  - destruct fuel as [|fuel]; [lia|]. cbn [length app] in *.
    cbn [rep_loop dec_max]. rewrite clear_caps_nil.
    cbn [rmatch rest caps class_matches]. rewrite Hc. cbn [negb rest length].
    replace (length (x ++ rst) =? S (length (x ++ rst))) with false
      by (symmetry; apply Nat.eqb_neq; lia).
    rewrite andb_false_r.
    destruct min as [|min]; cbn [Nat.eqb negb pred].
    + assert (Hk0 : k (MState ((c :: x) ++ rst) cp) = None)
        by (apply (Hk [] (c :: x)); [reflexivity|discriminate|simpl; lia]).
      cbn [app] in Hk0. rewrite Hk0.
      apply IH; [lia|lia|]. intros x1 x2 -> Hx2 _.
      apply (Hk (c :: x1) x2); [reflexivity|exact Hx2|lia].
    + apply IH; [lia|lia|]. intros x1 x2 -> Hx2 Hl.
      apply (Hk (c :: x1) x2); [reflexivity|exact Hx2|simpl; lia].
Qed.

(** Where a span stands whose text holds neither the first unit of its
    marker nor a line break, its pattern matches it, and the group is the
    text between the markers. *)
Lemma match_here_span_ok n mk h mk' x post :
  lit mk = h :: mk' -> h ∉ x -> x <> [] ->
  Forall (fun c => is_line_terminator c = false) x ->
  match_here n (spanRegex mk) (lit mk ++ x ++ lit mk ++ post)
  = Some (MState post [(1, x)]).
Proof.
  intros Hmk Hx Hne Hterm. rewrite match_here_span.
  replace (startsWith (lit mk) (lit mk ++ x ++ lit mk ++ post)) with true
    by (symmetry; apply startsWith_spec; eauto).
  rewrite drop_app_length, rmatch_seq.
  cbn [rmatch lazy_plus group_ids rest caps].
  apply (rep_loop_lazy_dot n x (lit mk ++ post) []).
  - exact Hterm.
  - rewrite rmatch_rlit. cbn [rest caps].
    replace (startsWith (lit mk) (lit mk ++ post)) with true
      by (symmetry; apply startsWith_spec; eauto).
    rewrite drop_app_length. do 3 f_equal.
    rewrite !length_app.
    replace (length x + (length (lit mk) + length post)
             - (length (lit mk) + length post)) with (length x) by lia.
    rewrite take_app_length. reflexivity.
  - destruct x; [congruence|simpl; lia].
  - lia.
  - intros x1 x2 -> Hx2 _. rewrite rmatch_rlit. cbn [rest caps].
    destruct x2 as [|c x2]; [congruence|]. cbn [app].
    rewrite (startsWith_other_head _ _ _ _ _ Hmk); [reflexivity|].
    intros ->. apply Hx. apply elem_of_app. right. left.
Qed.

Lemma search_span_ok n mk h mk' pre x post :
  lit mk = h :: mk' -> h ∉ pre -> h ∉ x -> x <> [] ->
  Forall (fun c => is_line_terminator c = false) x ->
  search n (spanRegex mk) (pre ++ lit mk ++ x ++ lit mk ++ post)
  = Some (RxMatch (n - length (lit mk ++ x ++ lit mk ++ post))
            (lit mk ++ x ++ lit mk) [(1, x)]).
Proof.
  intros Hmk Hpre Hx Hne Hterm. induction pre as [|c pre IH].
  - cbn [app].
    destruct (lit mk ++ x ++ lit mk ++ post) as [|c0 t0] eqn:Es.
    { rewrite Hmk in Es. discriminate. }
    cbn [search]. rewrite <- Es, (match_here_span_ok _ _ _ _ _ _ Hmk Hx Hne Hterm).
    unfold mk_match. cbn [rest caps]. do 2 f_equal.
    rewrite !length_app.
    replace (length (lit mk) + (length x + (length (lit mk) + length post))
             - length post) with (length (lit mk ++ x ++ lit mk))
      by (rewrite !length_app; lia).
    replace (lit mk ++ x ++ lit mk ++ post)
      with ((lit mk ++ x ++ lit mk) ++ post)
      by (rewrite <- !app_assoc; reflexivity).
    apply take_app_length.
  - apply not_elem_of_cons in Hpre as [Hc Hpre]. cbn [app search].
    rewrite match_here_span, (startsWith_other_head _ _ _ _ _ Hmk) by congruence.
    apply IH, Hpre.
Qed.

Lemma exec_span_ok mk h mk' pre x post :
  lit mk = h :: mk' -> h ∉ pre -> h ∉ x -> x <> [] ->
  Forall (fun c => is_line_terminator c = false) x ->
  exec (spanRegex mk) (pre ++ lit mk ++ x ++ lit mk ++ post)
  = Some (RxMatch (length pre) (lit mk ++ x ++ lit mk) [(1, x)]).
Proof.
  intros Hmk Hpre Hx Hne Hterm. unfold exec.
  rewrite (search_span_ok _ _ _ _ _ _ _ Hmk Hpre Hx Hne Hterm).
  do 2 f_equal. rewrite (length_app pre). lia.
Qed.

Lemma createRunXml_empty bold italic code : createRunXml [] bold italic code = [].
Proof. reflexivity. Qed.

(** One round of the loop, once the scan has selected a match. *)
Lemma parseInline_round text pre p m x post :
  findEarliest patterns text = Earliest (length pre) (Some (p, m)) ->
  text = pre ++ matched m ++ post -> matched m <> [] ->
  capture 1 (groups m) = Some x ->
  parseInlineFormatting text
  = createRunXml pre false false false
    ++ createRunXml x (p_bold p) (p_italic p) (p_code p)
    ++ parseInlineFormatting post.
Proof.
  intros He Ht Hm Hx.
  pose proof (parseInlineFormatting_total text) as H.
  unfold parseInlineWith in H. cbn [parseInlineLoop] in H.
  assert (Hlen : length text = length pre + length (matched m) + length post)
    by (rewrite Ht, !length_app; lia).
  assert (Hpos : 0 < length (matched m)) by (destruct (matched m); [congruence|simpl; lia]).
  replace (0 <? length text) with true in H by (symmetry; apply Nat.ltb_lt; lia).
  cbn [negb] in H. rewrite He in H. cbn [found earliestPos] in H.
  rewrite Hx in H. cbn [default app] in H.
  replace (drop (length pre + length (matched m)) text) with post in H.
  2:{ rewrite Ht, app_assoc, <- length_app, drop_app_length. reflexivity. }
  rewrite parseInlineLoop_enough in H by lia.
  injection H as <-. rewrite <- app_assoc. f_equal.
  destruct pre as [|c pre]; [reflexivity|].
  cbn [length]. replace (0 <? S (length pre)) with true by reflexivity.
  rewrite Ht. change (S (length pre)) with (length (c :: pre)).
  rewrite take_app_length. reflexivity.
Qed.

Ltac no_match_at_marker :=
  cbn [app startsWith andb];
  repeat match goal with
         | |- context [N.eqb ?a ?a] => rewrite (N.eqb_refl a); cbn [andb]
         | |- context [N.eqb ?a ?b] =>
             destruct (N.eqb_spec a b) as [?|?]; [congruence|]; cbn [andb]
         end;
  reflexivity.

Section Span.

Variables (pre x post : jsstring).
Hypothesis pre_no_asterisk : asterisk ∉ pre.
Hypothesis pre_no_backtick : backtick ∉ pre.
Hypothesis x_no_asterisk : asterisk ∉ x.
Hypothesis x_no_backtick : backtick ∉ x.
Hypothesis x_not_empty : x <> [].
Hypothesis x_one_line : Forall (fun c => is_line_terminator c = false) x.

Let spanText (mk : string) := pre ++ lit mk ++ x ++ lit mk ++ post.
Let spanMatch (mk : string) :=
  RxMatch (length pre) (lit mk ++ x ++ lit mk) [(1, x)].

Lemma spanText_longer mk h mk' :
  lit mk = h :: mk' -> length pre < length (spanText mk).
Proof.
  intros Hmk. unfold spanText. rewrite !length_app, Hmk. cbn [length]. lia.
Qed.

Lemma span_lower mk0 h mk0' mk m :
  lit mk0 = h :: mk0' -> h ∉ pre ->
  exec (spanRegex mk0) (spanText mk) = Some m -> length pre <= index m.
Proof.
  intros Hmk Hpre H. eapply exec_span_lower in H as [H _]; eauto.
Qed.

Lemma span_above mk0 h mk0' mk m :
  lit mk0 = h :: mk0' -> h ∉ pre ->
  startsWith (lit mk0) (lit mk ++ x ++ lit mk ++ post) = false ->
  exec (spanRegex mk0) (spanText mk) = Some m -> length pre < index m.
Proof.
  intros Hmk Hpre Hs H. eapply exec_span_lower in H as [_ H]; eauto.
Qed.

Ltac keep_candidate :=
  let m := fresh "m" in
  let Hm := fresh "Hm" in
  intros m Hm; cbn [earliestPos];
  eapply span_lower in Hm; eauto; reflexivity.

Lemma x_head : exists c x', x = c :: x' /\ c <> asterisk /\ c <> backtick.
Proof.
  destruct x as [|c x'] eqn:E; [congruence|]. exists c, x'.
  split; [reflexivity|]. split; intros ->.
  - apply x_no_asterisk. left.
  - apply x_no_backtick. left.
Qed.

Lemma findEarliest_boldItalic :
  findEarliest patterns (spanText "***")
  = Earliest (length pre) (Some (boldItalicPattern, spanMatch "***")).
Proof.
  unfold findEarliest, patterns. cbn [fold_left].
  rewrite (tryPattern_take _ _ boldItalicPattern (spanMatch "***")).
  - cbn [index spanMatch].
    set (e := Earliest _ _).
    rewrite (tryPattern_keep _ e boldPattern) by keep_candidate.
    rewrite (tryPattern_keep _ e italicPattern) by keep_candidate.
    rewrite (tryPattern_keep _ e codePattern) by keep_candidate.
    reflexivity.
  - apply (exec_span_ok "***" asterisk (lit "**")); auto.
  - apply (spanText_longer "***" asterisk (lit "**")). reflexivity.
Qed.

Lemma findEarliest_bold :
  findEarliest patterns (spanText "**")
  = Earliest (length pre) (Some (boldPattern, spanMatch "**")).
Proof.
  destruct x_head as (c & x' & Ex & Hc1 & Hc2).
  unfold findEarliest, patterns. cbn [fold_left].
  rewrite (tryPattern_take _ _ boldPattern (spanMatch "**")).
  - cbn [index spanMatch].
    set (e := Earliest _ _).
    rewrite (tryPattern_keep _ e italicPattern) by keep_candidate.
    rewrite (tryPattern_keep _ e codePattern) by keep_candidate.
    reflexivity.
  - apply (exec_span_ok "**" asterisk (lit "*")); auto.
  - cbn [index spanMatch]. apply tryPattern_above.
    + apply (spanText_longer "**" asterisk (lit "*")). reflexivity.
    + intros m Hm.
      refine (span_above "***" asterisk (lit "**") "**" m eq_refl pre_no_asterisk _ Hm).
      rewrite Ex. change (lit "***") with [asterisk; asterisk; asterisk].
      change (lit "**") with [asterisk; asterisk]. no_match_at_marker.
Qed.

Lemma findEarliest_italic :
  findEarliest patterns (spanText "*")
  = Earliest (length pre) (Some (italicPattern, spanMatch "*")).
Proof.
  destruct x_head as (c & x' & Ex & Hc1 & Hc2).
  unfold findEarliest, patterns. cbn [fold_left].
  rewrite (tryPattern_take _ _ italicPattern (spanMatch "*")).
  - cbn [index spanMatch].
    set (e := Earliest _ _).
    rewrite (tryPattern_keep _ e codePattern) by keep_candidate.
    reflexivity.
  - apply (exec_span_ok "*" asterisk []); auto.
  - cbn [index spanMatch]. apply tryPattern_above; [apply tryPattern_above|].
    + apply (spanText_longer "*" asterisk []). reflexivity.
    + intros m Hm.
      refine (span_above "***" asterisk (lit "**") "*" m eq_refl pre_no_asterisk _ Hm).
      rewrite Ex. change (lit "***") with [asterisk; asterisk; asterisk].
      change (lit "*") with [asterisk]. no_match_at_marker.
    + intros m Hm.
      refine (span_above "**" asterisk (lit "*") "*" m eq_refl pre_no_asterisk _ Hm).
      rewrite Ex. change (lit "**") with [asterisk; asterisk].
      change (lit "*") with [asterisk]. no_match_at_marker.
Qed.

Lemma findEarliest_code :
  findEarliest patterns (spanText "`")
  = Earliest (length pre) (Some (codePattern, spanMatch "`")).
Proof.
  unfold findEarliest, patterns. cbn [fold_left].
  rewrite (tryPattern_take _ _ codePattern (spanMatch "`")).
  - reflexivity.
  - apply (exec_span_ok "`" backtick []); auto.
  - cbn [index spanMatch].
    apply tryPattern_above; [apply tryPattern_above; [apply tryPattern_above|]|].
    + apply (spanText_longer "`" backtick []). reflexivity.
    + intros m Hm.
      exact (span_above "***" asterisk (lit "**") "`" m eq_refl pre_no_asterisk
               eq_refl Hm).
    + intros m Hm.
      exact (span_above "**" asterisk (lit "*") "`" m eq_refl pre_no_asterisk
               eq_refl Hm).
    + intros m Hm.
      exact (span_above "*" asterisk [] "`" m eq_refl pre_no_asterisk eq_refl Hm).
Qed.

End Span.

End InlineSpans.

(** X5. A text without asterisk and backtick has no span: it is emitted as
    one plain run, whatever else it holds. *)
Theorem inline_plain_text (text : jsstring) :
  asterisk ∉ text -> backtick ∉ text ->
  parseInlineFormatting text = createRunXml text false false false.
Proof.
  intros Ha Hb. pose proof (parseInlineFormatting_total text) as H.
  unfold parseInlineWith in H. cbn [parseInlineLoop] in H.
  destruct text as [|c t]; [reflexivity|].
  change (negb (0 <? length (c :: t))) with false in H. cbv iota in H.
  assert (He : findEarliest patterns (c :: t) = Earliest (length (c :: t)) None).
  { unfold findEarliest, patterns. cbn [fold_left].
    set (e := Earliest _ _).
    assert (Hkeep : forall mk h mk' m,
               lit mk = h :: mk' -> h ∉ c :: t ->
               exec (spanRegex mk) (c :: t) = Some m -> earliestPos e <= index m).
    { intros mk h mk' m Hmk Hh Hm. rewrite <- (app_nil_r (c :: t)) in Hm.
      eapply exec_span_lower in Hm as [Hm _]; eauto. }
    rewrite (tryPattern_keep _ e boldItalicPattern)
      by (intros m; apply (Hkeep "***" asterisk (lit "**")); auto).
    rewrite (tryPattern_keep _ e boldPattern)
      by (intros m; apply (Hkeep "**" asterisk (lit "*")); auto).
    rewrite (tryPattern_keep _ e italicPattern)
      by (intros m; apply (Hkeep "*" asterisk []); auto).
    rewrite (tryPattern_keep _ e codePattern)
      by (intros m; apply (Hkeep "`" backtick []); auto).
    reflexivity. }
  rewrite He in H. cbn [found app] in H. injection H as <-. reflexivity.
Qed.

Lemma inline_plain_text_witness :
  parseInlineFormatting (lit "a < b & c") = createRunXml (lit "a < b & c") false false false.
Proof.
  apply (inline_plain_text (lit "a < b & c"));
    (vm_compute; intros H;
     repeat (apply elem_of_cons in H as [H|H]; [discriminate|]);
     apply elem_of_nil in H; exact H).
Defined.

(** X6. A span between two markers, after a text without asterisk and
    backtick: when the text of the span is not empty and holds no asterisk,
    no backtick and no line break, the parser emits the text before the
    span as a plain run, the text of the span as a run with the format of
    the marker, and goes on with what follows the closing marker. *)
Theorem inline_marked_span (pre x post : jsstring) :
  asterisk ∉ pre -> backtick ∉ pre ->
  asterisk ∉ x -> backtick ∉ x -> x <> [] ->
  Forall (fun c => is_line_terminator c = false) x ->
  parseInlineFormatting (pre ++ lit "***" ++ x ++ lit "***" ++ post)
  = createRunXml pre false false false ++ createRunXml x true true false
    ++ parseInlineFormatting post /\
  parseInlineFormatting (pre ++ lit "**" ++ x ++ lit "**" ++ post)
  = createRunXml pre false false false ++ createRunXml x true false false
    ++ parseInlineFormatting post /\
  parseInlineFormatting (pre ++ lit "*" ++ x ++ lit "*" ++ post)
  = createRunXml pre false false false ++ createRunXml x false true false
    ++ parseInlineFormatting post /\
  parseInlineFormatting (pre ++ lit "`" ++ x ++ lit "`" ++ post)
  = createRunXml pre false false false ++ createRunXml x false false true
    ++ parseInlineFormatting post.
Proof.
  intros H1 H2 H3 H4 H5 H6.
  split; [|split; [|split]].
  - apply (parseInline_round _ pre boldItalicPattern
             (RxMatch (length pre) (lit "***" ++ x ++ lit "***") [(1, x)]) x post).
    + apply findEarliest_boldItalic; assumption.
    + cbn [matched]. rewrite <- !app_assoc. reflexivity.
    + discriminate.
    + reflexivity.
  - apply (parseInline_round _ pre boldPattern
             (RxMatch (length pre) (lit "**" ++ x ++ lit "**") [(1, x)]) x post).
    + apply findEarliest_bold; assumption.
    + cbn [matched]. rewrite <- !app_assoc. reflexivity.
    + discriminate.
    + reflexivity.
  - apply (parseInline_round _ pre italicPattern
             (RxMatch (length pre) (lit "*" ++ x ++ lit "*") [(1, x)]) x post).
    + apply findEarliest_italic; assumption.
    + cbn [matched]. rewrite <- !app_assoc. reflexivity.
    + discriminate.
    + reflexivity.
  - apply (parseInline_round _ pre codePattern
             (RxMatch (length pre) (lit "`" ++ x ++ lit "`") [(1, x)]) x post).
    + apply findEarliest_code; assumption.
    + cbn [matched]. rewrite <- !app_assoc. reflexivity.
    + discriminate.
    + reflexivity.
Qed.

Lemma inline_marked_span_witness :
  parseInlineFormatting (lit "see " ++ lit "***" ++ lit "this" ++ lit "***" ++ lit " now")
  = createRunXml (lit "see ") false false false
    ++ createRunXml (lit "this") true true false
    ++ parseInlineFormatting (lit " now") /\
  parseInlineFormatting (lit "see " ++ lit "**" ++ lit "this" ++ lit "**" ++ lit " now")
  = createRunXml (lit "see ") false false false
    ++ createRunXml (lit "this") true false false
    ++ parseInlineFormatting (lit " now") /\
  parseInlineFormatting (lit "see " ++ lit "*" ++ lit "this" ++ lit "*" ++ lit " now")
  = createRunXml (lit "see ") false false false
    ++ createRunXml (lit "this") false true false
    ++ parseInlineFormatting (lit " now") /\
  parseInlineFormatting (lit "see " ++ lit "`" ++ lit "this" ++ lit "`" ++ lit " now")
  = createRunXml (lit "see ") false false false
    ++ createRunXml (lit "this") false false true
    ++ parseInlineFormatting (lit " now").
Proof.
  apply (inline_marked_span (lit "see ") (lit "this") (lit " now"));
    try discriminate;
    try (vm_compute; repeat constructor; fail);
    (vm_compute; intros H;
     repeat (apply elem_of_cons in H as [H|H]; [discriminate|]);
     apply elem_of_nil in H; exact H).
Defined.

(** *** Arrows in a diagram line *)

Section Arrows.

Lemma indexOf_unit a c t k :
  indexOf_from [a] (c :: t) k
  = if N.eqb a c then Some k else indexOf_from [a] t (S k).
Proof. cbn [indexOf_from startsWith]. rewrite andb_true_r. reflexivity. Qed.

Lemma indexOf_unit_none a s k : indexOf_from [a] s k = None <-> a ∉ s.
Proof.
  revert k. induction s as [|c t IH]; intros k.
  - cbn. split; [intros _; apply not_elem_of_nil|reflexivity].
  - rewrite indexOf_unit, not_elem_of_cons.
    destruct (N.eqb_spec a c) as [->|Hc].
    + split; [discriminate|]. intros [H _]. congruence.
    + rewrite IH. tauto.
Qed.

Lemma indexOf_unit_some a s k j :
  indexOf_from [a] s k = Some j ->
  exists i, j = k + i /\ s !! i = Some a /\ a ∉ take i s.
Proof.
  revert k. induction s as [|c t IH]; intros k; [discriminate|].
  rewrite indexOf_unit. destruct (N.eqb_spec a c) as [->|Hc].
  - intros [= <-]. exists 0. split; [lia|]. split; [reflexivity|].
    apply not_elem_of_nil.
  - intros H. apply IH in H as (i & -> & Hi & Hno). exists (S i).
    split; [lia|]. split; [exact Hi|]. cbn [take].
    apply not_elem_of_cons. auto.
Qed.

Lemma indexOf_unit_before a s k i :
  a ∈ take i s -> exists j, indexOf_from [a] s k = Some (k + j) /\ j < i.
Proof.
  revert k i. induction s as [|c t IH]; intros k i H.
  - rewrite take_nil in H. apply elem_of_nil in H. destruct H.
  - destruct i as [|i]; [apply elem_of_nil in H; destruct H|].
    cbn [take] in H. rewrite indexOf_unit.
    destruct (N.eqb_spec a c) as [->|Hc].
    + exists 0. split; [f_equal; lia|lia].
    + apply elem_of_cons in H as [H|H]; [congruence|].
      destruct (IH (S k) i H) as (j & Hj & Hlt). exists (S j).
      split; [rewrite Hj; f_equal; lia|lia].
Qed.

(** What the loop over [arrowChars] holds after the arrows [seen]. *)
Let arrowStep (line : jsstring) (acc : option (nat * char)) (arrow : char) :=
  match indexOf_opt [arrow] line with
  | Some idx =>
      match acc with
      | None => Some (idx, arrow)
      | Some (arrowIndex, _) => if idx <? arrowIndex then Some (idx, arrow) else acc
      end
  | None => acc
  end.

Let arrow_ok (line : jsstring) (seen : list char) (acc : option (nat * char)) :=
  match acc with
  | None => forall a, a ∈ seen -> a ∉ line
  | Some (i, c) =>
      c ∈ seen /\ indexOf_opt [c] line = Some i /\
      forall a j, a ∈ seen -> indexOf_opt [a] line = Some j -> i <= j
  end.

Lemma arrowStep_ok line seen acc a :
  arrow_ok line seen acc -> arrow_ok line (seen ++ [a]) (arrowStep line acc a).
Proof.
  unfold arrow_ok, arrowStep. intros H.
  destruct (indexOf_opt [a] line) as [idx|] eqn:Ea.
  - destruct acc as [[i c]|].
    + destruct H as (Hc & Hi & Hmin). destruct (idx <? i) eqn:Elt.
      * apply Nat.ltb_lt in Elt. split; [set_solver|]. split; [exact Ea|].
        intros a' j Ha' Hj. apply elem_of_app in Ha' as [Ha'|Ha'].
        -- pose proof (Hmin _ _ Ha' Hj). lia.
        -- apply list_elem_of_singleton in Ha'. subst a'. rewrite Ea in Hj.
           injection Hj as <-. lia.
      * apply Nat.ltb_ge in Elt. split; [set_solver|]. split; [exact Hi|].
        intros a' j Ha' Hj. apply elem_of_app in Ha' as [Ha'|Ha'].
        -- exact (Hmin _ _ Ha' Hj).
        -- apply list_elem_of_singleton in Ha'. subst a'. rewrite Ea in Hj.
           injection Hj as <-. lia.
    + split; [set_solver|]. split; [exact Ea|].
      intros a' j Ha' Hj. apply elem_of_app in Ha' as [Ha'|Ha'].
      * apply H in Ha'. apply indexOf_unit_none with (k := 0) in Ha'.
        unfold indexOf_opt in Hj. congruence.
      * apply list_elem_of_singleton in Ha'. subst a'. rewrite Ea in Hj.
        injection Hj as <-. lia.
  - apply indexOf_unit_none in Ea. destruct acc as [[i c]|].
    + destruct H as (Hc & Hi & Hmin). split; [set_solver|]. split; [exact Hi|].
      intros a' j Ha' Hj. apply elem_of_app in Ha' as [Ha'|Ha'].
      * exact (Hmin _ _ Ha' Hj).
      * apply list_elem_of_singleton in Ha'. subst a'.
        apply indexOf_unit_none with (k := 0) in Ea. unfold indexOf_opt in Hj.
        congruence.
    + intros a' Ha'. apply elem_of_app in Ha' as [Ha'|Ha'].
      * exact (H _ Ha').
      * apply list_elem_of_singleton in Ha'. subst a'. exact Ea.
Qed.

Lemma fold_arrow_ok line arrows :
  arrow_ok line arrows (fold_left (arrowStep line) arrows None).
Proof.
  induction arrows as [|a arrows IH] using rev_ind.
  - intros a Ha. apply elem_of_nil in Ha. destruct Ha.
  - rewrite fold_left_app. apply arrowStep_ok, IH.
Qed.

Lemma is_arrow_spec c : is_arrow c = true <-> c ∈ arrowChars.
Proof.
  unfold is_arrow. rewrite existsb_exists. split.
  - intros (a & Ha & E). apply N.eqb_eq in E. subst a.
    apply list_elem_of_In, Ha.
  - intros H. exists c. split; [apply list_elem_of_In, H|apply N.eqb_refl].
Qed.

Lemma findArrow_spec line :
  match findArrow line with
  | Some (i, c) =>
      is_arrow c = true /\ line !! i = Some c /\
      Forall (fun d => is_arrow d = false) (take i line)
  | None => Forall (fun d => is_arrow d = false) line
  end.
Proof.
  pose proof (fold_arrow_ok line arrowChars) as H.
  change (fold_left (arrowStep line) arrowChars None) with (findArrow line) in H.
  unfold arrow_ok in H. destruct (findArrow line) as [[i c]|].
  - destruct H as (Hc & Hi & Hmin). split; [apply is_arrow_spec, Hc|].
    apply indexOf_unit_some in Hi as (i' & -> & Hi & _). cbn [Nat.add].
    split; [exact Hi|]. apply Forall_forall. intros d Hd.
    destruct (is_arrow d) eqn:Ed; [|reflexivity]. exfalso.
    apply is_arrow_spec in Ed.
    destruct (indexOf_unit_before d line 0 i' Hd) as (j & Hj & Hlt).
    pose proof (Hmin d _ Ed Hj). lia.
  - apply Forall_forall. intros d Hd.
    destruct (is_arrow d) eqn:Ed; [|reflexivity]. exfalso.
    apply is_arrow_spec in Ed. exact (H d Ed Hd).
Qed.

(** X7. The scan for an arrow returns the leftmost arrow of the line: the
    unit at the index it returns is that arrow and no arrow stands before
    it; it returns nothing exactly when the line holds no arrow. *)
Theorem findArrow_leftmost (line : jsstring) :
  match findArrow line with
  | Some (i, c) =>
      is_arrow c = true /\ line = take i line ++ c :: drop (S i) line /\
      Forall (fun d => is_arrow d = false) (take i line)
  | None => Forall (fun d => is_arrow d = false) line
  end.
Proof.
  pose proof (findArrow_spec line) as H.
  destruct (findArrow line) as [[i c]|]; [|exact H].
  destruct H as (Hc & Hi & Hno). split; [exact Hc|]. split; [|exact Hno].
  symmetry. apply take_drop_middle, Hi.
Qed.

Lemma arrowRuns_plain p line buf :
  Forall (fun d => is_arrow d = false) p ->
  arrowRuns (p ++ line) buf = arrowRuns line (buf ++ p).
Proof.
  intros H. revert buf. induction H as [|c p Hc Hp IH]; intros buf.
  - rewrite app_nil_r. reflexivity.
  - cbn [app arrowRuns]. rewrite Hc, IH, <- app_assoc. reflexivity.
Qed.

Lemma arrowLoop_runs fuel line acc :
  length line <= fuel -> arrowLoop fuel line acc = acc ++ arrowRuns line [].
Proof.
  revert line acc. induction fuel as [|fuel IH]; intros line acc Hf.
  - destruct line; [|simpl in Hf; lia]. cbn. rewrite app_nil_r. reflexivity.
  - cbn [arrowLoop]. destruct line as [|c0 t0] eqn:El.
    { cbn. rewrite app_nil_r. reflexivity. }
    rewrite <- El in *. replace (0 <? length line) with true
      by (rewrite El; reflexivity).
    cbn [negb]. pose proof (findArrow_spec line) as H.
    destruct (findArrow line) as [[i c]|].
    + destruct H as (Hc & Hi & Hno).
      pose proof (lookup_lt_Some _ _ _ Hi) as Hlt.
      rewrite IH by (rewrite length_drop; lia).
      replace (arrowRuns line []) with (arrowRuns (take i line ++ c :: drop (S i) line) [])
        by (rewrite (take_drop_middle line i c Hi); reflexivity).
      rewrite (arrowRuns_plain _ _ _ Hno). cbn [app arrowRuns]. rewrite Hc.
      replace (i + 1) with (S i) by lia.
      destruct i as [|i].
      * rewrite take_0. cbn [Nat.ltb Nat.leb truthy app].
        rewrite <- !app_assoc. reflexivity.
      * replace (0 <? S i) with true by reflexivity.
        destruct (take (S i) line) as [|d p] eqn:Et.
        { apply (f_equal length) in Et. rewrite length_take in Et.
          cbn [length] in Et. lia. }
        cbn [truthy]. rewrite <- !app_assoc. reflexivity.
    + replace (arrowRuns line []) with (arrowRuns (line ++ []) [])
        by (rewrite app_nil_r; reflexivity).
      rewrite (arrowRuns_plain _ _ _ H). cbn [arrowRuns app].
      rewrite El. reflexivity.
Qed.

(** X8. The runs of a diagram line: the loop emits the line from left to
    right, every arrow as a red run of its own and the text between two
    arrows, before the first and after the last one, as one plain run
    each; its bound of [line.length] rounds is enough. *)
Theorem ascii_line_runs (line acc : jsstring) :
  arrowLoop (length line) line acc = acc ++ arrowRuns line [].
Proof. apply arrowLoop_runs. reflexivity. Qed.

End Arrows.

(** *** Lines of the Markdown text *)

Section Lines.

(** Passing over the lines of a block is dropping them. *)
Lemma markdownLoop_skip skip ls st :
  markdownLoop skip ls st = markdownLoop 0 (drop skip ls) st.
Proof.
  revert skip. induction ls as [|l ls IH]; intros skip.
  - rewrite drop_nil. destruct skip; reflexivity.
  - destruct skip as [|j]; [reflexivity|]. cbn [markdownLoop drop]. apply IH.
Qed.

(** X9. A diagram block takes in the longest run of following lines that
    are diagram lines or blank: the [break] inside the loop never cuts it
    shorter, and blank lines after a diagram belong to it. *)
Theorem collectAscii_longest_run (ls : list jsstring) :
  collectAscii ls = takeWhile diagramOrBlank ls /\
  ls = collectAscii ls ++ dropWhile diagramOrBlank ls /\
  Forall (fun l => diagramOrBlank l = true) (collectAscii ls) /\
  match dropWhile diagramOrBlank ls with
  | [] => True
  | l :: _ => diagramOrBlank l = false
  end.
Proof.
  assert (H : collectAscii ls = takeWhile diagramOrBlank ls).
  { induction ls as [|l ls IH]; [reflexivity|].
    cbn [collectAscii takeWhile]. fold (diagramOrBlank l).
    destruct (diagramOrBlank l); [|reflexivity]. f_equal.
    destruct ls as [|l2 ls]; [reflexivity|].
    rewrite IH. cbn [takeWhile]. unfold diagramOrBlank.
    destruct (isAsciiArt l2), (truthy (trim l2)); reflexivity. }
  split; [exact H|]. rewrite H. clear H. split; [|split].
  - induction ls as [|l ls IH]; cbn [takeWhile dropWhile]; [reflexivity|].
    destruct (diagramOrBlank l); [|reflexivity]. cbn [app]. f_equal. exact IH.
  - induction ls as [|l ls IH]; cbn [takeWhile]; [constructor|].
    destruct (diagramOrBlank l) eqn:E; constructor; auto.
  - induction ls as [|l ls IH]; cbn [dropWhile]; [exact I|].
    destruct (diagramOrBlank l) eqn:E; [exact IH|exact E].
Qed.

Lemma includes_unit c s : includes [c] s = true <-> c ∈ s.
Proof.
  unfold includes, indexOf_opt.
  destruct (indexOf_from [c] s 0) as [i|] eqn:E.
  - split; [|reflexivity]. intros _.
    destruct (decide (c ∈ s)) as [H|H]; [exact H|].
    apply (indexOf_unit_none c s 0) in H. congruence.
  - apply indexOf_unit_none in E. split; [discriminate|]. intros H. contradiction.
Qed.

Lemma rev_truthy (s : jsstring) : truthy (rev s) = truthy s.
Proof.
  destruct s as [|c s]; [reflexivity|]. cbn [rev truthy].
  destruct (rev s); reflexivity.
Qed.

Lemma trimStart_truthy c s :
  c ∈ s -> is_space c = false -> truthy (trimStart s) = true /\ c ∈ trimStart s.
Proof.
  intros Hc Hs. apply list_elem_of_split in Hc as (l1 & l2 & ->).
  rewrite (trimStart_app_nonspace _ _ _ Hs). split.
  - destruct (trimStart l1); reflexivity.
  - apply elem_of_app. right. left.
Qed.

(** A line with a unit that is not white space is not blank. *)
Lemma trim_truthy c s : c ∈ s -> is_space c = false -> truthy (trim s) = true.
Proof.
  intros Hc Hs. unfold trim, trimEnd. rewrite rev_truthy.
  destruct (trimStart_truthy c s Hc Hs) as [_ Hin].
  apply list_elem_of_In, in_rev, list_elem_of_In in Hin.
  apply (trimStart_truthy c _ Hin Hs).
Qed.

Lemma asciiArtChars_not_space : Forall (fun a => is_space a = false) asciiArtChars.
Proof. vm_compute. repeat constructor. Qed.

(** X10. A line that holds a box-drawing, shape, arrow or shading unit is a
    diagram line whatever Markdown it carries: unless it is a fence line
    or starts, trimmed, with a bar, the loop emits it as the first line of
    a diagram block, never as a heading, a quote, a list item or a
    paragraph. *)
Theorem diagram_unit_line (a : char) (line : jsstring) (ls : list jsstring)
    (st : mdstate) :
  a ∈ asciiArtChars -> a ∈ line ->
  inCodeBlock st = false ->
  startsWith fence (trim line) = false ->
  startsWith (lit "|") (trim line) = false ->
  isAsciiArt line = true /\
  markdownLoop 0 (line :: ls) st
  = markdownLoop 0 (drop (length (collectAscii ls)) ls)
      (emit st (createAsciiArtXml (join [nl] (line :: collectAscii ls)))).
Proof.
  intros Ha Hin Hcode Hfence Hbar.
  assert (Hart : isAsciiArt line = true).
  { unfold isAsciiArt. rewrite Hbar. cbn [andb].
    replace (existsb (fun c => includes [c] line) asciiArtChars) with true;
      [reflexivity|].
    symmetry. apply existsb_exists. exists a.
    split; [apply list_elem_of_In, Ha|apply includes_unit, Hin]. }
  split; [exact Hart|].
  assert (Hsp : is_space a = false).
  { pose proof asciiArtChars_not_space as H. rewrite Forall_forall in H. auto. }
  cbn [markdownLoop]. rewrite Hfence, Hcode, (trim_truthy a line Hin Hsp), Hbar, Hart.
  rewrite andb_false_r. cbn [negb]. apply markdownLoop_skip.
Qed.

Lemma diagram_unit_line_witness :
  isAsciiArt (lit "# A " ++ [8594%N] ++ lit " B") = true /\
  markdownLoop 0 [lit "# A " ++ [8594%N] ++ lit " B"] (MdState [] false [])
  = markdownLoop 0 (drop (length (collectAscii [])) [])
      (emit (MdState [] false [])
         (createAsciiArtXml
            (join [nl] ((lit "# A " ++ [8594%N] ++ lit " B") :: collectAscii [])))).
Proof.
  apply (diagram_unit_line 8594%N (lit "# A " ++ [8594%N] ++ lit " B") []
           (MdState [] false [])).
  - vm_compute. set_solver.
  - vm_compute. set_solver.
  - reflexivity.
  - vm_compute. reflexivity.
  - vm_compute. reflexivity.
Defined.

(** X11. Blank lines: a text whose lines are all blank gives one empty
    paragraph for each line. The empty text is one blank line, so it gives
    one empty paragraph, not the empty fragment. *)
Theorem blank_lines (l : jsstring) (ls : list jsstring) :
  Forall (fun l => trim l = [] /\ nl ∉ l) (l :: ls) ->
  markdownToWordXml (join [nl] (l :: ls))
  = concat (replicate (length (l :: ls)) emptyParagraphXml) /\
  markdownToWordXml [] = emptyParagraphXml.
Proof.
  intros H. split; [|reflexivity].
  unfold markdownToWordXml. rewrite split_join
    by (eapply Forall_impl; [exact H|]; intros ? [_ ?]; assumption).
  assert (Hloop : forall lines xmlOut,
             Forall (fun l => trim l = [] /\ nl ∉ l) lines ->
             markdownLoop 0 lines (MdState xmlOut false [])
             = xmlOut ++ concat (replicate (length lines) emptyParagraphXml)).
  { clear. intros lines. induction lines as [|l lines IH]; intros xmlOut H.
    - cbn. rewrite app_nil_r. reflexivity.
    - apply Forall_cons_1 in H as [[Hl _] H]. cbn [markdownLoop]. rewrite Hl.
      change (startsWith fence []) with false.
      cbn [inCodeBlock truthy negb]. unfold emit. cbn [out inCodeBlock codeLines].
      rewrite (IH _ H). cbn [length replicate concat].
      rewrite <- app_assoc. reflexivity. }
  rewrite (Hloop _ _ H). reflexivity.
Qed.

Lemma blank_lines_witness :
  markdownToWordXml (join [nl] [lit "  "; []])
  = concat (replicate (length [lit "  "; []]) emptyParagraphXml) /\
  markdownToWordXml [] = emptyParagraphXml.
Proof.
  apply (blank_lines (lit "  ") [[]]).
  repeat constructor; try (vm_compute; reflexivity);
    (vm_compute; intros H;
     repeat (apply elem_of_cons in H as [H|H]; [discriminate|]);
     apply elem_of_nil in H; exact H).
Defined.

(** X12. An opening fence that no fence line follows takes the rest of the
    text with it: whatever the lines after it hold, nothing more is
    emitted. *)
Theorem unclosed_fence_swallows (opening : jsstring) (content : list jsstring)
    (st : mdstate) :
  inCodeBlock st = false ->
  startsWith fence (trim opening) = true ->
  Forall (fun l => startsWith fence (trim l) = false) content ->
  markdownLoop 0 (opening :: content) st = out st.
Proof.
  intros Hcode Ho Hc. cbn [markdownLoop]. rewrite Ho, Hcode.
  rewrite <- (app_nil_r content), (markdownLoop_code_lines _ _ _ _ Hc).
  reflexivity.
Qed.

Lemma unclosed_fence_swallows_witness :
  markdownLoop 0 [lit "```js"; lit "# not a heading"; lit "| a | b |"]
    (MdState (lit "<w:p/>") false [])
  = out (MdState (lit "<w:p/>") false []).
Proof.
  apply (unclosed_fence_swallows (lit "```js")
           [lit "# not a heading"; lit "| a | b |"] (MdState (lit "<w:p/>") false [])).
  - reflexivity.
  - vm_compute. reflexivity.
  - repeat constructor; vm_compute; reflexivity.
Defined.

End Lines.

(** *** Patterns on the first units of a line *)

Section FirstUnits.

Lemma rejects_none n r c t cp k :
  rejects r c = true -> rmatch n r (MState (c :: t) cp) k = None.
Proof.
  revert cp k. induction r as [|cl|a IHa b IHb|greedy min max a IHa|i a IHa| |];
    intros cp k H; cbn [rejects] in H; try discriminate.
  - cbn [rmatch rest]. apply negb_true_iff in H. rewrite H. reflexivity.
  - rewrite rmatch_seq. apply IHa, H.
  - assert (Hmin : (0 <? min) = true /\ rejects a c = true).
    { destruct max as [[|m]|]; [discriminate| |]; apply andb_true_iff in H; exact H. }
    destruct Hmin as [Hmin Ha]. apply Nat.ltb_lt in Hmin.
    cbn [rmatch rest length]. cbn [rep_loop].
    replace (min =? 0) with false by (symmetry; apply Nat.eqb_neq; lia).
    cbn [negb andb]. unfold clear_caps. cbn [rest caps].
    destruct max as [[|m]|]; [discriminate| |]; apply IHa, Ha.
  - cbn [rmatch]. apply IHa, H.
Qed.

(** A greedy run that can stop where the class ends and go on from there
    does so. *)
Lemma greedy_class_reach cl min s cp k z :
  min <= count_class cl s ->
  k (MState (skip_class cl s) cp) = Some z ->
  greedy_class cl min s cp k = Some z.
Proof.
  revert min. induction s as [|c t IH]; intros min Hmin Hk;
    cbn [greedy_class count_class skip_class] in *.
  - replace min with 0 by lia. exact Hk.
  - destruct (class_matches cl c).
    + destruct min as [|min]; cbn [Nat.eqb pred].
      * rewrite (IH 0) by (try lia; exact Hk). reflexivity.
      * apply IH; [lia|exact Hk].
    + replace min with 0 by lia. exact Hk.
Qed.

(** A greedy run before a continuation that fails wherever the run can
    stop. *)
Lemma greedy_class_none cl min s cp k :
  (forall a b, s = a ++ b -> Forall (fun c => class_matches cl c = true) a ->
               k (MState b cp) = None) ->
  greedy_class cl min s cp k = None.
Proof.
  revert min. induction s as [|c t IH]; intros min Hk; cbn [greedy_class].
  - destruct (min =? 0); [|reflexivity]. apply (Hk [] []); [reflexivity|constructor].
  - assert (Hhere : k (MState (c :: t) cp) = None)
      by (apply (Hk [] (c :: t)); [reflexivity|constructor]).
    destruct (class_matches cl c) eqn:E.
    + assert (Htail : forall min', greedy_class cl min' t cp k = None).
      { intros min'. apply IH. intros a b -> Ha.
        apply (Hk (c :: a) b); [reflexivity|]. constructor; assumption. }
      rewrite !Htail. destruct (min =? 0); [exact Hhere|reflexivity].
    + destruct (min =? 0); [exact Hhere|reflexivity].
Qed.

(** A greedy run over units of the class that has to give the last one
    back. *)
Lemma greedy_class_last cl min s c cp k z :
  Forall (fun d => class_matches cl d = true) s -> class_matches cl c = true ->
  min <= length s ->
  k (MState [] cp) = None -> k (MState [c] cp) = Some z ->
  greedy_class cl min (s ++ [c]) cp k = Some z.
Proof.
  intros Hs Hc. revert min. induction Hs as [|d s Hd Hs IH]; intros min Hmin H0 H1;
    cbn [app greedy_class length] in *.
  - replace min with 0 by lia. rewrite Hc, H0. cbn [Nat.eqb]. exact H1.
  - rewrite Hd. destruct min as [|min]; cbn [Nat.eqb pred].
    + rewrite (IH 0) by (try lia; assumption). reflexivity.
    + apply IH; [lia|assumption|assumption].
Qed.

Lemma count_class_all cl s :
  Forall (fun d => class_matches cl d = true) s ->
  count_class cl s = length s /\ skip_class cl s = [].
Proof.
  induction 1 as [|d s Hd Hs [IH1 IH2]]; [split; reflexivity|].
  cbn [count_class skip_class length]. rewrite Hd, IH1, IH2. split; reflexivity.
Qed.

Lemma skip_class_app cl a b :
  Forall (fun d => class_matches cl d = true) a ->
  count_class cl (a ++ b) = length a + count_class cl b /\
  skip_class cl (a ++ b) = skip_class cl b.
Proof.
  induction 1 as [|d s Hd Hs [IH1 IH2]]; [split; reflexivity|].
  cbn [app count_class skip_class length]. rewrite Hd, IH1, IH2. split; reflexivity.
Qed.

Lemma class_space c : class_matches spaceClass c = is_space c.
Proof. cbn [class_matches spaceClass existsb item_matches]. apply orb_false_r. Qed.

Lemma class_digit c : class_matches digitClass c = is_digit c.
Proof. cbn [class_matches digitClass existsb item_matches]. apply orb_false_r. Qed.

(** An anchored pattern on a line whose first unit it rejects. *)
Lemma test_anchored_rejects r c t :
  rejects r c = true -> test (RSeq RBol r) (c :: t) = false.
Proof.
  intros H. unfold test. rewrite exec_anchored, rejects_none by exact H.
  reflexivity.
Qed.

(** An anchored pattern that starts with [\s*] on an indented line: the
    pattern rejects white space and the first unit after the
    indentation. *)
Lemma rmatch_ws_rejects n r ind c t :
  Forall (fun d => is_space d = true) ind ->
  is_space c = false -> rejects r c = true ->
  (forall d, is_space d = true -> rejects r d = true) ->
  rmatch n (RSeq (star ws) r) (MState (ind ++ c :: t) []) Some = None.
Proof.
  intros Hind Hns Hc Hsp. rewrite rmatch_seq. unfold star, ws, cls.
  rewrite rmatch_greedy_class. cbn [rest caps]. fold spaceClass.
  apply greedy_class_none. intros a b Hab Ha.
  assert (Ha' : Forall (fun d => is_space d = true) a).
  { eapply Forall_impl; [exact Ha|]. intros d Hd. rewrite <- class_space. exact Hd. }
  clear Ha. revert a Hab Ha'.
  induction Hind as [|s ind Hs Hind IH]; intros a Hab Ha.
  - destruct a as [|x a]; cbn [app] in Hab.
    + subst b. apply rejects_none, Hc.
    + exfalso. injection Hab as <- _. apply Forall_cons_1 in Ha as [Ha _]. congruence.
  - destruct a as [|x a]; cbn [app] in Hab.
    + subst b. apply rejects_none, Hsp, Hs.
    + injection Hab as _ Hab. apply Forall_cons_1 in Ha as [_ Ha].
      exact (IH _ Hab Ha).
Qed.

Lemma test_anchored_ws_rejects r ind c t :
  Forall (fun d => is_space d = true) ind ->
  is_space c = false -> rejects r c = true ->
  (forall d, is_space d = true -> rejects r d = true) ->
  test (RSeq RBol (RSeq (star ws) r)) (ind ++ c :: t) = false.
Proof.
  intros Hind Hns Hc Hsp. unfold test.
  rewrite exec_anchored, rmatch_ws_rejects by assumption. reflexivity.
Qed.

End FirstUnits.

(** *** Paragraphs, quotes, list items and rules *)

Section Blocks.

Lemma test_ws_rejects r c t :
  is_space c = false -> rejects r c = true ->
  test (RSeq RBol (RSeq (star ws) r)) (c :: t) = false.
Proof.
  intros Hns Hc. unfold test. rewrite exec_anchored, rmatch_seq.
  unfold star, ws, cls. rewrite rmatch_greedy_class.
  cbn [rest caps greedy_class class_matches existsb item_matches].
  rewrite Hns. cbn [orb Nat.eqb]. rewrite rejects_none by exact Hc. reflexivity.
Qed.

Lemma existsb_false {A} (f : A -> bool) l :
  Forall (fun x => f x = false) l -> existsb f l = false.
Proof.
  induction 1 as [|x l Hx Hl IH]; [reflexivity|].
  cbn [existsb]. rewrite Hx, IH. reflexivity.
Qed.

Lemma existsb_false_inv {A} (f : A -> bool) l :
  existsb f l = false -> Forall (fun x => f x = false) l.
Proof.
  induction l as [|x l IH]; [constructor|].
  cbn [existsb]. intros H. apply orb_false_iff in H as [Hx Hl].
  constructor; auto.
Qed.

Ltac solve_rejects :=
  unfold digit, one, cls, ncls, atleast, plus, c1, rng;
  cbn [rejects class_matches existsb item_matches Nat.ltb Nat.leb andb];
  repeat match goal with
         | H : N.eqb _ _ = false |- _ => rewrite H
         | H : is_digit _ = false |- _ => rewrite H
         end;
  reflexivity.

(** What the first unit of a line of text decides. *)
Lemma plain_start_tests c t :
  plain_start c = true -> (forall a, a ∈ asciiArtChars -> a ∉ c :: t) ->
  exists u, trim (c :: t) = c :: u /\
    startsWith fence (c :: u) = false /\
    startsWith (lit "|") (c :: u) = false /\
    startsWith (lit "#") (c :: u) = false /\
    startsWith (lit ">") (c :: u) = false /\
    isAsciiArt (c :: t) = false /\
    test orderedRegex (c :: t) = false /\
    test bulletRegex (c :: t) = false /\
    test ruleRegex (c :: u) = false.
Proof.
  intros Hp Hart. unfold plain_start in Hp.
  apply andb_true_iff in Hp as [Hp Hb]. apply andb_true_iff in Hp as [Hns Hnd].
  apply negb_true_iff in Hns, Hnd, Hb. apply existsb_false_inv in Hb.
  unfold blockStarters in Hb.
  repeat (let H := fresh "Hc" in apply Forall_cons_1 in Hb as [H Hb]).
  destruct (trim_head c t Hns) as [u Hu]. exists u. split; [exact Hu|].
  assert (Hfence : startsWith fence (c :: u) = false).
  { change fence with [ch "`"; ch "`"; ch "`"]. cbn [startsWith].
    rewrite N.eqb_sym, Hc. reflexivity. }
  assert (Hbar : startsWith (lit "|") (c :: u) = false).
  { change (lit "|") with [ch "|"]. cbn [startsWith].
    rewrite N.eqb_sym, Hc0. reflexivity. }
  assert (Hhash : startsWith (lit "#") (c :: u) = false).
  { change (lit "#") with [ch "#"]. cbn [startsWith].
    rewrite N.eqb_sym, Hc1. reflexivity. }
  assert (Hquote : startsWith (lit ">") (c :: u) = false).
  { change (lit ">") with [ch ">"]. cbn [startsWith].
    rewrite N.eqb_sym, Hc2. reflexivity. }
  repeat (split; [assumption|]).
  split; [|split; [|split]].
  - unfold isAsciiArt. rewrite Hu, Hbar. cbn [andb].
    rewrite existsb_false.
    2:{ apply Forall_forall. intros a Ha.
        destruct (includes [a] (c :: t)) eqn:E; [|reflexivity].
        apply includes_unit in E. exfalso. exact (Hart a Ha E). }
    apply existsb_false. unfold asciiPatterns.
    repeat (constructor;
            [cbn [rseq]; apply test_ws_rejects; [exact Hns|solve_rejects]|]).
    constructor.
  - unfold orderedRegex. cbn [rseq]. apply test_ws_rejects; [exact Hns|solve_rejects].
  - unfold bulletRegex. cbn [rseq]. apply test_ws_rejects; [exact Hns|solve_rejects].
  - unfold ruleRegex. cbn [rseq]. apply test_anchored_rejects. solve_rejects.
Qed.

(** X13. An ordinary line of text: a line that starts with a unit that
    opens no other block (no white space, digit, fence, bar, hash, quote
    mark, bullet or diagram start) and that holds no diagram unit is
    emitted as one Normal paragraph whose runs are those of the whole
    line. *)
Theorem paragraph_line (c : char) (t : jsstring) (ls : list jsstring)
    (st : mdstate) :
  plain_start c = true ->
  (forall a, a ∈ asciiArtChars -> a ∉ c :: t) ->
  inCodeBlock st = false ->
  isAsciiArt (c :: t) = false /\
  markdownLoop 0 ((c :: t) :: ls) st
  = markdownLoop 0 ls (emit st (createParagraphXml (c :: t))).
Proof.
  intros Hp Hart Hcode.
  destruct (plain_start_tests c t Hp Hart)
    as (u & Hu & Hfence & Hbar & Hhash & Hquote & Hascii & Hord & Hbul & Hrule).
  split; [exact Hascii|].
  cbn [markdownLoop]. rewrite Hu, Hfence, Hcode, Hbar, Hascii, Hhash, Hquote,
    Hord, Hbul, Hrule.
  cbn [truthy negb]. rewrite andb_false_r. reflexivity.
Qed.

Lemma paragraph_line_witness :
  isAsciiArt (lit "Hello, world") = false /\
  markdownLoop 0 [lit "Hello, world"] (MdState [] false [])
  = markdownLoop 0 [] (emit (MdState [] false []) (createParagraphXml (lit "Hello, world"))).
Proof.
  apply (paragraph_line (ch "H") (lit "ello, world") [] (MdState [] false [])).
  - vm_compute. reflexivity.
  - intros a Ha. vm_compute in Ha. vm_compute. intros H.
    repeat (apply elem_of_cons in H as [H|H];
            [subst a; repeat (apply elem_of_cons in Ha as [Ha|Ha]; [discriminate|]);
             apply elem_of_nil in Ha; exact Ha|]).
    apply elem_of_nil in H. exact H.
  - reflexivity.
Defined.

Lemma rmatch_unit n cl c t cp k :
  rmatch n (RChar cl) (MState (c :: t) cp) k
  = if class_matches cl c then k (MState t cp) else None.
Proof. reflexivity. Qed.

Lemma trim_trimStart s : trim (trimStart s) = trim s.
Proof. unfold trim. rewrite trimStart_idem. reflexivity. Qed.

Lemma trimStart_app_space ind s :
  Forall (fun d => is_space d = true) ind -> trimStart (ind ++ s) = trimStart s.
Proof.
  induction 1 as [|d ind Hd Hind IH]; [reflexivity|].
  cbn [app trimStart]. rewrite Hd. exact IH.
Qed.

Lemma trim_app_space ind s :
  Forall (fun d => is_space d = true) ind -> trim (ind ++ s) = trim s.
Proof. intros H. unfold trim. rewrite (trimStart_app_space _ _ H). reflexivity. Qed.

Lemma space_class_all ind :
  Forall (fun d => is_space d = true) ind ->
  Forall (fun d => class_matches spaceClass d = true) ind.
Proof.
  intros H. eapply Forall_impl; [exact H|]. intros d Hd.
  rewrite class_space. exact Hd.
Qed.

Lemma digit_class_all ds :
  Forall (fun d => is_digit d = true) ds ->
  Forall (fun d => class_matches digitClass d = true) ds.
Proof.
  intros H. eapply Forall_impl; [exact H|]. intros d Hd.
  rewrite class_digit. exact Hd.
Qed.

(** X14. A quote line: a line whose trimmed text starts with [>] and that
    the diagram rule does not take is emitted as one Quote paragraph. When
    the line itself starts with [>], the text of the quote is the rest of
    the line, trimmed; when the [>] is indented, the anchored pattern does
    not cut it off and the text is the trimmed line with its [>]. *)
Theorem quote_line (line : jsstring) (ls : list jsstring) (st : mdstate) :
  inCodeBlock st = false ->
  startsWith (lit ">") (trim line) = true ->
  isAsciiArt line = false ->
  markdownLoop 0 (line :: ls) st
  = markdownLoop 0 ls
      (emit st (createQuoteXml
                  (if startsWith (lit ">") line then trim (drop 1 line)
                   else trim line))).
Proof.
  intros Hcode Hq Hart.
  assert (Htext : trim (replace_re quoteRegex [] line)
                  = if startsWith (lit ">") line then trim (drop 1 line)
                    else trim line).
  { unfold quoteRegex. cbn [rseq]. rewrite replace_anchored_empty.
    rewrite rmatch_seq. destruct line as [|c t]; [reflexivity|].
    change (lit ">") with [gt].
    cbn [rmatch one rest caps class_matches existsb item_matches startsWith drop].
    rewrite orb_false_r, andb_true_r, (N.eqb_sym gt c).
    change (ch ">") with gt.
    destruct (N.eqb c gt); [|reflexivity].
    unfold star, ws, cls. rewrite rmatch_greedy_class, greedy_class_total by discriminate.
    cbn [Nat.leb rest caps]. fold spaceClass. rewrite skip_space_trimStart.
    apply trim_trimStart. }
  rewrite <- Htext. clear Htext.
  pose proof Hq as Hq'.
  apply startsWith_spec in Hq' as [u Hu]. change (lit ">" ++ u) with (gt :: u) in Hu.
  cbn [markdownLoop]. rewrite Hcode, Hart, Hq.
  rewrite Hu.
  change (startsWith fence (gt :: u)) with false.
  change (startsWith (lit "|") (gt :: u)) with false.
  change (startsWith (lit "#") (gt :: u)) with false.
  rewrite andb_false_r. reflexivity.
Qed.

Lemma quote_line_witness :
  markdownLoop 0 [lit "> so it goes"; lit "  > indented"] (MdState [] false [])
  = markdownLoop 0 [lit "  > indented"]
      (emit (MdState [] false [])
         (createQuoteXml
            (if startsWith (lit ">") (lit "> so it goes")
             then trim (drop 1 (lit "> so it goes"))
             else trim (lit "> so it goes")))).
Proof.
  apply (quote_line (lit "> so it goes") [lit "  > indented"] (MdState [] false [])).
  - reflexivity.
  - vm_compute. reflexivity.
  - vm_compute. reflexivity.
Defined.

Lemma digit_values d :
  is_digit d = true ->
  (d = 48 \/ d = 49 \/ d = 50 \/ d = 51 \/ d = 52 \/ d = 53 \/ d = 54 \/ d = 55
   \/ d = 56 \/ d = 57)%N.
Proof.
  unfold is_digit. intros H. apply andb_true_iff in H as [H1 H2].
  apply N.leb_le in H1, H2. lia.
Qed.

Lemma digit_not_space d : is_digit d = true -> is_space d = false.
Proof.
  intros H. apply digit_values in H.
  repeat (destruct H as [->|H]; [reflexivity|]). subst d. reflexivity.
Qed.

Lemma space_not_digit d : is_space d = true -> is_digit d = false.
Proof.
  intros H. destruct (is_digit d) eqn:E; [|reflexivity].
  apply digit_not_space in E. congruence.
Qed.

(** The pattern of an ordered item on a numbered line. *)
Lemma ordered_match n ind digits sp text :
  Forall (fun d => is_space d = true) ind ->
  digits <> [] -> Forall (fun d => is_digit d = true) digits ->
  sp <> [] -> Forall (fun d => is_space d = true) sp ->
  trimStart text = text ->
  rmatch n (RSeq (star ws) (RSeq (plus digit) (RSeq (one ".") (plus ws))))
    (MState (ind ++ digits ++ ch "." :: sp ++ text) []) Some
  = Some (MState text []).
Proof.
  intros Hind Hne Hdig Hsp Hspace Htext.
  destruct digits as [|d ds]; [congruence|].
  pose proof Hdig as Hd. apply Forall_cons_1 in Hd as [Hd _].
  rewrite rmatch_seq. unfold star, ws, cls. rewrite rmatch_greedy_class.
  fold spaceClass. cbn [rest caps]. apply greedy_class_reach; [lia|].
  rewrite (proj2 (skip_class_app _ _ _ (space_class_all _ Hind))).
  cbn [app skip_class]. rewrite class_space, (digit_not_space _ Hd).
  rewrite rmatch_seq. unfold plus, digit, cls. rewrite rmatch_greedy_class.
  fold digitClass. cbn [rest caps].
  change (d :: ds ++ ch "." :: sp ++ text) with ((d :: ds) ++ ch "." :: sp ++ text).
  apply greedy_class_reach.
  { rewrite (proj1 (skip_class_app _ _ _ (digit_class_all _ Hdig))).
    cbn [length]. lia. }
  rewrite (proj2 (skip_class_app _ _ _ (digit_class_all _ Hdig))).
  cbn [skip_class]. change (class_matches digitClass (ch ".")) with false.
  cbv iota. rewrite rmatch_seq. unfold one. rewrite rmatch_unit.
  change (class_matches (CIn [COne (ch ".")]) (ch ".")) with true. cbv iota beta.
  rewrite rmatch_greedy_class, greedy_class_total by discriminate.
  cbn [rest caps].
  rewrite (proj1 (skip_class_app _ _ _ (space_class_all _ Hspace))),
          (proj2 (skip_class_app _ _ _ (space_class_all _ Hspace))).
  destruct sp as [|s sp]; [congruence|]. cbn [length Nat.add Nat.leb].
  rewrite skip_space_trimStart, Htext. reflexivity.
Qed.

(** X15. An item of an ordered list: for a line made of an indentation, a
    number, a dot, white space and a text, the loop emits one ListNumber
    paragraph with the runs of the text. The number of the line is not
    used: the numbering is left to the template. *)
Theorem ordered_item_line (ind digits sp text : jsstring) (ls : list jsstring)
    (st : mdstate) :
  Forall (fun d => is_space d = true) ind ->
  digits <> [] -> Forall (fun d => is_digit d = true) digits ->
  sp <> [] -> Forall (fun d => is_space d = true) sp ->
  trimStart text = text ->
  inCodeBlock st = false ->
  isAsciiArt (ind ++ digits ++ ch "." :: sp ++ text) = false ->
  markdownLoop 0 ((ind ++ digits ++ ch "." :: sp ++ text) :: ls) st
  = markdownLoop 0 ls (emit st (createListItemXml text true)).
Proof.
  intros Hind Hne Hdig Hsp Hspace Htext Hcode Hart.
  pose proof (fun n => ordered_match n ind digits sp text Hind Hne Hdig Hsp Hspace Htext)
    as Hm.
  set (line := ind ++ digits ++ ch "." :: sp ++ text) in *.
  assert (Htrim : exists d u, trim line = d :: u /\ is_digit d = true).
  { unfold line. rewrite (trim_app_space _ _ Hind).
    destruct digits as [|d ds]; [congruence|].
    apply Forall_cons_1 in Hdig as [Hd _].
    destruct (trim_head d (ds ++ ch "." :: sp ++ text) (digit_not_space _ Hd))
      as [u Hu].
    exists d, u. split; [exact Hu|exact Hd]. }
  destruct Htrim as (d & u & Hu & Hd).
  assert (Htests : startsWith fence (d :: u) = false /\
                   startsWith (lit "|") (d :: u) = false /\
                   startsWith (lit "#") (d :: u) = false /\
                   startsWith (lit ">") (d :: u) = false).
  { apply digit_values in Hd.
    repeat (destruct Hd as [->|Hd]; [repeat split; reflexivity|]).
    subst d. repeat split; reflexivity. }
  destruct Htests as (Hfence & Hbar & Hhash & Hquote).
  cbn [markdownLoop]. rewrite Hu, Hfence, Hcode, Hbar, Hart, Hhash, Hquote.
  rewrite andb_false_r. cbn [truthy negb].
  unfold test, orderedRegex. cbn [rseq].
  rewrite exec_anchored, replace_anchored_empty, Hm. reflexivity.
Qed.

Lemma ordered_item_line_witness :
  markdownLoop 0 [lit "  12. second **step**"] (MdState [] false [])
  = markdownLoop 0 [] (emit (MdState [] false [])
                         (createListItemXml (lit "second **step**") true)).
Proof.
  apply (ordered_item_line (lit "  ") (lit "12") (lit " ") (lit "second **step**")
           [] (MdState [] false []));
    try (repeat constructor; fail); try discriminate; reflexivity.
Defined.

(** The pattern of a bullet on a bullet line. *)
Lemma bullet_match n ind m sp text :
  Forall (fun d => is_space d = true) ind ->
  m = ch "-" \/ m = ch "*" \/ m = ch "+" ->
  sp <> [] -> Forall (fun d => is_space d = true) sp ->
  trimStart text = text ->
  rmatch n (RSeq (star ws) (RSeq (cls [c1 "-"; c1 "*"; c1 "+"]) (plus ws)))
    (MState (ind ++ m :: sp ++ text) []) Some
  = Some (MState text []).
Proof.
  intros Hind Hm Hsp Hspace Htext.
  assert (Hns : is_space m = false)
    by (destruct Hm as [->|[->| ->]]; reflexivity).
  rewrite rmatch_seq. unfold star, ws. unfold cls at 1.
  rewrite rmatch_greedy_class.
  fold spaceClass. cbn [rest caps]. apply greedy_class_reach; [lia|].
  rewrite (proj2 (skip_class_app _ _ _ (space_class_all _ Hind))).
  cbn [skip_class]. rewrite class_space, Hns.
  rewrite rmatch_seq. unfold cls at 1. rewrite rmatch_unit.
  replace (class_matches (CIn [c1 "-"; c1 "*"; c1 "+"]) m) with true
    by (destruct Hm as [->|[->| ->]]; reflexivity).
  cbv iota beta.
  unfold plus, cls. rewrite rmatch_greedy_class, greedy_class_total by discriminate.
  cbn [rest caps]. fold spaceClass.
  rewrite (proj1 (skip_class_app _ _ _ (space_class_all _ Hspace))),
          (proj2 (skip_class_app _ _ _ (space_class_all _ Hspace))).
  destruct sp as [|s sp]; [congruence|]. cbn [length Nat.add Nat.leb].
  rewrite skip_space_trimStart, Htext. reflexivity.
Qed.

(** X16. An item of a bullet list: for a line made of an indentation, one
    of the bullets [-], [*] and [+], white space and a text, the loop
    emits one ListBullet paragraph with the runs of the text. *)
Theorem bullet_item_line (ind : jsstring) (m : char) (sp text : jsstring)
    (ls : list jsstring) (st : mdstate) :
  Forall (fun d => is_space d = true) ind ->
  m = ch "-" \/ m = ch "*" \/ m = ch "+" ->
  sp <> [] -> Forall (fun d => is_space d = true) sp ->
  trimStart text = text ->
  inCodeBlock st = false ->
  isAsciiArt (ind ++ m :: sp ++ text) = false ->
  markdownLoop 0 ((ind ++ m :: sp ++ text) :: ls) st
  = markdownLoop 0 ls (emit st (createListItemXml text false)).
Proof.
  intros Hind Hm Hsp Hspace Htext Hcode Hart.
  pose proof (fun n => bullet_match n ind m sp text Hind Hm Hsp Hspace Htext) as Hmatch.
  assert (Hns : is_space m = false)
    by (destruct Hm as [->|[->| ->]]; reflexivity).
  assert (Hord : test orderedRegex (ind ++ m :: sp ++ text) = false).
  { unfold orderedRegex. cbn [rseq].
    apply test_anchored_ws_rejects; [exact Hind|exact Hns| |].
    - destruct Hm as [->|[->| ->]]; reflexivity.
    - intros d Hd. unfold plus, digit, cls.
      cbn [rejects class_matches existsb item_matches Nat.ltb Nat.leb andb].
      rewrite (space_not_digit _ Hd). reflexivity. }
  set (line := ind ++ m :: sp ++ text) in *.
  assert (Htrim : exists u, trim line = m :: u).
  { unfold line. rewrite (trim_app_space _ _ Hind). apply trim_head, Hns. }
  destruct Htrim as (u & Hu).
  assert (Htests : startsWith fence (m :: u) = false /\
                   startsWith (lit "|") (m :: u) = false /\
                   startsWith (lit "#") (m :: u) = false /\
                   startsWith (lit ">") (m :: u) = false).
  { destruct Hm as [->|[->| ->]]; repeat split; reflexivity. }
  destruct Htests as (Hfence & Hbar & Hhash & Hquote).
  cbn [markdownLoop]. rewrite Hu, Hfence, Hcode, Hbar, Hart, Hhash, Hquote, Hord.
  rewrite andb_false_r. cbn [truthy negb].
  unfold test, bulletRegex. cbn [rseq].
  rewrite exec_anchored, replace_anchored_empty, Hmatch. reflexivity.
Qed.

Lemma bullet_item_line_witness :
  markdownLoop 0 [lit "* milk"] (MdState [] false [])
  = markdownLoop 0 [] (emit (MdState [] false []) (createListItemXml (lit "milk") false)).
Proof.
  apply (bullet_item_line [] (ch "*") (lit " ") (lit "milk") [] (MdState [] false []));
    try discriminate; try reflexivity; try (right; left; reflexivity);
    repeat constructor.
Defined.

(** The branch of the horizontal rule. *)
Lemma rule_branch line ls st :
  inCodeBlock st = false ->
  startsWith fence (trim line) = false -> truthy (trim line) = true ->
  startsWith (lit "|") (trim line) = false -> isAsciiArt line = false ->
  startsWith (lit "#") (trim line) = false ->
  startsWith (lit ">") (trim line) = false ->
  test orderedRegex line = false -> test bulletRegex line = false ->
  test ruleRegex (trim line) = true ->
  markdownLoop 0 (line :: ls) st = markdownLoop 0 ls (emit st createHorizontalRuleXml).
Proof.
  intros H1 H2 H3 H4 H5 H6 H7 H8 H9 H10. cbn [markdownLoop].
  rewrite H1, H2, H3, H4, H5, H6, H7, H8, H9, H10, andb_false_r. reflexivity.
Qed.

(** The branch of the diagram. *)
Lemma diagram_branch line ls st :
  inCodeBlock st = false ->
  startsWith fence (trim line) = false -> truthy (trim line) = true ->
  startsWith (lit "|") (trim line) = false -> isAsciiArt line = true ->
  markdownLoop 0 (line :: ls) st
  = markdownLoop 0 (drop (length (collectAscii ls)) ls)
      (emit st (createAsciiArtXml (join [nl] (line :: collectAscii ls)))).
Proof.
  intros H1 H2 H3 H4 H5. cbn [markdownLoop].
  rewrite H1, H2, H3, H4, H5, andb_false_r. cbn [negb]. apply markdownLoop_skip.
Qed.

Lemma isAsciiArt_pattern line p :
  startsWith (lit "|") (trim line) = false ->
  In p asciiPatterns -> test p line = true -> isAsciiArt line = true.
Proof.
  intros Hbar Hp Ht. unfold isAsciiArt. rewrite Hbar. cbn [andb].
  destruct (existsb _ asciiArtChars); [reflexivity|].
  apply existsb_exists. exists p. auto.
Qed.

Lemma replicate_all {A} (P : A -> Prop) n x : P x -> Forall P (replicate n x).
Proof. intros H. induction n; cbn [replicate]; constructor; auto. Qed.

Lemma replicate_snoc {A} n (x : A) : replicate (S n) x = replicate n x ++ [x].
Proof. induction n as [|n IH]; [reflexivity|]. cbn [replicate app] in *. rewrite <- IH. reflexivity. Qed.

(** A line of five or more dashes or underscores matches the third
    diagram pattern, [/^\s*[-=_]{5,}$/]. *)
Lemma long_rule_is_diagram n c :
  5 <= n -> c = ch "-" \/ c = ch "_" ->
  test (rseq [RBol; star ws; atleast 5 (cls [c1 "-"; c1 "="; c1 "_"]); REol])
    (replicate n c) = true.
Proof.
  intros Hn Hc. unfold test. cbn [rseq]. rewrite exec_anchored.
  replace (rmatch (length (replicate n c))
             (RSeq (star ws) (RSeq (atleast 5 (cls [c1 "-"; c1 "="; c1 "_"])) REol))
             (MState (replicate n c) []) Some)
    with (Some (MState [] [])); [reflexivity|].
  symmetry. rewrite rmatch_seq. unfold star, ws. unfold cls at 1.
  rewrite rmatch_greedy_class. fold spaceClass. cbn [rest caps].
  assert (Hns : is_space c = false) by (destruct Hc as [->| ->]; reflexivity).
  apply greedy_class_reach; [lia|].
  destruct n as [|n]; [lia|]. cbn [replicate skip_class].
  rewrite class_space, Hns. change (c :: replicate n c) with (replicate (S n) c).
  rewrite rmatch_seq. unfold atleast, cls. rewrite rmatch_greedy_class.
  cbn [rest caps].
  assert (Hall : Forall (fun d => class_matches (CIn [c1 "-"; c1 "="; c1 "_"]) d = true)
                   (replicate (S n) c)).
  { apply replicate_all. destruct Hc as [->| ->]; reflexivity. }
  apply greedy_class_reach.
  - rewrite (proj1 (count_class_all _ _ Hall)), length_replicate. lia.
  - rewrite (proj2 (count_class_all _ _ Hall)). reflexivity.
Qed.

(** A line of three or more asterisks matches the last diagram pattern,
    [/^\s*\*[-=\*]+\*/]. *)
Lemma asterisks_are_diagram n :
  3 <= n ->
  test (rseq [RBol; star ws; one "*"; plus (cls [c1 "-"; c1 "="; c1 "*"]); one "*"])
    (replicate n (ch "*")) = true.
Proof.
  intros Hn. unfold test. cbn [rseq]. rewrite exec_anchored.
  replace (rmatch (length (replicate n (ch "*")))
             (RSeq (star ws)
                (RSeq (one "*") (RSeq (plus (cls [c1 "-"; c1 "="; c1 "*"])) (one "*"))))
             (MState (replicate n (ch "*")) []) Some)
    with (Some (MState [] [])); [reflexivity|].
  symmetry. rewrite rmatch_seq. unfold star, ws. unfold cls at 1.
  rewrite rmatch_greedy_class. fold spaceClass. cbn [rest caps].
  apply greedy_class_reach; [lia|].
  destruct n as [|[|n]]; [lia|lia|]. cbn [replicate skip_class].
  rewrite class_space. change (is_space (ch "*")) with false. cbv iota.
  rewrite rmatch_seq. unfold one at 1. rewrite rmatch_unit.
  change (class_matches (CIn [COne (ch "*")]) (ch "*")) with true. cbv iota beta.
  change (ch "*" :: replicate n (ch "*")) with (replicate (S n) (ch "*")).
  rewrite replicate_snoc, rmatch_seq. unfold plus, cls.
  rewrite rmatch_greedy_class. cbn [rest caps].
  apply greedy_class_last.
  - apply replicate_all. reflexivity.
  - reflexivity.
  - rewrite length_replicate. lia.
  - reflexivity.
  - reflexivity.
Qed.

(** X17. Lines of dashes, underscores and asterisks. A line of three or
    four dashes or underscores is a horizontal rule. A line of five or
    more of them is taken by the diagram rule, which comes first, and so
    is every line of three or more asterisks: neither is ever a
    horizontal rule. *)
Theorem rule_lines (n : nat) (ls : list jsstring) (st : mdstate) :
  inCodeBlock st = false -> 3 <= n ->
  let diagram := fun line =>
    markdownLoop 0 (drop (length (collectAscii ls)) ls)
      (emit st (createAsciiArtXml (join [nl] (line :: collectAscii ls)))) in
  (forall c, c = ch "-" \/ c = ch "_" ->
     markdownLoop 0 (replicate n c :: ls) st
     = if n <? 5 then markdownLoop 0 ls (emit st createHorizontalRuleXml)
       else diagram (replicate n c)) /\
  markdownLoop 0 (replicate n (ch "*") :: ls) st = diagram (replicate n (ch "*")).
Proof.
  intros Hcode Hn diagram. unfold diagram.
  assert (Hhead : forall c m, is_space c = false ->
             exists u, trim (replicate (S m) c) = c :: u).
  { intros c m Hc. apply trim_head, Hc. }
  split.
  - intros c Hc. destruct (n <? 5) eqn:E.
    + apply Nat.ltb_lt in E.
      assert (Hn' : n = 3 \/ n = 4) by lia.
      destruct Hn' as [-> | ->], Hc as [-> | ->];
        apply rule_branch; try exact Hcode; vm_compute; reflexivity.
    + apply Nat.ltb_ge in E.
      assert (Hns : is_space c = false) by (destruct Hc as [->| ->]; reflexivity).
      destruct n as [|m]; [lia|]. destruct (Hhead c m Hns) as [u Hu].
      assert (Hbar : startsWith (lit "|") (trim (replicate (S m) c)) = false).
      { rewrite Hu. destruct Hc as [->| ->]; reflexivity. }
      apply diagram_branch; try assumption.
      * rewrite Hu. destruct Hc as [->| ->]; reflexivity.
      * rewrite Hu. reflexivity.
      * eapply isAsciiArt_pattern; [exact Hbar| |apply long_rule_is_diagram; assumption].
        unfold asciiPatterns. right. right. left. reflexivity.
  - destruct n as [|m]; [lia|]. destruct (Hhead (ch "*") m eq_refl) as [u Hu].
    assert (Hbar : startsWith (lit "|") (trim (replicate (S m) (ch "*"))) = false).
    { rewrite Hu. reflexivity. }
    apply diagram_branch; try assumption.
    + rewrite Hu. reflexivity.
    + rewrite Hu. reflexivity.
    + eapply isAsciiArt_pattern; [exact Hbar| |apply asterisks_are_diagram; assumption].
      unfold asciiPatterns. do 11 right. left. reflexivity.
Qed.

Lemma rule_lines_witness :
  (forall c, c = ch "-" \/ c = ch "_" ->
     markdownLoop 0 (replicate 3 c :: []) (MdState [] false [])
     = if 3 <? 5
       then markdownLoop 0 [] (emit (MdState [] false []) createHorizontalRuleXml)
       else markdownLoop 0 (drop (length (collectAscii [])) [])
              (emit (MdState [] false [])
                 (createAsciiArtXml (join [nl] (replicate 3 c :: collectAscii []))))) /\
  markdownLoop 0 (replicate 3 (ch "*") :: []) (MdState [] false [])
  = markdownLoop 0 (drop (length (collectAscii [])) [])
      (emit (MdState [] false [])
         (createAsciiArtXml (join [nl] (replicate 3 (ch "*") :: collectAscii [])))).
Proof.
  apply (rule_lines 3 [] (MdState [] false [])); [reflexivity|lia].
Defined.

End Blocks.

(** *** Table blocks and separator lines *)

Section TableBlocks.

Lemma greedy_class_sound cl min s cp k z :
  greedy_class cl min s cp k = Some z ->
  exists a b, s = a ++ b /\ Forall (fun c => class_matches cl c = true) a /\
              min <= length a /\ k (MState b cp) = Some z.
Proof.
  revert min. induction s as [|c t IH]; intros min; cbn [greedy_class].
  - destruct (min =? 0) eqn:E; [|discriminate]. apply Nat.eqb_eq in E. subst min.
    intros H. exists [], []. repeat split; [constructor|simpl; lia|exact H].
  - assert (Hhere : min = 0 -> k (MState (c :: t) cp) = Some z ->
              exists a b, c :: t = a ++ b /\
                Forall (fun c => class_matches cl c = true) a /\
                min <= length a /\ k (MState b cp) = Some z).
    { intros -> H. exists [], (c :: t). repeat split; [constructor|simpl; lia|exact H]. }
    assert (Htail : forall min', min' = pred min -> class_matches cl c = true ->
              greedy_class cl min' t cp k = Some z ->
              exists a b, c :: t = a ++ b /\
                Forall (fun c => class_matches cl c = true) a /\
                min <= length a /\ k (MState b cp) = Some z).
    { intros min' -> Hc H. apply IH in H as (a & b & -> & Ha & Hl & Hk).
      exists (c :: a), b. repeat split; [constructor; assumption|simpl; lia|exact Hk]. }
    destruct (class_matches cl c) eqn:Ec.
    + destruct (min =? 0) eqn:E.
      * apply Nat.eqb_eq in E. subst min.
        destruct (greedy_class cl 0 t cp k) as [z'|] eqn:Eg.
        -- intros [= <-]. apply (Htail 0); auto.
        -- apply Hhere. reflexivity.
      * apply Htail; reflexivity.
    + destruct (min =? 0) eqn:E; [|discriminate].
      apply Nat.eqb_eq in E. apply Hhere, E.
Qed.

Lemma greedy_class_complete cl a b cp k :
  Forall (fun c => class_matches cl c = true) a ->
  k (MState b cp) <> None ->
  forall min, min <= length a -> greedy_class cl min (a ++ b) cp k <> None.
Proof.
  intros Ha Hk. induction Ha as [|c a Hc Ha IH]; intros min Hmin.
  - cbn [length] in Hmin. replace min with 0 by lia. cbn [app].
    destruct b as [|c t]; cbn [greedy_class Nat.eqb]; [exact Hk|].
    destruct (class_matches cl c); [|exact Hk].
    destruct (greedy_class cl 0 t cp k); [discriminate|exact Hk].
  - cbn [app greedy_class length] in *. rewrite Hc.
    destruct min as [|min]; cbn [Nat.eqb pred].
    + specialize (IH 0 ltac:(lia)).
      destruct (greedy_class cl 0 (a ++ b) cp k); [discriminate|congruence].
    + apply IH. lia.
Qed.

Lemma rmatch_unit_inv n cl s cp k z :
  rmatch n (RChar cl) (MState s cp) k = Some z ->
  exists c t, s = c :: t /\ class_matches cl c = true /\ k (MState t cp) = Some z.
Proof.
  cbn [rmatch rest caps]. destruct s as [|c t]; [discriminate|].
  destruct (class_matches cl c) eqn:E; [|discriminate]. eauto.
Qed.

Lemma class_one c d : class_matches (CIn [COne c]) d = N.eqb d c.
Proof. cbn [class_matches existsb item_matches]. apply orb_false_r. Qed.

Lemma class_separator c :
  class_matches separatorClass c = true <->
  is_space c = true \/ c = ch "-" \/ c = ch ":".
Proof.
  cbn [class_matches separatorClass existsb item_matches c1].
  rewrite orb_false_r, !orb_true_iff, !N.eqb_eq. tauto.
Qed.

(** What the separator pattern comes to after its anchor. *)
Lemma separator_match line :
  test separatorRegex line
  = match greedy_class spaceClass 0 line []
            (fun y => rmatch (length line)
               (RSeq (one "|")
                  (RSeq (plus (cls [CSpace; c1 "-"; c1 ":"]))
                     (RSeq (one "|") (RSeq (star ws) REol)))) y Some) with
    | Some _ => true
    | None => false
    end.
Proof.
  unfold test, separatorRegex. cbn [rseq]. rewrite exec_anchored, rmatch_seq.
  unfold star at 1, ws at 1, cls at 1. rewrite rmatch_greedy_class.
  cbn [rest caps]. fold spaceClass.
  destruct (greedy_class spaceClass 0 line [] _); reflexivity.
Qed.

(** X18. The lines that [createTableXml] skips as separators are the lines
    with exactly two bars: white space, a bar, one or more units of white
    space, [-] and [:], a bar, white space. A separator of a table with
    two or more columns, such as [|---|---|], has more bars: it is not
    skipped and becomes a row of the table. *)
Theorem separator_line_shape (line : jsstring) :
  (test separatorRegex line = true <->
   exists a body b,
     line = a ++ ch "|" :: body ++ ch "|" :: b /\
     Forall (fun c => is_space c = true) a /\
     body <> [] /\
     Forall (fun c => is_space c = true \/ c = ch "-" \/ c = ch ":") body /\
     Forall (fun c => is_space c = true) b) /\
  test separatorRegex (lit "|---|---|") = false /\
  tableRows [lit "| a | b |"; lit "|---|---|"] []
  = [[lit "a"; lit "b"]; [lit "---"; lit "---"]].
Proof.
  split; [|split; vm_compute; reflexivity].
  rewrite separator_match. split.
  - destruct (greedy_class spaceClass 0 line [] _) as [z|] eqn:E; [|discriminate].
    intros _. apply greedy_class_sound in E as (a & s1 & -> & Ha & _ & E).
    rewrite rmatch_seq in E. unfold one at 1 in E.
    apply rmatch_unit_inv in E as (c & s2 & -> & Hc & E).
    rewrite class_one in Hc. apply N.eqb_eq in Hc. subst c.
    rewrite rmatch_seq in E. unfold plus, cls in E.
    rewrite rmatch_greedy_class in E. cbn [rest caps] in E.
    apply greedy_class_sound in E as (body & s3 & -> & Hbody & Hlen & E).
    rewrite rmatch_seq in E. unfold one at 1 in E.
    apply rmatch_unit_inv in E as (c & s4 & -> & Hc & E).
    rewrite class_one in Hc. apply N.eqb_eq in Hc. subst c.
    rewrite rmatch_seq in E. unfold star, ws, cls in E.
    rewrite rmatch_greedy_class in E. cbn [rest caps] in E.
    apply greedy_class_sound in E as (b & s5 & -> & Hb & _ & E).
    cbn [rmatch rest] in E. destruct s5; [|discriminate].
    exists a, body, b. rewrite app_nil_r. split; [reflexivity|].
    split; [eapply Forall_impl; [exact Ha|]; intros c Hc; rewrite <- class_space; exact Hc|].
    split; [destruct body; [simpl in Hlen; lia|discriminate]|].
    split; [eapply Forall_impl; [exact Hbody|]; intros c Hc;
            apply class_separator; exact Hc|].
    eapply Forall_impl; [exact Hb|]. intros c Hc. rewrite <- class_space. exact Hc.
  - intros (a & body & b & -> & Ha & Hne & Hbody & Hb).
    destruct (greedy_class spaceClass 0 _ [] _) as [z|] eqn:E; [reflexivity|].
    exfalso. revert E. apply greedy_class_complete; [apply space_class_all, Ha| |simpl; lia].
    rewrite rmatch_seq. unfold one at 1. rewrite rmatch_unit, class_one, N.eqb_refl.
    cbv beta. rewrite rmatch_seq. unfold plus, cls. rewrite rmatch_greedy_class.
    cbn [rest caps]. fold separatorClass.
    apply greedy_class_complete.
    + eapply Forall_impl; [exact Hbody|]. intros c Hc. apply class_separator, Hc.
    + rewrite rmatch_seq. unfold one at 1. rewrite rmatch_unit, class_one, N.eqb_refl.
      cbv beta. rewrite rmatch_seq. unfold star, ws, cls.
      rewrite rmatch_greedy_class. cbn [rest caps]. fold spaceClass.
      rewrite <- (app_nil_r b).
      apply greedy_class_complete; [apply space_class_all, Hb| |simpl; lia].
      discriminate.
    + destruct body; [congruence|simpl; lia].
Qed.

Lemma trimStart_sub c s : c ∈ trimStart s -> c ∈ s.
Proof.
  induction s as [|x s IH]; cbn [trimStart]; [auto|].
  destruct (is_space x); [|auto]. intros H. right. auto.
Qed.

Lemma trim_sub c s : c ∈ trim s -> c ∈ s.
Proof.
  unfold trim, trimEnd. intros H.
  apply list_elem_of_In, in_rev, list_elem_of_In, trimStart_sub in H.
  apply list_elem_of_In, in_rev, list_elem_of_In in H.
  apply trimStart_sub, H.
Qed.

Lemma collectTable_takeWhile ls :
  collectTable ls = takeWhile hasBar ls /\
  drop (length (collectTable ls)) ls = dropWhile hasBar ls.
Proof.
  induction ls as [|l ls [IH1 IH2]]; [split; reflexivity|].
  cbn [collectTable takeWhile dropWhile]. fold (hasBar l).
  destruct (hasBar l); [|split; reflexivity].
  cbn [length drop]. split; [f_equal; exact IH1|exact IH2].
Qed.

(** X19. A table block: a line whose trimmed text starts with a bar opens
    a table, and the table takes in every directly following line that
    holds a bar anywhere, whatever else the line is (a paragraph with a
    bar in it, a fence line with a bar). The loop goes on with the first
    line without a bar. *)
Theorem table_block (line : jsstring) (ls : list jsstring) (st : mdstate) :
  inCodeBlock st = false ->
  startsWith (lit "|") (trim line) = true ->
  markdownLoop 0 (line :: ls) st
  = markdownLoop 0 (dropWhile hasBar ls)
      (emit st (createTableXml (line :: takeWhile hasBar ls))).
Proof.
  intros Hcode Hbar. pose proof Hbar as Hbar'.
  apply startsWith_spec in Hbar' as [u Hu].
  change (lit "|" ++ u) with (ch "|" :: u) in Hu.
  assert (Hin : includes (lit "|") line = true).
  { change (lit "|") with [ch "|"]. apply includes_unit, trim_sub.
    rewrite Hu. left. }
  destruct (collectTable_takeWhile ls) as [H1 H2].
  cbn [markdownLoop]. rewrite Hcode, Hin, Hbar, Hu.
  change (startsWith fence (ch "|" :: u)) with false.
  cbn [truthy negb andb]. rewrite markdownLoop_skip, H2, H1. reflexivity.
Qed.

Lemma table_block_witness :
  markdownLoop 0 [lit "| a | b |"; lit "see a | b"; lit "end"] (MdState [] false [])
  = markdownLoop 0 (dropWhile hasBar [lit "see a | b"; lit "end"])
      (emit (MdState [] false [])
         (createTableXml (lit "| a | b |" :: takeWhile hasBar [lit "see a | b"; lit "end"]))).
Proof.
  apply (table_block (lit "| a | b |") [lit "see a | b"; lit "end"] (MdState [] false [])).
  - reflexivity.
  - vm_compute. reflexivity.
Defined.

End TableBlocks.

(** *** The splice at its edges *)

Section SpliceEdges.

Variables (documentXml newContentXml : jsstring).

Let matches := matchAll sectionBreakRegex documentXml.

(** When the fallback branch is taken. *)
Lemma splice_fallback (p : Z) :
  matches <> [] -> (p <= 0)%Z \/ (Z.of_nat (length matches) < p - 1)%Z ->
  insertContentAfterPage documentXml newContentXml p
  = replace_str bodyClose (newContentXml ++ bodyClose) documentXml.
Proof.
  intros Hk Hp. unfold insertContentAfterPage. fold matches.
  replace ((p - 1 <=? Z.of_nat (length matches))%Z && (0 <? p - 1)%Z) with false.
  2:{ symmetry. apply andb_false_iff. destruct Hp as [Hp|Hp].
      - right. apply Z.ltb_ge. lia.
      - left. apply Z.leb_gt. lia. }
  replace ((p =? 1)%Z) with false by (symmetry; apply Z.eqb_neq; lia).
  replace (length matches =? 0) with false.
  2:{ symmetry. apply Nat.eqb_neq. destruct matches; [congruence|simpl; lia]. }
  reflexivity.
Qed.

Lemma dollar_notin_bodyClose : dollar ∉ bodyClose.
Proof.
  vm_compute. intros H.
  repeat (apply elem_of_cons in H as [H|H]; [discriminate|]).
  apply elem_of_nil in H. exact H.
Qed.

Lemma replace_str_plain pat tpl s i :
  dollar ∉ tpl -> indexOf_opt pat s = Some i ->
  exists pre post, s = pre ++ pat ++ post /\ i = length pre /\
    replace_str pat tpl s = pre ++ tpl ++ post.
Proof.
  intros Htpl Hi. destruct (indexOf_opt_spec _ _ _ Hi) as (pre & post & Hs & ->).
  exists pre, post. split; [exact Hs|]. split; [reflexivity|].
  unfold replace_str. rewrite Hi, getSubstitution_plain by exact Htpl.
  rewrite Hs at 1 2. rewrite take_app_length.
  rewrite (app_assoc pre pat post), <- length_app, drop_app_length. reflexivity.
Qed.

End SpliceEdges.

(** X20. A document that lacks one of the two body tags. Without
    [<w:body>], for page 1 or without any section boundary, [indexOf]
    returns -1 and the fragment is inserted after the first seven code
    units of the document, whatever they are. Without [</w:body>], when
    the document has section boundaries and the start page is beyond them
    or not positive, the fallback finds nothing to replace and returns
    the document as it is: the fragment is lost without an error. *)
Theorem splice_missing_body_tags (documentXml newContentXml : jsstring) (p : Z) :
  let k := length (matchAll sectionBreakRegex documentXml) in
  (indexOf_opt bodyOpen documentXml = None ->
   p = 1%Z \/ k = 0 ->
   insertContentAfterPage documentXml newContentXml p
   = take 7 documentXml ++ newContentXml ++ drop 7 documentXml) /\
  (indexOf_opt bodyClose documentXml = None ->
   k <> 0 -> (p <= 0)%Z \/ (Z.of_nat k < p - 1)%Z ->
   insertContentAfterPage documentXml newContentXml p = documentXml).
Proof.
  intros k. split.
  - intros Hi Hp. unfold insertContentAfterPage. fold k.
    replace ((p - 1 <=? Z.of_nat k)%Z && (0 <? p - 1)%Z) with false.
    2:{ symmetry. apply andb_false_iff. destruct Hp as [-> | ->].
        - right. reflexivity.
        - destruct (Z.ltb_spec 0 (p - 1)); [|right; reflexivity].
          left. apply Z.leb_gt. simpl. lia. }
    replace ((p =? 1)%Z || (k =? 0)) with true.
    2:{ symmetry. apply orb_true_iff.
        destruct Hp as [-> | ->]; [left|right]; reflexivity. }
    unfold indexOf. rewrite Hi. reflexivity.
  - intros Hi Hk Hp. rewrite splice_fallback; [| |exact Hp].
    + unfold replace_str. rewrite Hi. reflexivity.
    + intros H. apply Hk. unfold k. rewrite H. reflexivity.
Qed.

(** X21. A start page of 0 or less, in a document with section boundaries:
    the fragment (here one without [$]) goes in right before the first
    [</w:body>], at the end of the body, while start page 1 puts it at the
    start. *)
Theorem splice_page_not_positive (documentXml newContentXml : jsstring) (p : Z)
    (i : nat) :
  (p <= 0)%Z ->
  matchAll sectionBreakRegex documentXml <> [] ->
  dollar ∉ newContentXml ->
  indexOf_opt bodyClose documentXml = Some i ->
  exists pre post,
    documentXml = pre ++ bodyClose ++ post /\ i = length pre /\
    insertContentAfterPage documentXml newContentXml p
    = pre ++ newContentXml ++ bodyClose ++ post.
Proof.
  intros Hp Hk Hfrag Hi. rewrite splice_fallback by auto.
  destruct (replace_str_plain bodyClose (newContentXml ++ bodyClose) documentXml i)
    as (pre & post & Hdoc & Hlen & Hr); [|exact Hi|].
  { rewrite elem_of_app. intros [H|H]; [exact (Hfrag H)|].
    exact (dollar_notin_bodyClose H). }
  exists pre, post. split; [exact Hdoc|]. split; [exact Hlen|].
  rewrite Hr, <- app_assoc. reflexivity.
Qed.

Lemma splice_page_not_positive_witness :
  exists pre post,
    lit "<w:body><w:sectPr></w:sectPr></w:body>" = pre ++ bodyClose ++ post /\
    29 = length pre /\
    insertContentAfterPage (lit "<w:body><w:sectPr></w:sectPr></w:body>")
      (lit "<w:p/>") 0
    = pre ++ lit "<w:p/>" ++ bodyClose ++ post.
Proof.
  apply (splice_page_not_positive (lit "<w:body><w:sectPr></w:sectPr></w:body>")
           (lit "<w:p/>") 0 29).
  - lia.
  - vm_compute. discriminate.
  - vm_compute. intros H.
    repeat (apply elem_of_cons in H as [H|H]; [discriminate|]).
    apply elem_of_nil in H. exact H.
  - vm_compute. reflexivity.
Defined.

(** X22. The splice keeps the template: for a fragment without [$], the
    result is the document with the fragment inserted at one place,
    nothing of the document removed or reordered, or it is the document
    itself. This holds for every document and every start page. *)
Theorem splice_keeps_template (documentXml newContentXml : jsstring) (p : Z) :
  dollar ∉ newContentXml ->
  insertContentAfterPage documentXml newContentXml p = documentXml \/
  exists pre post,
    documentXml = pre ++ post /\
    insertContentAfterPage documentXml newContentXml p
    = pre ++ newContentXml ++ post.
Proof.
  intros Hfrag. unfold insertContentAfterPage.
  set (matches := matchAll sectionBreakRegex documentXml).
  destruct ((p - 1 <=? Z.of_nat (length matches))%Z && (0 <? p - 1)%Z).
  { destruct (matches !! Z.to_nat (p - 1 - 1)) as [m|]; [|left; reflexivity].
    right. eexists _, _. split; [|reflexivity]. symmetry. apply take_drop. }
  destruct ((p =? 1)%Z || (length matches =? 0)).
  { right. unfold slice_to, slice_from, indexOf.
    replace ((match indexOf_opt bodyOpen documentXml with
              | Some i => Z.of_nat i
              | None => -1
              end + 8 <? 0)%Z) with false.
    2:{ symmetry. apply Z.ltb_ge. destruct (indexOf_opt bodyOpen documentXml); lia. }
    eexists _, _. split; [|reflexivity]. symmetry. apply take_drop. }
  destruct (indexOf_opt bodyClose documentXml) as [i|] eqn:Hi.
  - right.
    destruct (replace_str_plain bodyClose (newContentXml ++ bodyClose) documentXml i)
      as (pre & post & Hdoc & Hlen & Hr); [|exact Hi|].
    { rewrite elem_of_app. intros [H|H]; [exact (Hfrag H)|].
      exact (dollar_notin_bodyClose H). }
    exists pre, (bodyClose ++ post). split; [exact Hdoc|].
    rewrite Hr, <- app_assoc. reflexivity.
  - left. unfold replace_str. rewrite Hi. reflexivity.
Qed.

Lemma splice_keeps_template_witness :
  insertContentAfterPage (lit "<w:body><w:p/></w:body>") (lit "<w:p>new</w:p>") 3
  = lit "<w:body><w:p/></w:body>" \/
  exists pre post,
    lit "<w:body><w:p/></w:body>" = pre ++ post /\
    insertContentAfterPage (lit "<w:body><w:p/></w:body>") (lit "<w:p>new</w:p>") 3
    = pre ++ lit "<w:p>new</w:p>" ++ post.
Proof.
  apply (splice_keeps_template (lit "<w:body><w:p/></w:body>") (lit "<w:p>new</w:p>") 3).
  vm_compute. intros H.
  repeat (apply elem_of_cons in H as [H|H]; [discriminate|]).
  apply elem_of_nil in H. exact H.
Defined.

Lemma splice_missing_body_tags_witness :
  insertContentAfterPage (lit "<w:document><w:p/></w:document>") (lit "<w:p>new</w:p>") 1
  = take 7 (lit "<w:document><w:p/></w:document>") ++ lit "<w:p>new</w:p>"
    ++ drop 7 (lit "<w:document><w:p/></w:document>") /\
  insertContentAfterPage (lit "<w:p/><w:sectPr></w:sectPr>") (lit "<w:p>new</w:p>") 3
  = lit "<w:p/><w:sectPr></w:sectPr>".
Proof.
  split.
  - apply (proj1 (splice_missing_body_tags (lit "<w:document><w:p/></w:document>")
                    (lit "<w:p>new</w:p>") 1)).
    + vm_compute. reflexivity.
    + left. reflexivity.
  - apply (proj2 (splice_missing_body_tags (lit "<w:p/><w:sectPr></w:sectPr>")
                    (lit "<w:p>new</w:p>") 3)).
    + vm_compute. reflexivity.
    + vm_compute. discriminate.
    + right. vm_compute. reflexivity.
Defined.

(** *** What the page-size patch leaves in the document *)

Section PatchedElements.

(** The element that the patch writes, now also without [<] in its
    attributes. *)
Variable new : jsstring.
Hypothesis new_clean :
  exists nbody,
    new = pgSzOpen ++ nbody ++ [slash; gt] /\ (gt ∉ nbody) /\ (lt ∉ nbody).

Lemma new_clean_shape :
  exists nbody, new = pgSzOpen ++ nbody ++ [slash; gt] /\ gt ∉ nbody.
Proof. destruct new_clean as (nbody & H1 & H2 & _). eauto. Qed.

Lemma Tag_unique s r r' : Tag s r -> Tag s r' -> r = r'.
Proof.
  intros (b & -> & Hb) (b' & H & Hb').
  assert (H' : (pgSzOpen ++ b ++ [slash]) ++ gt :: r
               = (pgSzOpen ++ b' ++ [slash]) ++ gt :: r').
  { rewrite <- !app_assoc. exact H. }
  apply first_gt_unique in H' as [_ ?]; [assumption| |];
    rewrite !not_elem_of_app_iff; auto using gt_notin_pgSzOpen, gt_notin_slash.
Qed.

Lemma suffix_app_cases {A} (t a b : list A) :
  t `suffix_of` a ++ b ->
  t `suffix_of` b \/ exists a1 a2, a = a1 ++ a2 /\ a2 <> [] /\ t = a2 ++ b.
Proof.
  intros [k Hk]. destruct (decide (length a <= length k)) as [Hle|Hgt].
  - left. apply app_eq_split in Hk as (g & -> & ->); [|exact Hle]. exists g. reflexivity.
  - right. symmetry in Hk. apply app_eq_split in Hk as (g & -> & ->); [|lia].
    exists k, g. split; [reflexivity|]. split; [|reflexivity].
    intros ->. rewrite app_nil_r in Hgt. lia.
Qed.

Lemma lt_notin_new_tail : exists tl, new = lt :: tl /\ lt ∉ tl.
Proof.
  destruct new_clean as (nbody & -> & Hgt & Hlt).
  exists (pgSzTail ++ nbody ++ [slash; gt]). split; [reflexivity|].
  rewrite !not_elem_of_app_iff. split; [exact lt_notin_pgSzTail|].
  split; [exact Hlt|].
  vm_compute. intros H.
  repeat (apply elem_of_cons in H as [H|H]; [discriminate|]).
  apply elem_of_nil in H. exact H.
Qed.

(** In a document that rewriting leaves as it is, every page-size
    element is the element that the patch writes. *)
Lemma fixed_elements n s :
  rewriteAll new n s = s ->
  forall t r, t `suffix_of` s -> Tag t r -> t = new ++ r.
Proof.
  remember (length s) as len eqn:Hlen. revert s Hlen.
  induction len as [len IH] using lt_wf_ind. intros s Hlen Hfix t r Hsuf Ht.
  destruct s as [|c s'].
  { apply suffix_nil_inv in Hsuf. subst t. destruct Ht as (b & H & _).
    destruct b; discriminate. }
  destruct (match_here n pgSzRegex (c :: s')) as [y|] eqn:E.
  - apply pgSz_match in E as [Hy _].
    rewrite (rewriteAll_tag new _ _ _ Hy) in Hfix.
    pose proof (Tag_new new new_clean_shape (rewriteAll new n (rest y))) as Hn.
    rewrite Hfix in Hn. pose proof (Tag_unique _ _ _ Hy Hn) as Hry.
    assert (Hs : c :: s' = new ++ rest y) by (rewrite <- Hfix, <- Hry; reflexivity).
    rewrite Hs in Hsuf.
    apply suffix_app_cases in Hsuf as [Hsuf|(a1 & a2 & Hnew & Ha2 & ->)].
    + apply (IH (length (rest y))) with (s := rest y); auto.
      subst len. apply Tag_shorter in Hy. exact Hy.
    + destruct a1 as [|x a1].
      * cbn [app] in Hnew. subst a2. f_equal.
        eapply Tag_unique; [|exact Ht]. apply (Tag_new new new_clean_shape).
      * exfalso. destruct lt_notin_new_tail as (tl & Htl & Hno).
        rewrite Htl in Hnew. cbn [app] in Hnew. injection Hnew as _ ->.
        destruct Ht as (b & Hb & _). rewrite pgSzOpen_cons in Hb.
        destruct a2 as [|z a2]; [congruence|]. cbn [app] in Hb.
        injection Hb as -> _. apply Hno. apply elem_of_app. right. left.
  - pose proof (proj1 (pgSz_no_match _ _) E) as E'.
    rewrite (rewriteAll_no_tag new _ _ _ E') in Hfix. injection Hfix as Hfix.
    apply suffix_cons_case in Hsuf as [-> | Hsuf]; [exfalso; exact (E' _ Ht)|].
    apply (IH (length s')) with (s := s'); auto. subst len. simpl. lia.
Qed.

Lemma patch_elements documentXml t r :
  t `suffix_of` patch new documentXml -> Tag t r -> t = new ++ r.
Proof.
  unfold patch, replaceAll_fn.
  fold (rewriteAll new (length documentXml) documentXml).
  destruct (test pgSzRegex documentXml) eqn:E; cbn [negb].
  - apply (fixed_elements 0). apply (rewriteAll_idem new new_clean_shape).
  - apply test_pgSz_false in E.
    rewrite (rewriteAll_no_tags new _ _ E).
    fold (appendAll new (length documentXml) documentXml).
    apply (fixed_elements 0).
    apply (rewriteAll_appendAll new new_clean_shape), E.
Qed.

End PatchedElements.

Lemma lt_notin_number n : lt ∉ N_to_js n.
Proof.
  intros H. pose proof (dec_digits_digits (S (N.to_nat (N.log2 n))) n []
                          (Forall_nil_2 _)) as Hd.
  rewrite Forall_forall in Hd. specialize (Hd _ H). vm_compute in Hd. discriminate.
Qed.

Lemma lt_notin_dim d : lt ∉ dim_to_js d.
Proof.
  destruct d as [n|]; [apply lt_notin_number|].
  vm_compute. intros H.
  repeat (apply elem_of_cons in H as [H|H]; [discriminate|]).
  apply elem_of_nil in H. exact H.
Qed.

Lemma pgSzElement_clean ps :
  gt ∉ orientation ps -> lt ∉ orientation ps ->
  exists nbody,
    pgSzElement ps = pgSzOpen ++ nbody ++ [slash; gt] /\ (gt ∉ nbody) /\ (lt ∉ nbody).
Proof.
  intros Hg Hl. unfold pgSzElement. destruct (pageDimensions ps) as [width height].
  exists (xml " w:w='" ++ dim_to_js width ++ xml "' w:h='" ++ dim_to_js height
          ++ xml "' w:orient='" ++ orientation ps ++ [dquote]).
  split; [|split].
  - change (xml "<w:pgSz w:w='") with (pgSzOpen ++ xml " w:w='").
    change (xml "'/>") with ([dquote] ++ [slash; gt]).
    rewrite <- !app_assoc. reflexivity.
  - rewrite !not_elem_of_app_iff.
    repeat split; try apply gt_notin_dim; try exact Hg;
      (vm_compute; intros H;
       repeat (apply elem_of_cons in H as [H|H]; [discriminate|]);
       apply elem_of_nil in H; exact H).
  - rewrite !not_elem_of_app_iff.
    repeat split; try apply lt_notin_dim; try exact Hl;
      (vm_compute; intros H;
       repeat (apply elem_of_cons in H as [H|H]; [discriminate|]);
       apply elem_of_nil in H; exact H).
Qed.

(** X23. After the patch, every self-closing page-size element of the
    document is the element of the settings: wherever [<w:pgSz], units
    other than [>] and [/>] stand in the result, they are the element that
    [setPageSize] writes, with the requested width, height and
    orientation. The orientation string holds neither [<] nor [>]. *)
Theorem setPageSize_all_elements (ps : pageSettings) (documentXml t r : jsstring) :
  gt ∉ orientation ps -> lt ∉ orientation ps ->
  t `suffix_of` setPageSize ps documentXml -> Tag t r ->
  t = pgSzElement ps ++ r.
Proof.
  intros Hg Hl. exact (patch_elements (pgSzElement ps) (pgSzElement_clean ps Hg Hl)
                         documentXml t r).
Qed.

Lemma setPageSize_all_elements_witness :
  xml "<w:pgSz w:w='11906' w:h='8391' w:orient='landscape'/></w:sectPr>"
  = pgSzElement (PageSettings (lit "a5") (lit "landscape")) ++ xml "</w:sectPr>".
Proof.
  apply (setPageSize_all_elements (PageSettings (lit "a5") (lit "landscape"))
           (xml "<w:sectPr><w:pgSz w:w='1' w:h='2'/></w:sectPr>")).
  - vm_compute. intros H.
    repeat (apply elem_of_cons in H as [H|H]; [discriminate|]).
    apply elem_of_nil in H. exact H.
  - vm_compute. intros H.
    repeat (apply elem_of_cons in H as [H|H]; [discriminate|]).
    apply elem_of_nil in H. exact H.
  - exists (xml "<w:sectPr>"). vm_compute. reflexivity.
  - exists (xml " w:w='11906' w:h='8391' w:orient='landscape'").
    split; [vm_compute; reflexivity|].
    vm_compute. intros H.
    repeat (apply elem_of_cons in H as [H|H]; [discriminate|]).
    apply elem_of_nil in H. exact H.
Defined.

(** X24. Nothing to patch: a document in which neither the pattern of a
    page-size element nor the pattern of an opening [<w:sectPr ...>] tag
    matches is returned as it is, and the settings are dropped without an
    error. *)
Theorem setPageSize_nothing_to_patch (ps : pageSettings) (documentXml : jsstring) :
  test pgSzRegex documentXml = false ->
  test sectPrRegex documentXml = false ->
  setPageSize ps documentXml = documentXml.
Proof.
  intros H1 H2.
  assert (Hnone : forall r f, test r documentXml = false ->
                     replaceAll_fn r f documentXml = documentXml).
  { intros r f H. unfold replaceAll_fn. apply replaceAll_no_match.
    apply search_none_iff. unfold test, exec in H.
    destruct (search (length documentXml) r documentXml); [discriminate|reflexivity]. }
  unfold setPageSize. rewrite H1. cbn [negb].
  rewrite (Hnone pgSzRegex) by exact H1. apply Hnone, H2.
Qed.

Lemma setPageSize_nothing_to_patch_witness :
  setPageSize (PageSettings (lit "a3") (lit "portrait"))
    (lit "<w:document><w:body><w:p/></w:body></w:document>")
  = lit "<w:document><w:body><w:p/></w:body></w:document>".
Proof.
  apply (setPageSize_nothing_to_patch (PageSettings (lit "a3") (lit "portrait"))
           (lit "<w:document><w:body><w:p/></w:body></w:document>"));
    vm_compute; reflexivity.
Defined.

(** *** The runs of a header cell *)

Section HeaderRuns.

Lemma createRunXml_styled text bold italic code :
  text <> [] ->
  createRunXml text bold italic code = styledRunXml [] (Run text bold italic code).
Proof.
  intros H. unfold createRunXml, styledRunXml, runProps. cbn [run_text run_bold run_italic run_code].
  destruct text as [|c t]; [congruence|]. cbn [truthy negb].
  destruct bold, italic, code; rewrite ?app_nil_l, ?app_nil_r, <- ?app_assoc; reflexivity.
Qed.

Lemma createRunXml_runs text bold italic code :
  exists runs,
    Forall (fun r => run_text r <> []) runs /\
    createRunXml text bold italic code = concat (map (styledRunXml []) runs).
Proof.
  destruct text as [|c t].
  - exists []. split; [constructor|reflexivity].
  - exists [Run (c :: t) bold italic code]. split; [repeat constructor; discriminate|].
    rewrite createRunXml_styled by discriminate. cbn [map concat].
    rewrite app_nil_r. reflexivity.
Qed.

(** What the loop of [parseInlineFormatting] emits is a sequence of
    runs. *)
Lemma parseInlineLoop_runs pats fuel remaining r :
  parseInlineLoop pats fuel remaining [] = Some r ->
  exists runs,
    Forall (fun r => run_text r <> []) runs /\
    r = concat (map (styledRunXml []) runs).
Proof.
  revert remaining r. induction fuel as [|fuel IH]; intros remaining r;
    cbn [parseInlineLoop]; [discriminate|].
  destruct (negb (0 <? length remaining)).
  { intros [= <-]. exists []. split; [constructor|reflexivity]. }
  destruct (found (findEarliest pats remaining)) as [[p m]|].
  - rewrite parseInlineLoop_acc.
    destruct (parseInlineLoop pats fuel _ []) as [r'|] eqn:E; [|discriminate].
    cbn [option_map]. intros [= <-].
    destruct (IH _ _ E) as (runs3 & H3 & ->).
    destruct (createRunXml_runs (take (earliestPos (findEarliest pats remaining)) remaining)
                false false false) as (runs1 & H1 & E1).
    destruct (createRunXml_runs (default [] (capture 1 (groups m)))
                (p_bold p) (p_italic p) (p_code p)) as (runs2 & H2 & E2).
    rewrite E2. destruct (0 <? earliestPos (findEarliest pats remaining)).
    + exists (runs1 ++ runs2 ++ runs3). split; [repeat (apply Forall_app; split); assumption|].
      cbn [app]. rewrite E1, !map_app, !concat_app, <- ?app_assoc. reflexivity.
    + exists (runs2 ++ runs3). split; [apply Forall_app; split; assumption|].
      cbn [app]. rewrite !map_app, !concat_app. reflexivity.
  - intros [= <-]. cbn [app]. apply createRunXml_runs.
Qed.

Lemma mismatch_startsWith pat s u :
  mismatch pat s = true -> startsWith pat (s ++ u) = false.
Proof.
  revert s. induction pat as [|x pat IH]; intros [|y s]; cbn [mismatch startsWith app];
    try discriminate.
  destruct (N.eqb x y); cbn [negb orb andb]; [apply IH|reflexivity].
Qed.

Section Literal.

Variables (n : nat) (s : string) (f : rxmatch -> jsstring).

(** A prefix in which the literal starts nowhere is copied. *)
Lemma replaceAll_skip_prefix pre la u :
  no_start (length pre) (lit s) (pre ++ la) = true ->
  replaceAll_from n (rlit s) f 0 (pre ++ la ++ u)
  = pre ++ replaceAll_from n (rlit s) f 0 (la ++ u).
Proof.
  induction pre as [|c pre IH]; intros H; [reflexivity|].
  cbn [length app no_start] in H. apply andb_true_iff in H as [Hc H].
  cbn [app]. rewrite replaceAll_none.
  - rewrite (IH H). reflexivity.
  - unfold match_here. rewrite rmatch_rlit. cbn [rest].
    change (c :: pre ++ la ++ u) with ((c :: pre) ++ la ++ u).
    rewrite app_assoc, (mismatch_startsWith _ _ _ Hc). reflexivity.
Qed.

(** A text without the first unit of the literal is copied. *)
Lemma replaceAll_skip_text h tl pre u :
  lit s = h :: tl -> h ∉ pre ->
  replaceAll_from n (rlit s) f 0 (pre ++ u)
  = pre ++ replaceAll_from n (rlit s) f 0 u.
Proof.
  intros Hs Hpre. apply replaceAll_prefix. intros p1 p2 -> Hp2.
  destruct p2 as [|c p2]; [congruence|].
  unfold match_here. rewrite rmatch_rlit. cbn [rest app]. rewrite Hs.
  cbn [startsWith]. destruct (N.eqb_spec h c) as [->|_]; [|reflexivity].
  exfalso. apply Hpre. apply elem_of_app. right. left.
Qed.

(** Where the literal stands, it is replaced. *)
Lemma replaceAll_here tpl u :
  lit s <> [] -> (forall m, f m = tpl) ->
  replaceAll_from n (rlit s) f 0 (lit s ++ u)
  = tpl ++ replaceAll_from n (rlit s) f 0 u.
Proof.
  intros Hs Hf.
  assert (Hm : match_here n (rlit s) (lit s ++ u) = Some (MState u [])).
  { unfold match_here. rewrite rmatch_rlit. cbn [rest caps].
    replace (startsWith (lit s) (lit s ++ u)) with true
      by (symmetry; apply startsWith_spec; eauto).
    rewrite drop_app_length. reflexivity. }
  rewrite (replaceAll_some _ _ _ _ _ Hm).
  - rewrite Hf. reflexivity.
  - cbn [rest]. rewrite length_app. destruct (lit s); [congruence|simpl; lia].
Qed.

End Literal.

Lemma lt_notin_escapeXml text : lt ∉ escapeXml text.
Proof.
  intros H. pose proof (escapeXml_clean text) as Hc. rewrite Forall_forall in Hc.
  destruct (Hc _ H) as [E|E]; vm_compute in E; discriminate.
Qed.

(** One run under the replacement of a header cell. *)
Lemma header_run n (f : rxmatch -> jsstring) r u :
  (forall m, f m = xml "<w:rPr>" ++ headerRunProps) ->
  replaceAll_from n rPrRegex f 0 (styledRunXml [] r ++ u)
  = styledRunXml headerRunProps r ++ replaceAll_from n rPrRegex f 0 u.
Proof.
  intros Hf. unfold rPrRegex, styledRunXml. rewrite app_nil_l, <- !app_assoc.
  change (xml "<w:rPr>") with (lit "<w:rPr>").
  rewrite (replaceAll_skip_prefix n "<w:rPr>" f (xml "<w:r>") (lit "<w:rPr>"))
    by (vm_compute; reflexivity).
  rewrite (replaceAll_here n "<w:rPr>" f (lit "<w:rPr>" ++ headerRunProps))
    by (discriminate || exact Hf).
  rewrite <- !app_assoc. do 4 f_equal.
  set (tail := xml "</w:t></w:r>" ++ u).
  assert (Hprops : forall v,
            replaceAll_from n (rlit "<w:rPr>") f 0
              (runProps (run_bold r) (run_italic r) (run_code r) ++ xml "</w:rPr>"
               ++ xml "<w:t xml:space='preserve'>" ++ v)
            = runProps (run_bold r) (run_italic r) (run_code r) ++ xml "</w:rPr>"
              ++ xml "<w:t xml:space='preserve'>"
              ++ replaceAll_from n (rlit "<w:rPr>") f 0 v).
  { intros v.
    pose proof (replaceAll_skip_prefix n "<w:rPr>" f
                  (runProps (run_bold r) (run_italic r) (run_code r) ++ xml "</w:rPr>"
                   ++ xml "<w:t xml:space='preserve'>") [] v) as H.
    rewrite app_nil_l, app_nil_r, <- !app_assoc in H. apply H.
    destruct (run_bold r), (run_italic r), (run_code r); vm_compute; reflexivity. }
  rewrite Hprops. do 3 f_equal.
  rewrite (replaceAll_skip_text n "<w:rPr>" f lt (lit "w:rPr>") (escapeXml (run_text r)))
    by (reflexivity || apply lt_notin_escapeXml).
  apply (f_equal (app (escapeXml (run_text r)))). unfold tail.
  pose proof (replaceAll_skip_prefix n "<w:rPr>" f (xml "</w:t></w:r>") [] u) as H.
  rewrite app_nil_l in H. apply H. vm_compute. reflexivity.
Qed.

Lemma header_runs n (f : rxmatch -> jsstring) runs :
  (forall m, f m = xml "<w:rPr>" ++ headerRunProps) ->
  replaceAll_from n rPrRegex f 0 (concat (map (styledRunXml []) runs))
  = concat (map (styledRunXml headerRunProps) runs).
Proof.
  intros Hf. induction runs as [|r runs IH]; cbn [map concat].
  - apply replaceAll_nil. reflexivity.
  - rewrite (header_run _ _ _ _ Hf), IH. reflexivity.
Qed.

End HeaderRuns.

(** X25. The runs of a header cell. What [parseInlineFormatting] returns is
    a sequence of runs with a text that is not empty, and in a header
    cell of a table the replacement of [<w:rPr>] gives the same runs with
    bold and the white colour put in front of the properties of each of
    them. The text of the cell is escaped and holds no [<], so the
    replacement never touches it. *)
Theorem header_cell_runs (cellText : jsstring) :
  exists runs,
    Forall (fun r => run_text r <> []) runs /\
    parseInlineFormatting cellText = concat (map (styledRunXml []) runs) /\
    replaceAll_re rPrRegex (xml "<w:rPr><w:b/><w:color w:val='FFFFFF'/>")
      (parseInlineFormatting cellText)
    = concat (map (styledRunXml headerRunProps) runs) /\
    forall colWidth, exists before,
      cellXml colWidth true cellText
      = before ++ concat (map (styledRunXml headerRunProps) runs)
        ++ xml "</w:p>" ++ xml "</w:tc>".
Proof.
  destruct (parseInlineLoop_runs patterns (S (length cellText)) cellText
              (parseInlineFormatting cellText)) as (runs & Hne & Hruns).
  { apply parseInlineFormatting_total. }
  assert (Hhead : replaceAll_re rPrRegex (xml "<w:rPr><w:b/><w:color w:val='FFFFFF'/>")
                    (parseInlineFormatting cellText)
                  = concat (map (styledRunXml headerRunProps) runs)).
  { unfold replaceAll_re, replaceAll_fn. set (f := substitute _ _ _).
    assert (Hf : forall m, f m = xml "<w:rPr>" ++ headerRunProps).
    { intros m. unfold f, substitute. rewrite getSubstitution_plain; [reflexivity|].
      vm_compute. intros H.
      repeat (apply elem_of_cons in H as [H|H]; [discriminate|]).
      apply elem_of_nil in H. exact H. }
    clearbody f. rewrite Hruns. apply header_runs. exact Hf. }
  exists runs. split; [exact Hne|]. split; [exact Hruns|]. split; [exact Hhead|].
  intros colWidth. unfold cellXml, tableCellXml. cbv zeta. rewrite Hhead.
  eexists. rewrite <- (app_assoc _ (xml "</w:p>")), <- (app_assoc _ (concat _)).
  reflexivity.
Qed.
